(** * Startups e-mail scraper: a shallow embedding of the crawl, extraction
      and scoring pipeline, with the properties of its specification.

    Python [str] values are modelled by [string] (8-bit characters, so the
    model covers ASCII text), [set] by [gset], insertion-ordered [dict] by
    association lists, clock readings by rationals.  Library calls
    ([urllib], [tldextract], [bs4], [robotparser], the HTTP client) are
    parameters of the sections that use them. *)

From Stdlib Require Import Ascii String NArith ZArith QArith Lqa.
From stdpp Require Import gmap strings list sorting.

Local Open Scope string_scope.

(** ** Outcomes of library calls that may raise *)

Inductive outcome (A : Type) : Type :=
| Returned (a : A)
| Raised.
Arguments Returned {A} a.
Arguments Raised {A}.

(** ** Python [str] operations *)

Module PyStr.

Definition code (c : ascii) : N := N_of_ascii c.

Definition is_upper (c : ascii) : bool := (65 <=? code c)%N && (code c <=? 90)%N.
Definition is_lower (c : ascii) : bool := (97 <=? code c)%N && (code c <=? 122)%N.
Definition is_digit (c : ascii) : bool := (48 <=? code c)%N && (code c <=? 57)%N.
Definition is_alpha (c : ascii) : bool := is_upper c || is_lower c.
Definition is_alnum (c : ascii) : bool := is_alpha c || is_digit c.

(** [str.isspace] on ASCII: TAB, LF, VT, FF, CR, FS, GS, RS, US and space. *)
Definition is_space (c : ascii) : bool :=
  ((9 <=? code c)%N && (code c <=? 13)%N)
  || ((28 <=? code c)%N && (code c <=? 32)%N).

Definition lower_char (c : ascii) : ascii :=
  if is_upper c then ascii_of_N (code c + 32) else c.

(** [s.lower()] *)
Fixpoint lower (s : string) : string :=
  match s with
  | EmptyString => EmptyString
  | String c s' => String (lower_char c) (lower s')
  end.

Definition is_empty (s : string) : bool :=
  match s with EmptyString => true | _ => false end.

Fixpoint lstrip_by (p : ascii -> bool) (s : string) : string :=
  match s with
  | EmptyString => EmptyString
  | String c s' => if p c then lstrip_by p s' else s
  end.

Fixpoint rstrip_by (p : ascii -> bool) (s : string) : string :=
  match s with
  | EmptyString => EmptyString
  | String c s' =>
      let r := rstrip_by p s' in
      if is_empty r && p c then EmptyString else String c r
  end.

Definition strip_by (p : ascii -> bool) (s : string) : string :=
  rstrip_by p (lstrip_by p s).

(** [s.strip()] *)
Definition strip (s : string) : string := strip_by is_space s.

Fixpoint mem_char (c : ascii) (chars : string) : bool :=
  match chars with
  | EmptyString => false
  | String d r => Ascii.eqb c d || mem_char c r
  end.

(** [s.strip(chars)] *)
Definition strip_chars (chars : string) (s : string) : string :=
  strip_by (fun c => mem_char c chars) s.

(** [s.startswith(p)] *)
Definition startswith (s p : string) : bool := String.prefix p s.

Fixpoint drop (n : nat) (s : string) : string :=
  match n, s with
  | O, _ => s
  | S n', String _ s' => drop n' s'
  | S _, EmptyString => EmptyString
  end.

(** [s.endswith(p)] *)
Definition endswith (s p : string) : bool :=
  (String.length p <=? String.length s)%nat
  && String.eqb (drop (String.length s - String.length p) s) p.

(** [p in s] *)
Fixpoint contains (p s : string) : bool :=
  String.prefix p s ||
  match s with
  | EmptyString => false
  | String _ s' => contains p s'
  end.

(** [s.split(sep, 1)] for a one-character separator: the text before the
    first separator and, when there is one, the text after it. *)
Fixpoint split_once (sep : ascii) (s : string) : string * option string :=
  match s with
  | EmptyString => (EmptyString, None)
  | String c s' =>
      if Ascii.eqb c sep then (EmptyString, Some s')
      else let '(a, b) := split_once sep s' in (String c a, b)
  end.

(** [s.split(sep)] for a one-character separator. *)
Fixpoint split (sep : ascii) (s : string) : list string :=
  match s with
  | EmptyString => [EmptyString]
  | String c s' =>
      if Ascii.eqb c sep then EmptyString :: split sep s'
      else match split sep s' with
           | p :: ps => String c p :: ps
           | [] => [String c EmptyString]
           end
  end.

(** [s.replace(pat, "")] for a non-empty pattern: occurrences are removed
    left to right, without overlap.  The recursion is bounded by the
    length of the text. *)
Fixpoint remove_all_fuel (fuel : nat) (pat s : string) : string :=
  match fuel with
  | O => s
  | S fuel' =>
      match s with
      | EmptyString => EmptyString
      | String c s' =>
          if String.prefix pat s
          then remove_all_fuel fuel' pat (drop (String.length pat) s)
          else String c (remove_all_fuel fuel' pat s')
      end
  end.

Definition remove_all (pat s : string) : string :=
  remove_all_fuel (String.length s) pat s.

(** [sep.join(parts)] *)
Definition join (sep : string) (parts : list string) : string :=
  String.concat sep parts.

(** [s.find(p)]: the text before and after the first occurrence. *)
Fixpoint partition (p s : string) : option (string * string) :=
  if String.prefix p s then Some (EmptyString, drop (String.length p) s)
  else match s with
       | EmptyString => None
       | String c s' =>
           match partition p s' with
           | Some (a, b) => Some (String c a, b)
           | None => None
           end
       end.

(** The longest prefix whose characters satisfy [p], and the rest. *)
Fixpoint span (p : ascii -> bool) (s : string) : string * string :=
  match s with
  | EmptyString => (EmptyString, EmptyString)
  | String c s' =>
      if p c then let '(a, b) := span p s' in (String c a, b)
      else (EmptyString, s)
  end.

(** The order of [sorted] on [str]: code point by code point. *)
Definition le (s1 s2 : string) : Prop := String.leb s1 s2 = true.

#[export] Instance le_dec : RelDecision le.
Proof. intros s1 s2. unfold le. apply _. Defined.

#[export] Instance le_total : Total le.
Proof. intros s1 s2. apply String.leb_total. Qed.

#[export] Instance le_antisym : AntiSymm (=) le.
Proof. intros s1 s2. apply String.leb_antisym. Qed.

(** [sorted(xs)] *)
Definition sorted (l : list string) : list string := merge_sort le l.

End PyStr.

(** ** scraper/extract.py *)

Module Extract.
Import PyStr.

(** [EMAIL_RE] on ASCII text.  One character of
    [[a-z0-9!#$%&'*+/=?^_`{|}~-]] under [re.IGNORECASE].  On a [str] the
    flag also lets a letter of the class match the few characters outside
    ASCII that fold to it (the Kelvin sign, the long s, the dotted and the
    dotless i); text that holds them is outside this model. *)
Definition is_atext (c : ascii) : bool :=
  is_alnum c || mem_char c "!#$%&'*+/=?^_`{|}~-".

(** One character of [[a-z0-9-]] under [re.IGNORECASE]. *)
Definition is_label_char (c : ascii) : bool :=
  is_alnum c || Ascii.eqb c "-".

(** The rest of the local part once its first character is consumed:
    [[atext]*(?:\.[atext]+)*], greedy.  No shorter choice can be followed
    by ["@"], so the greedy one is the only one the engine can keep. *)
Fixpoint scan_atoms (s : string) : string * string :=
  match s with
  | EmptyString => (EmptyString, EmptyString)
  | String c s' =>
      if is_atext c then
        let '(m, r) := scan_atoms s' in (String c m, r)
      else if Ascii.eqb c "." then
        match s' with
        | String d s'' =>
            if is_atext d then
              let '(m, r) := scan_atoms s'' in (String c (String d m), r)
            else (EmptyString, s)
        | EmptyString => (EmptyString, s)
        end
      else (EmptyString, s)
  end.

Definition match_local (s : string) : option (string * string) :=
  match s with
  | String c s' =>
      if is_atext c then
        let '(m, r) := scan_atoms s' in Some (String c m, r)
      else None
  | EmptyString => None
  end.

(** [[a-z0-9](?:[a-z0-9-]*[a-z0-9])?]: the longest run of label
    characters, given back up to its last letter or digit. *)
Definition match_label (s : string) : option (string * string) :=
  match s with
  | String c s' =>
      if is_alnum c then
        let '(run, rest) := span is_label_char s' in
        let kept := rstrip_by (Ascii.eqb "-") run in
        Some (String c kept, drop (String.length kept) run ++ rest)
      else None
  | EmptyString => None
  end.

(** [(?:\.label)*], greedy; the recursion is bounded by the text. *)
Fixpoint match_dot_labels (fuel : nat) (s : string) : string * string :=
  match fuel with
  | O => (EmptyString, s)
  | S fuel' =>
      match s with
      | String c s' =>
          if Ascii.eqb c "." then
            match match_label s' with
            | Some (l, r) =>
                let '(m, r') := match_dot_labels fuel' r in
                (String c (l ++ m), r')
            | None => (EmptyString, s)
            end
          else (EmptyString, s)
      | EmptyString => (EmptyString, s)
      end
  end.

(** [label(?:\.label)+] *)
Definition match_host (s : string) : option (string * string) :=
  match match_label s with
  | Some (l0, r0) =>
      let '(m, r) := match_dot_labels (String.length r0) r0 in
      if is_empty m then None else Some (l0 ++ m, r)
  | None => None
  end.

(** A match of [EMAIL_RE] anchored at the start of [s]: matched text and
    remaining text. *)
Definition match_at (s : string) : option (string * string) :=
  match match_local s with
  | Some (loc, String c r) =>
      if Ascii.eqb c "@" then
        match match_host r with
        | Some (h, r') => Some (loc ++ String c h, r')
        | None => None
        end
      else None
  | _ => None
  end.

(** [EMAIL_RE.finditer(html)]: leftmost matches, left to right, without
    overlap. *)
Fixpoint finditer_fuel (fuel : nat) (s : string) : list string :=
  match fuel with
  | O => []
  | S fuel' =>
      match match_at s with
      | Some (m, r) => m :: finditer_fuel fuel' r
      | None =>
          match s with
          | String _ s' => finditer_fuel fuel' s'
          | EmptyString => []
          end
      end
  end.

Definition finditer (s : string) : list string :=
  finditer_fuel (S (String.length s)) s.

Definition IMAGE_EXT : list string :=
  [".png"; ".jpg"; ".jpeg"; ".gif"; ".svg"; ".webp"; ".bmp"].

Definition is_image (e : string) : bool :=
  existsb (endswith (lower e)) IMAGE_EXT.

Definition candidates (html : string) : gset string :=
  list_to_set (map (strip_chars ".,;:") (finditer html)).

Definition filtered (html : string) : gset string :=
  set_map (fun e => strip (remove_all "mailto:" e))
          (filter (fun e => is_image e = false) (candidates html)).

Definition on_domain (domain e : string) : bool :=
  endswith (lower e) ("@" ++ lower domain).

(** [extract_emails_from_html(html, domain)].  [sorted] makes the result
    independent of the order in which the set is enumerated. *)
Definition extract_emails_from_html (html : string) (domain : option string)
  : list string :=
  let f := elements (filtered html) in
  match domain with
  | None => sorted f
  | Some d =>
      if is_empty d then sorted f
      else
        let on := sorted (List.filter (on_domain d) f) in
        let lowered_on : gset string := list_to_set (map lower on) in
        let off := sorted (List.filter
                             (fun e => bool_decide (lower e ∉ lowered_on)) f) in
        on ++ off
  end.

End Extract.

(** ** Insertion-ordered [dict] with [str] keys *)

Module Dict.
Section Dict.
Context {V : Type}.

Fixpoint get (d : list (string * V)) (k : string) : option V :=
  match d with
  | [] => None
  | (k', v) :: r => if String.eqb k k' then Some v else get r k
  end.

(** [d[k] = v]: an existing key keeps its position, a new one goes last. *)
Fixpoint set (d : list (string * V)) (k : string) (v : V)
  : list (string * V) :=
  match d with
  | [] => [(k, v)]
  | (k', v') :: r =>
      if String.eqb k k' then (k', v) :: r else (k', v') :: set r k v
  end.

(** [list(d.keys())] *)
Definition keys (d : list (string * V)) : list string := map fst d.
End Dict.
End Dict.

(** ** scraper/validate.py *)

Module Validate.
Import PyStr.

Definition DISPOSABLE_DOMAINS : gset string :=
  {[ "mailinator.com"; "guerrillamail.com"; "10minutemail.com";
     "tempmail.com"; "yopmail.com" ]}.

Definition GENERIC_PREFIXES : gset string :=
  {[ "info"; "hello"; "contact"; "hi"; "support"; "team"; "careers"; "jobs" ]}.

Fixpoint filter_emails_basic (emails : list string) (domain : option string)
  : list string :=
  match emails with
  | [] => []
  | e :: rest =>
      match split_once "@" e with
      | (_, None) => filter_emails_basic rest domain
      | (_, Some dom) =>
          if bool_decide (lower dom ∈ DISPOSABLE_DOMAINS)
          then filter_emails_basic rest domain
          else strip e :: filter_emails_basic rest domain
      end
  end.

(** The loop of [dedupe_keep_order], with its [seen] set. *)
Fixpoint dedupe_from (seen : gset string) (items : list string) : list string :=
  match items with
  | [] => []
  | x :: rest =>
      let k := lower x in
      if bool_decide (k ∈ seen) then dedupe_from seen rest
      else x :: dedupe_from ({[ k ]} ∪ seen) rest
  end.

Definition dedupe_keep_order (items : list string) : list string :=
  dedupe_from ∅ items.

(** A verifier verdict: the fields of the JSON object, of which only
    ["result"] is read. *)
Abbreviation verdict := (gmap string string).

(** [hv = hunter_verification.get(e) if hunter_verification else None]
    followed by [hv and hv.get("result") == "valid"]. *)
Definition says_valid (hunter_verification : gmap string verdict) (e : string)
  : bool :=
  let hv := if bool_decide (hunter_verification = ∅) then None
            else hunter_verification !! e in
  match hv with
  | Some v => negb (bool_decide (v = ∅))
              && bool_decide (v !! "result" = Some "valid")
  | None => false
  end.

(** First loop: the first e-mail a verifier calls valid. *)
Fixpoint scan_valid (hunter_verification : gmap string verdict)
    (emails_by_source : list (string * string)) (emails : list string)
  : option (string * string) :=
  match emails with
  | [] => None
  | e :: rest =>
      if says_valid hunter_verification e
      then Some ("high", default "page" (Dict.get emails_by_source e))
      else scan_valid hunter_verification emails_by_source rest
  end.

(** Second loop: an e-mail found by Apollo. *)
Fixpoint scan_apollo (emails_by_source : list (string * string))
    (emails : list string) : option (string * string) :=
  match emails with
  | [] => None
  | e :: rest =>
      if bool_decide (Dict.get emails_by_source e = Some "apollo")
      then Some ("high", "apollo")
      else scan_apollo emails_by_source rest
  end.

(** [e.split("@", 1)[0].lower()] *)
Definition local_part (e : string) : string := lower (fst (split_once "@" e)).

(** ["." in local and all(part for part in local.split("."))] *)
Definition dotted_name (local : string) : bool :=
  contains "." local && forallb (fun part => negb (is_empty part)) (split "." local).

(** Third loop: an on-page e-mail that looks personal. *)
Fixpoint scan_page (emails_by_source : list (string * string))
    (emails : list string) : option (string * string) :=
  match emails with
  | [] => None
  | e :: rest =>
      let local := local_part e in
      if bool_decide (Dict.get emails_by_source e = Some "page") then
        if dotted_name local then Some ("medium", "page")
        else if bool_decide (local ∉ GENERIC_PREFIXES) then Some ("medium", "page")
        else scan_page emails_by_source rest
      else scan_page emails_by_source rest
  end.

Definition assess_confidence (emails : list string)
    (hunter_verification : gmap string verdict)
    (emails_by_source : list (string * string)) : string * string :=
  match scan_valid hunter_verification emails_by_source emails with
  | Some r => r
  | None =>
  match scan_apollo emails_by_source emails with
  | Some r => r
  | None =>
  match scan_page emails_by_source emails with
  | Some r => r
  | None =>
      let method :=
        match emails with
        | e0 :: _ => default "page" (Dict.get emails_by_source e0)
        | [] => "serp"
        end in
      ("low", method)
  end end end.

End Validate.

(** ** scraper/io.py *)

Module Io.
Import PyStr.

(** A row of the input table; [None] when the column is missing, so that
    [getattr(r, "company_name", "")] falls back to [""]. *)
Record input_row := { in_company_name : option string; in_website : string }.

(** A row of the checkpoint table; [None] when the row has no such
    attribute ([hasattr] is false). *)
Record checkpoint_row := {
  chk_company_name : option string;
  chk_domain : option string
}.

(** The set comprehension building [processed]. *)
Fixpoint processed_keys (chk : list checkpoint_row) : gset (string * string) :=
  match chk with
  | [] => ∅
  | r :: rest =>
      match chk_company_name r, chk_domain r with
      | Some n, Some d => {[ (strip n, strip d) ]} ∪ processed_keys rest
      | _, _ => processed_keys rest
      end
  end.

(** One entry of [mask]: [key not in processed]. *)
Definition row_mask (processed : gset (string * string)) (r : input_row) : bool :=
  let key := (strip (default "" (in_company_name r)), "") in
  bool_decide (key ∉ processed).

Definition merge_checkpoint (df : list input_row) (chk : list checkpoint_row)
  : list input_row :=
  match chk with
  | [] => df
  | _ =>
      let processed := processed_keys chk in
      List.filter (row_mask processed) df
  end.

End Io.

(** ** scraper/utils.py *)

(** The error monad of code that runs under [try]. *)
#[export] Instance outcome_ret : MRet outcome := fun _ a => Returned a.
#[export] Instance outcome_bind : MBind outcome := fun _ _ f m =>
  match m with
  | Returned a => f a
  | Raised => Raised
  end.

(** [try: body / except Exception: return handler] *)
Definition try_except {A : Type} (body : outcome A) (handler : A) : outcome A :=
  match body with
  | Returned a => Returned a
  | Raised => Returned handler
  end.

(** What [urlparse(s)] gives: the [hostname] and [path] attributes. *)
Record ParseResult := { hostname : option string; path : string }.

(** What [tldextract.extract(host)] gives. *)
Record ExtractResult := { subdomain : string; domain : string; suffix : string }.

Module Utils.
Import PyStr.

Section Urls.
(** [urllib.parse.urlparse]; it raises [ValueError] on some inputs. *)
Variable urlparse : string -> outcome ParseResult.
(** [tldextract.extract] *)
Variable tld_extract : string -> outcome ExtractResult.

Definition normalize_domain (url_or_domain : option string)
  : outcome (option string) :=
  match url_or_domain with
  | None => Returned None
  | Some u =>
      if is_empty u then Returned None
      else
        let s := strip u in
        if is_empty s then Returned None
        else
          let s := if negb (contains "://" s) then "http://" ++ s else s in
          try_except
            (parsed ← urlparse s;
             let host := default "" (hostname parsed) in
             if is_empty host then mret None
             else
               ext ← tld_extract host;
               if is_empty (domain ext) || is_empty (suffix ext) then mret None
               else mret (Some (join "."
                      (List.filter (fun part => negb (is_empty part))
                                   [domain ext; suffix ext]))))
            None
  end.

Definition same_domain (dom : string) (url : string) : outcome bool :=
  try_except
    (parsed ← urlparse url;
     let host := default "" (hostname parsed) in
     ext ← tld_extract host;
     let reg := if negb (is_empty (domain ext)) && negb (is_empty (suffix ext))
                then join "." [domain ext; suffix ext] else host in
     mret (String.eqb (lower reg) (lower dom)))
    false.
End Urls.

(** An HTTP response, as far as [fetch_text] reads it. *)
Record Response := { status_code : Z; text : string }.

(** [r.raise_for_status()]: httpx raises for every status that is not a
    success (2xx). *)
Definition raise_for_status (r : Response) : outcome unit :=
  if (200 <=? status_code r)%Z && (status_code r <? 300)%Z then Returned tt
  else Raised.

(** [fetch_text(http_client, url, allow_404)]; [http_get] is
    [http_client.get], which raises on network failure.  The jitter sleep
    has no effect on the result. *)
Definition fetch_text (http_get : string -> outcome Response)
    (url : string) (allow_404 : bool) : outcome (option string) :=
  r ← http_get url;
  if allow_404 && (status_code r =? 404)%Z then mret None
  else
    _ ← raise_for_status r;
    mret (Some (text r)).

(** *** RateLimiter *)

Record RateLimiter := { per_minute : Z; timestamps : list Q }.

(** [RateLimiter.__init__] *)
Definition RateLimiter_init (n : Z) : RateLimiter :=
  {| per_minute := Z.max 1 n; timestamps := [] |}.

(** [now - t > 60].  Clock readings and the arithmetic on them are exact
    rationals here; the code computes in floating point, so a difference
    that lies within rounding of one minute may compare the other way
    there. *)
Definition older_than_minute (now t : Q) : bool :=
  negb (Qle_bool (now - t) 60).

(** [while self.timestamps and now - self.timestamps[0] > 60: popleft()] *)
Fixpoint purge (now : Q) (ts : list Q) : list Q :=
  match ts with
  | [] => []
  | t :: rest => if older_than_minute now t then purge now rest else ts
  end.

(** [self.timestamps[0]]: [IndexError] on an empty deque. *)
Definition first_ts (ts : list Q) : outcome Q :=
  match ts with
  | [] => Raised
  | t :: _ => Returned t
  end.

(** [acquire] up to its suspension point: the clock is read, old entries
    are dropped, and the caller learns how long it must sleep ([None]: it
    does not sleep).  Under the cooperative scheduler this part runs
    without interruption. *)
Definition acquire_enter (now : Q) (rl : RateLimiter)
  : outcome (RateLimiter * option Q) :=
  let ts := purge now (timestamps rl) in
  let rl' := {| per_minute := per_minute rl; timestamps := ts |} in
  if (per_minute rl <=? Z.of_nat (length ts))%Z then
    t0 ← first_ts ts;
    mret (rl', Some (60 - (now - t0) + (1 # 100))%Q)
  else mret (rl', None).

(** [self.timestamps.append(time.monotonic())], run when the caller is
    resumed (or at once when it did not sleep); [t] is the clock reading. *)
Definition acquire_record (t : Q) (rl : RateLimiter) : RateLimiter :=
  {| per_minute := per_minute rl; timestamps := timestamps rl ++ [t] |}.

(** [acquire] for a caller that no other caller interleaves with: [now]
    and [done] are the two clock readings. *)
Definition acquire (now done : Q) (rl : RateLimiter) : outcome RateLimiter :=
  '(rl', _) ← acquire_enter now rl;
  mret (acquire_record done rl').

(** Calls one after the other. *)
Fixpoint acquire_all (calls : list (Q * Q)) (rl : RateLimiter)
  : outcome RateLimiter :=
  match calls with
  | [] => mret rl
  | (now, done) :: rest => rl' ← acquire now done rl; acquire_all rest rl'
  end.

(** **** Callers interleaved by the event loop *)

(** What the event loop runs next: caller [who] starts [acquire] at clock
    reading [now] (and, when it need not sleep, records clock reading
    [done]); or the sleeping caller [who] is resumed at [done]. *)
Inductive event :=
| Enter (who : nat) (now done : Q)
| Resume (who : nat) (done : Q).

Record sched := {
  limiter : RateLimiter;
  sleeping : list (nat * Q);      (* caller, earliest wake-up time *)
  completions : list Q            (* when each [acquire] returned *)
}.

Definition wake_time (who : nat) (sl : list (nat * Q)) : option Q :=
  snd <$> List.find (fun p => Nat.eqb (fst p) who) sl.

Definition unsleep (who : nat) (sl : list (nat * Q)) : list (nat * Q) :=
  List.filter (fun p => negb (Nat.eqb (fst p) who)) sl.

(** One event; [None] when the event cannot happen in this state (a
    clock running backwards, a caller resumed before its sleep is over or
    entering while it sleeps), [Some Raised] when the code raises. *)
Definition sched_step (clock : Q) (s : sched) (ev : event)
  : option (outcome (Q * sched)) :=
  match ev with
  | Enter who now done =>
      if Qle_bool clock now && Qle_bool now done
         && negb (bool_decide (is_Some (wake_time who (sleeping s)))) then
        match acquire_enter now (limiter s) with
        | Raised => Some Raised
        | Returned (rl, None) =>
            Some (Returned (done,
              {| limiter := acquire_record done rl;
                 sleeping := sleeping s;
                 completions := completions s ++ [done] |}))
        | Returned (rl, Some wait_for) =>
            Some (Returned (now,
              {| limiter := rl;
                 sleeping := sleeping s ++ [(who, (now + wait_for)%Q)];
                 completions := completions s |}))
        end
      else None
  | Resume who done =>
      match wake_time who (sleeping s) with
      | Some w =>
          if Qle_bool clock done && Qle_bool w done then
            Some (Returned (done,
              {| limiter := acquire_record done (limiter s);
                 sleeping := unsleep who (sleeping s);
                 completions := completions s ++ [done] |}))
          else None
      | None => None
      end
  end.

Fixpoint sched_run (clock : Q) (s : sched) (evs : list event)
  : option (outcome (Q * sched)) :=
  match evs with
  | [] => Some (Returned (clock, s))
  | ev :: rest =>
      match sched_step clock s ev with
      | Some (Returned (clock', s')) => sched_run clock' s' rest
      | other => other
      end
  end.

Definition sched_init (n : Z) : sched :=
  {| limiter := RateLimiter_init n; sleeping := []; completions := [] |}.

(** How many completions fall in the 60-second window that starts at [t]. *)
Definition in_window (t : Q) (cs : list Q) : nat :=
  length (List.filter (fun c => Qle_bool t c && Qle_bool c (t + 60)) cs).

End Utils.

(** ** scraper/scrape.py *)

Module Scrape.
Import PyStr.

(** [KEYWORDS], listed in the order of the source text. *)
Definition KEYWORDS : list string :=
  ["contact"; "about"; "team"; "people"; "career"; "careers"; "join";
   "recruit"; "jobs"].

Record Settings := {
  max_pages_per_site : Z;
  max_depth : Z;
  user_agent : string
}.

(** What the crawl knows of robots.txt: [txt] was never bound (the fetch
    raised), is [None] (404), or holds the text. *)
Inductive robots_txt :=
| TxtUnbound
| TxtNone
| TxtText (txt : string).

Record crawl_state := {
  q : list (string * Z);
  seen : gset string;
  emails : gset string;
  notes : list string;
  pages_visited : Z;
  (* ghost: every [fetch_text] call on a queued page, and whether it
     returned *)
  fetch_log : list (string * bool)
}.

Section Crawl.
Variable urlparse : string -> outcome ParseResult.
Variable tld_extract : string -> outcome ExtractResult.
(** [urllib.parse.urljoin] *)
Variable urljoin : string -> string -> outcome string.
(** The [href] of every [<a href=...>] that BeautifulSoup finds. *)
Variable find_all_hrefs : string -> outcome (list string).
(** [RobotFileParser.can_fetch] after [parse] of the given text. *)
Variable can_fetch : string -> string -> string -> outcome bool.
(** [http_client.get]: the answer to the [n]-th request of the crawl. *)
Variable http_get : nat -> string -> outcome Utils.Response.
(** [KEYWORDS] in the order the interpreter enumerates the set. *)
Variable keywords : list string.

Variable target : string.        (* the [domain] argument *)
Variable settings : Settings.

(** The test of [enqueue_candidates] on one URL's path. *)
Definition wanted_path (p : string) : bool :=
  existsb (fun k => contains k p) keywords
  || String.eqb p "/" || String.eqb p "".

(** [enqueue_candidates(urls, q)]: the queue as the loop leaves it, and
    whether the loop ran to its end. *)
Fixpoint enqueue_candidates (seen : gset string) (urls : list string)
    (q : list (string * Z)) : list (string * Z) * outcome unit :=
  match urls with
  | [] => (q, Returned tt)
  | u :: rest =>
      if bool_decide (u ∈ seen) then enqueue_candidates seen rest q
      else
        match Utils.same_domain urlparse tld_extract target u with
        | Raised => (q, Raised)
        | Returned false => enqueue_candidates seen rest q
        | Returned true =>
            match urlparse u with
            | Raised => (q, Raised)
            | Returned parsed =>
                if wanted_path (lower (path parsed))
                then enqueue_candidates seen rest (q ++ [(u, 0%Z)])
                else enqueue_candidates seen rest q
            end
        end
  end.

(** The loop that builds [links] from the anchors of a page. *)
Fixpoint page_links (url : string) (hrefs : list string)
  : outcome (list string) :=
  match hrefs with
  | [] => mret []
  | h :: rest =>
      let href := strip h in
      if startswith href "#" || startswith href "mailto:"
      then page_links url rest
      else
        full ← urljoin url href;
        links ← page_links url rest;
        mret (full :: links)
  end.

(** The robots test inside the loop; a raised exception is passed over. *)
Definition robots_disallows (txt : robots_txt) (url : string) : bool :=
  match txt with
  | TxtText t =>
      match can_fetch t (user_agent settings) url with
      | Returned allowed => negb allowed
      | Raised => false
      end
  | _ => false
  end.

Definition add_note (n : string) (st : crawl_state) : crawl_state :=
  {| q := q st; seen := seen st; emails := emails st;
     notes := notes st ++ [n]; pages_visited := pages_visited st;
     fetch_log := fetch_log st |}.

(** [q.popleft()] *)
Definition popped (rest : list (string * Z)) (st : crawl_state) : crawl_state :=
  {| q := rest; seen := seen st; emails := emails st; notes := notes st;
     pages_visited := pages_visited st; fetch_log := fetch_log st |}.

(** The [except] branch of the page fetch. *)
Definition fetch_failed (url : string) (st : crawl_state) : crawl_state :=
  {| q := q st; seen := seen st; emails := emails st;
     notes := notes st ++ ["fetch_error:" ++ url];
     pages_visited := pages_visited st;
     fetch_log := fetch_log st ++ [(url, false)] |}.

(** [pages_visited += 1] and [emails.update(...)] *)
Definition page_fetched (url html : string) (st : crawl_state) : crawl_state :=
  {| q := q st; seen := seen st;
     emails := emails st
               ∪ list_to_set (Extract.extract_emails_from_html html (Some target));
     notes := notes st;
     pages_visited := (pages_visited st + 1)%Z;
     fetch_log := fetch_log st ++ [(url, true)] |}.

(** The [try] block that enqueues the links of the page. *)
Definition follow_links (url html : string) (st : crawl_state) : crawl_state :=
  match hrefs ← find_all_hrefs html; page_links url hrefs with
  | Raised => add_note ("parse_links_error:" ++ url) st
  | Returned links =>
      match enqueue_candidates (seen st) links (q st) with
      | (q', Raised) =>
          add_note ("parse_links_error:" ++ url) (popped q' st)
      | (q', Returned _) =>
          {| q := q'; seen := seen st ∪ list_to_set links;
             emails := emails st; notes := notes st;
             pages_visited := pages_visited st;
             fetch_log := fetch_log st |}
      end
  end.

(** One turn of the [while] loop; [None] when its condition is false.
    The page of a fetch that returned is never [None], as [allow_404]
    is false. *)
Definition crawl_step (txt : robots_txt) (st : crawl_state)
  : option crawl_state :=
  match q st with
  | [] => None
  | (url, depth) :: rest =>
      if negb (pages_visited st <? max_pages_per_site settings)%Z then None
      else
        let st := popped rest st in
        if (depth >? max_depth settings)%Z then Some st
        else if robots_disallows txt url
        then Some (add_note ("robots_disallow:" ++ url) st)
        else
          match Utils.fetch_text (http_get (S (length (fetch_log st)))) url false with
          | Raised => Some (fetch_failed url st)
          | Returned page =>
              let html := default "" page in
              Some (follow_links url html (page_fetched url html st))
          end
  end.

(** The [while] loop, for at most [fuel] turns; [None] when the turns
    run out before the loop ends. *)
Fixpoint crawl_loop (fuel : nat) (txt : robots_txt) (st : crawl_state)
  : option crawl_state :=
  match crawl_step txt st with
  | None => Some st
  | Some st' =>
      match fuel with
      | O => None
      | S fuel' => crawl_loop fuel' txt st'
      end
  end.

(** The state after [n] turns of the loop (fewer when it ends before). *)
Fixpoint crawl_turns (n : nat) (txt : robots_txt) (st : crawl_state)
  : crawl_state :=
  match n with
  | O => st
  | S n' =>
      match crawl_step txt st with
      | None => st
      | Some st' => crawl_turns n' txt st'
      end
  end.

Definition base_url : string := "https://" ++ target ++ "/".

(** The robots.txt prologue: [inl notes] when the crawl stops at once,
    [inr txt] when it goes on. *)
Definition read_robots (robots_url : string) : list string + robots_txt :=
  match Utils.fetch_text (http_get 0) robots_url true with
  | Raised => inr TxtUnbound
  | Returned None => inr TxtNone
  | Returned (Some t) =>
      match can_fetch t (user_agent settings) base_url with
      | Returned false => inl ["robots_disallow:root"]
      | _ => inr (TxtText t)
      end
  end.

Fixpoint seed_urls (ks : list string) : outcome (list string) :=
  match ks with
  | [] => mret []
  | k :: rest =>
      u ← urljoin base_url ("/" ++ k);
      us ← seed_urls rest;
      mret (u :: us)
  end.

(** The state on entry to the [while] loop. *)
Definition initial_state (seeds : list string) : outcome crawl_state :=
  match enqueue_candidates ∅ seeds [] with
  | (_, Raised) => Raised
  | (q0, Returned _) =>
      Returned {| q := q0; seen := list_to_set (map fst q0); emails := ∅;
                  notes := []; pages_visited := 0; fetch_log := [] |}
  end.

(** The whole crawl with its ghost log: [None] when [fuel] turns do not
    finish it, [Some Raised] when it raises, else the final state. *)
Definition crawl_trace (fuel : nat) : option (outcome crawl_state) :=
  match urljoin base_url "/robots.txt" with
  | Raised => Some Raised
  | Returned robots_url =>
      match read_robots robots_url with
      | inl ns =>
          Some (Returned {| q := []; seen := ∅; emails := ∅; notes := ns;
                            pages_visited := 0; fetch_log := [] |})
      | inr txt =>
          match seeds ← seed_urls keywords; initial_state (base_url :: seeds) with
          | Raised => Some Raised
          | Returned st0 => Returned <$> crawl_loop fuel txt st0
          end
      end
  end.

(** [crawl_site_for_emails(domain, settings, http_client)] *)
Definition crawl_site_for_emails (fuel : nat)
  : option (outcome (list string * list string)) :=
  match crawl_trace fuel with
  | None => None
  | Some Raised => Some Raised
  | Some (Returned st) => Some (Returned (sorted (elements (emails st)), notes st))
  end.

(** Page fetches issued, and those that returned a page. *)
Definition fetches_issued (st : crawl_state) : nat := length (fetch_log st).
Definition fetches_ok (st : crawl_state) : nat :=
  length (List.filter snd (fetch_log st)).
End Crawl.

End Scrape.

(** ** main.py: the evidence of one company *)

Module Main.
Import PyStr Validate.

(** What the network stages hand to [process_company]. *)
Record Feeds := {
  crawl_emails : list string;       (* from [crawl_site_for_emails] *)
  use_hunter : bool;                (* flag set and key present *)
  hunter_search : outcome (list string);
  hunter_verify : list string -> outcome (gmap string verdict);
  use_apollo : bool;
  apollo_emails : outcome (list (option string))  (* [p.get("email")] *)
}.

(** [emails_by_source[e] = emails_by_source.get(e, tag)] *)
Definition note_source (tag : string) (d : list (string * string)) (e : string)
  : list (string * string) :=
  Dict.set d e (default tag (Dict.get d e)).

Definition note_sources (tag : string) (d : list (string * string))
    (es : list string) : list (string * string) :=
  fold_left (note_source tag) es d.

Definition note_apollo (d : list (string * string)) (em : option string)
  : list (string * string) :=
  match em with
  | Some e => if is_empty e then d else note_source "apollo" d e
  | None => d
  end.

Record Evidence := {
  emails_by_source : list (string * string);
  hunter_verification : gmap string verdict;
  found_emails : list string;       (* the [emails] list, joined later *)
  confidence : string;
  method : string
}.

(** Stages 2 to 5 of [process_company]: the results of the network
    calls are its input [f]. *)
Definition process_company (dom : option string) (f : Feeds) : Evidence :=
  let has_domain := match dom with Some d => negb (is_empty d) | None => false end in
  let ebs := if has_domain then note_sources "page" [] (crawl_emails f) else [] in
  let '(ebs, hv) :=
    if use_hunter f then
      match hunter_search f with
      | Raised => (ebs, ∅)
      | Returned hs =>
          let ebs := note_sources "hunter" ebs hs in
          match hunter_verify f (Dict.keys ebs) with
          | Raised => (ebs, ∅)
          | Returned hv => (ebs, hv)
          end
      end
    else (ebs, ∅) in
  let ebs :=
    if use_apollo f then
      match apollo_emails f with
      | Raised => ebs
      | Returned ps => fold_left note_apollo ps ebs
      end
    else ebs in
  let emails := dedupe_keep_order (filter_emails_basic (Dict.keys ebs) dom) in
  let '(c, m) := assess_confidence emails hv ebs in
  {| emails_by_source := ebs; hunter_verification := hv;
     found_emails := emails; confidence := c; method := m |}.

(** The domain part that [filter_emails_basic] tests: the text after the
    first ["@"], lower-cased. *)
Definition domain_part (e : string) : option string :=
  lower <$> snd (split_once "@" e).

Definition disposable (e : string) : Prop :=
  ∃ d, domain_part e = Some d ∧ d ∈ DISPOSABLE_DOMAINS.

End Main.

(** ** Reference behaviour of the library calls

    Small executable versions of the library functions, after their
    documented behaviour on plain [scheme://host[:port]/path] URLs.  They
    serve to run the model on concrete inputs. *)

Module Lib.
Import PyStr.

Definition scheme_char (c : ascii) : bool := is_alnum c || mem_char c "+-.".

Fixpoint all_chars (p : ascii -> bool) (s : string) : bool :=
  match s with
  | EmptyString => true
  | String c s' => p c && all_chars p s'
  end.

(** The scheme of [urlsplit]: the text before the first [":"] when it
    starts with a letter and holds scheme characters only. *)
Definition split_scheme (url : string) : string * string :=
  match split_once ":" url with
  | (String c0 before, Some after) =>
      if is_alpha c0 && all_chars scheme_char before
      then (lower (String c0 before), after)
      else (EmptyString, url)
  | _ => (EmptyString, url)
  end.

(** The network location: after ["//"], up to the first of [/?#]. *)
Definition split_netloc (url : string) : string * string :=
  if String.prefix "//" url
  then span (fun c => negb (mem_char c "/?#")) (drop 2 url)
  else (EmptyString, url).

(** The [hostname] attribute: user information and port removed,
    lower-cased, [None] when empty. *)
Definition hostname_of (netloc : string) : option string :=
  let hostinfo := List.last (split "@" netloc) EmptyString in
  let host :=
    match snd (split_once "[" hostinfo) with
    | Some bracketed => fst (split_once "]" bracketed)
    | None => fst (split_once ":" hostinfo)
    end in
  if is_empty host then None else Some (lower host).

Definition urlparse (url : string) : outcome ParseResult :=
  let '(_, rest) := split_scheme url in
  let '(netloc, rest) := split_netloc rest in
  if xorb (contains "[" netloc) (contains "]" netloc) then Raised
  else Returned {| hostname := hostname_of netloc;
                   path := fst (span (fun c => negb (mem_char c "?#")) rest) |}.

(** A few entries of the public suffix list. *)
Definition PUBLIC_SUFFIXES : list string :=
  ["com"; "org"; "net"; "io"; "ai"; "uk"; "co.uk"].

(** The longest tail of the labels that is a public suffix, with the
    labels before it. *)
Fixpoint split_suffix (before labels : list string)
  : option (list string * string) :=
  match labels with
  | [] => None
  | l :: rest =>
      let cand := join "." labels in
      if existsb (String.eqb cand) PUBLIC_SUFFIXES then Some (before, cand)
      else split_suffix (before ++ [l]) rest
  end.

Definition tld_extract (host : string) : outcome ExtractResult :=
  let labels := split "." (lower host) in
  match split_suffix [] labels with
  | Some (before, suf) =>
      Returned {| subdomain := join "." (removelast before);
                  domain := List.last before EmptyString;
                  suffix := suf |}
  | None =>
      Returned {| subdomain := join "." (removelast labels);
                  domain := List.last labels EmptyString;
                  suffix := EmptyString |}
  end.

(** [urljoin] for an absolute reference, a reference that starts with
    ["/"], and the empty reference. *)
Definition urljoin (base ref : string) : outcome string :=
  _ ← urlparse base;
  _ ← urlparse ref;
  if is_empty ref then mret base
  else if negb (is_empty (fst (split_scheme ref))) then mret ref
  else
    let '(scheme, rest) := split_scheme base in
    let '(netloc, _) := split_netloc rest in
    if String.prefix "/" ref then mret (scheme ++ "://" ++ netloc ++ ref)
    else mret (scheme ++ "://" ++ netloc ++ "/" ++ ref).

(** The anchors of a page written as [<a href='...'>]. *)
Fixpoint hrefs_fuel (fuel : nat) (html : string) : list string :=
  match fuel with
  | O => []
  | S fuel' =>
      match PyStr.partition "<a href='" html with
      | Some (_, after) =>
          match split_once "'" after with
          | (h, Some rest) => h :: hrefs_fuel fuel' rest
          | (_, None) => []
          end
      | None => []
      end
  end.

Definition find_all_hrefs (html : string) : outcome (list string) :=
  Returned (hrefs_fuel (String.length html) html).

(** A robots.txt that allows everything. *)
Definition can_fetch (txt agent url : string) : outcome bool := Returned true.

(** A site given by its pages: every other URL answers 404. *)
Definition serve (pages : list (string * string)) (n : nat) (url : string)
  : outcome Utils.Response :=
  match Dict.get pages url with
  | Some html => Returned {| Utils.status_code := 200; Utils.text := html |}
  | None => Returned {| Utils.status_code := 404; Utils.text := "" |}
  end.

(** A site that cannot be reached. *)
Definition unreachable (n : nat) (url : string) : outcome Utils.Response := Raised.

End Lib.

(** ** scraper/io.py: the files written *)

Module Output.

(** [ResultRow] of scraper/utils.py *)
Record ResultRow := {
  company_name : string;
  domain : string;
  country : string;
  linkedin_url : string;
  founder_name : string;
  found_emails : string;
  emails_with_source : string;
  hunter_verification : string;
  apollo_results : string;
  confidence : string;
  extraction_method : string;
  notes : string;
  timestamp : string
}.

(** [key = (r.company_name, r.domain)] *)
Definition row_key (r : ResultRow) : string * string :=
  (company_name r, domain r).

(** [dedup_key[key] = r] on the insertion-ordered dict: an existing key
    keeps its position and takes the new row, a new key goes last. *)
Fixpoint dedup_set (d : list (string * string * ResultRow))
    (key : string * string) (r : ResultRow)
  : list (string * string * ResultRow) :=
  match d with
  | [] => [(key, r)]
  | (k, v) :: rest =>
      if decide (key = k) then (k, r) :: rest
      else (k, v) :: dedup_set rest key r
  end.

(** The loop over [rows] filling [dedup_key]. *)
Definition dedup_key (rows : list ResultRow)
  : list (string * string * ResultRow) :=
  fold_left (fun d r => dedup_set d (row_key r) r) rows [].

(** [dedup_key.values()] *)
Definition json_data (rows : list ResultRow) : list ResultRow :=
  snd <$> dedup_key rows.

(** What one call leaves on disk: the table written with [to_csv], and
    the JSON file when there is one. *)
Record Written := {
  csv_path : string;
  csv_rows : list ResultRow;
  json_file : option (string * list ResultRow)
}.

Definition write_outputs (rows : list ResultRow)
    (out_csv out_json checkpoint_csv : string) (checkpoint : bool) : Written :=
  if checkpoint then
    {| csv_path := checkpoint_csv; csv_rows := rows; json_file := None |}
  else
    {| csv_path := out_csv; csv_rows := rows;
       json_file := Some (out_json, json_data rows) |}.

End Output.

(** ** scraper/discover.py *)

Module Discover.
Import PyStr Utils.

(** The character class of the pattern: anything but white space, the
    double quote (code 34), [<] and [>]. *)
Definition url_char (c : ascii) : bool :=
  negb (is_space c || (code c =? 34)%N || mem_char c "<>").

(** One match of the pattern at the head of the text: [http], an optional
    [s], [://] (in either case, by [re.I]) and one or more characters of
    the class; the matched text and what follows it.  This is the pattern
    on ASCII text: on a [str], [re.I] also lets the [s] match the long s,
    which is outside this model. *)
Definition match_url (s : string) : option (string * string) :=
  let scheme :=
    if String.prefix "https://" (lower s) then Some 8%nat
    else if String.prefix "http://" (lower s) then Some 7%nat
    else None in
  match scheme with
  | None => None
  | Some n =>
      let '(body, rest) := span url_char (drop n s) in
      if is_empty body then None
      else Some (String.substring 0 n s ++ body, rest)
  end.

(** [re.findall]: the matches from left to right, without overlap.  The
    recursion is bounded by the length of the text. *)
Fixpoint findall_fuel (fuel : nat) (s : string) : list string :=
  match fuel with
  | O => []
  | S fuel' =>
      match s with
      | EmptyString => []
      | String _ s' =>
          match match_url s with
          | Some (m, rest) => m :: findall_fuel fuel' rest
          | None => findall_fuel fuel' s'
          end
      end
  end.

Definition findall (s : string) : list string :=
  findall_fuel (String.length s) s.

(** [[f(u) for u in us]] for an [f] that may raise. *)
Fixpoint for_each {A B : Type} (f : A -> outcome B) (us : list A)
  : outcome (list B) :=
  match us with
  | [] => Returned []
  | u :: rest =>
      match f u with
      | Raised => Raised
      | Returned b =>
          match for_each f rest with
          | Raised => Raised
          | Returned bs => Returned (b :: bs)
          end
      end
  end.

(** [[w for w in ws if w]] *)
Definition truthy_domains (ws : list (option string)) : list string :=
  omap (fun w => match w with
                 | Some s => if is_empty s then None else Some s
                 | None => None
                 end) ws.

Section Discover.
Variable urlparse : string -> outcome ParseResult.
Variable tld_extract : string -> outcome ExtractResult.
(** [http_client.get] *)
Variable http_get : string -> outcome Response.
(** [settings.USE_SERPAPI and os.getenv("SERPAPI_KEY")] *)
Variable serp_allowed : bool.
(** The search for the query [q]: the [link] of each entry of
    [organic_results] in the answer, [None] for an entry without one.  It
    raises when the request fails or the answer does not have this shape. *)
Variable serp_links : string -> outcome (list (option string)).

(** The body of the [try] of stage 2.  [fetch_text] is called without
    [allow_404]; a [None] page would make [re.findall] raise. *)
Definition from_linkedin (linkedin_url : string) : outcome (option string) :=
  html ← fetch_text http_get linkedin_url false;
  match html with
  | None => Raised
  | Some html =>
      let candidates := findall html in
      websites ← for_each (normalize_domain urlparse tld_extract)
                          (Some <$> candidates);
      mret (head (truthy_domains websites))
  end.

(** The body of the [try] of stage 3. *)
Definition from_serp (company_name : string) : outcome (option string) :=
  let q := company_name ++ " official website" in
  results ← serp_links q;
  links ← for_each (normalize_domain urlparse tld_extract) results;
  mret (head (truthy_domains links)).

(** The exception's text, which the code puts after the colon of a note,
    is left out. *)
Definition determine_domain_for_company
    (company_name website linkedin_url : string)
  : outcome (option string * string * list string) :=
  let notes : list string := [] in
  dom ← (if is_empty website then mret None
         else normalize_domain urlparse tld_extract (Some website));
  match head (truthy_domains [dom]) with
  | Some d => mret (Some d, "website", notes)
  | None =>
      let '(hit, notes) :=
        if is_empty linkedin_url then (None, notes)
        else match from_linkedin linkedin_url with
             | Returned hit => (hit, notes)
             | Raised => (None, (notes ++ ["linkedin_parse_error:"])%list)
             end in
      match hit with
      | Some d => mret (Some d, "linkedin", notes)
      | None =>
          let '(hit, notes) :=
            if serp_allowed then
              match from_serp company_name with
              | Returned hit => (hit, notes)
              | Raised => (None, (notes ++ ["serpapi_error:"])%list)
              end
            else (None, notes) in
          match hit with
          | Some d => mret (Some d, "serp", notes)
          | None => mret (None, "unknown", notes)
          end
      end
  end.

End Discover.

(** [method if domain else discovery_method or "serp"], the
    [extraction_method] of the row that [process_company] builds in main.py. *)
Definition extraction_method (domain : option string)
    (method discovery_method : string) : string :=
  match truthy_domains [domain] with
  | _ :: _ => method
  | [] => if is_empty discovery_method then "serp" else discovery_method
  end.

End Discover.

(** ** scraper/apollo_integration.py *)

Module Apollo.
Import PyStr.

(** A decoded JSON value. *)
#[warnings="-register-all"] Inductive json :=
| JNull
| JBool (b : bool)
| JNum (q : Q)
| JStr (s : string)
| JArr (items : list json)
| JObj (fields : list (string * json)).

(** [bool(v)] *)
Definition truthy (v : json) : bool :=
  match v with
  | JNull => false
  | JBool b => b
  | JNum q => negb (Qeq_bool q 0)
  | JStr s => negb (is_empty s)
  | JArr items => match items with [] => false | _ => true end
  | JObj fields => match fields with [] => false | _ => true end
  end.

(** [a or b] *)
Definition py_or (a b : json) : json := if truthy a then a else b.

(** [a and b] *)
Definition py_and (a b : json) : json := if truthy a then b else a.

(** [p.get(k)] *)
Definition get_field (p : gmap string json) (k : string) : json :=
  default JNull (p !! k).

(** The dict appended to [out] for the person [p]; [and] binds tighter
    than [or]. *)
Definition person_record (p : gmap string json) : gmap string json :=
  <["name" := get_field p "name"]>
  (<["title" := get_field p "title"]>
  (<["seniority" := get_field p "seniority"]>
  (<["email" := py_or (get_field p "email")
                      (py_and (get_field p "email_status") JNull)]>
  (<["linkedin_url" := get_field p "linkedin_url"]>
  (<["source" := JStr "apollo"]> ∅))))).

(** [AsyncRetrying(stop=stop_after_attempt(n))] around a body: the body
    is run again while it raises, [n] times at most, and the failure of the
    last attempt is raised.  [k] numbers the attempts. *)
Fixpoint retrying {A : Type} (n : nat) (body : nat -> outcome A) (k : nat)
  : outcome A :=
  match n with
  | O => Raised
  | S n' =>
      match body k with
      | Returned a => Returned a
      | Raised => retrying n' body (S k)
      end
  end.

(** [not v] for an optional string. *)
Definition missing (v : option string) : bool :=
  match v with
  | Some s => is_empty s
  | None => true
  end.

(** [post k] is the [people] list decoded from the answer to the [k]-th
    POST; it raises when the request fails, the status is an error, or the
    answer does not decode to a list of objects. *)
Definition apollo_people_for_domain (key domain : option string)
    (post : nat -> outcome (list (gmap string json)))
  : outcome (list (gmap string json)) :=
  if missing key || missing domain then Returned []
  else retrying 3 (fun k => match post k with
                            | Returned people =>
                                Returned (person_record <$> people)
                            | Raised => Raised
                            end) 0%nat.

End Apollo.

(** ** scraper/io.py: the columns of the input table *)

Module InputCsv.
Import PyStr.

(** [{c.lower().strip(): c for c in df.columns}] *)
Definition cols (columns : list string) : list (string * string) :=
  fold_left (fun d c => Dict.set d (strip (lower c)) c) columns [].

(** [a or b] on column names that may be missing. *)
Definition or_else (a b : option string) : option string :=
  match a with
  | Some c => if is_empty c then b else a
  | None => b
  end.

(** The dict [mapped]; a value is [None] when [cols.get] found nothing. *)
Definition mapped (columns : list string) : list (string * option string) :=
  let cols := cols columns in
  let get := Dict.get cols in
  let mapped := [] in
  let mapped :=
    match get "company_name" with
    | None =>
        match get "company" with
        | Some c => Dict.set mapped "company_name" (Some c)
        | None =>
            match get "name" with
            | Some c => Dict.set mapped "company_name" (Some c)
            | None => mapped
            end
        end
    | Some c => Dict.set mapped "company_name" (Some c)
    end in
  let mapped := Dict.set mapped "website"
                  (or_else (or_else (get "website") (get "url"))
                           (get "domain")) in
  let mapped := Dict.set mapped "linkedin"
                  (or_else (get "linkedin") (get "linkedin_url")) in
  let mapped := Dict.set mapped "founder_name"
                  (or_else (get "founder_name") (get "founder")) in
  let mapped := Dict.set mapped "country"
                  (or_else (get "country") (get "location")) in
  mapped.

(** The column of the input that fills [norm[k]]: [df[mapped[k]]] when
    [mapped.get(k)] is truthy; [None] when [norm[k]] is set to [""]. *)
Definition source_column (columns : list string) (k : string) : option string :=
  match Dict.get (mapped columns) k with
  | Some (Some c) => if is_empty c then None else Some c
  | _ => None
  end.

(** The columns of [norm], in order, with where each comes from. *)
Definition read_input_csv (columns : list string)
  : list (string * option string) :=
  (fun k => (k, source_column columns k))
    <$> ["company_name"; "website"; "linkedin"; "founder_name"; "country"].

End InputCsv.

(** ** main.py: the addresses of a row *)

Module FoundEmails.
Import PyStr.

(** [found_emails=";".join(emails)], the field of the row that
    [process_company] builds. *)
Definition found_emails_field (emails : list string) : string :=
  join ";" emails.

End FoundEmails.

(** * Vocabulary of the properties, and the inputs they are run on *)

Module ValidateSpec.
Import PyStr Validate.

(** The verifier has a verdict for [e] whose [result] is ["valid"]. *)
Definition valid_verdict (hv : gmap string verdict) (e : string) : Prop :=
  ∃ v, hv !! e = Some v ∧ v !! "result" = Some "valid".


Definition from_apollo (src : list (string * string)) (e : string) : Prop :=
  Dict.get src e = Some "apollo".

(** Found on a page, with a dotted local part whose segments are all
    non-empty or a local part that is no generic prefix. *)
Definition personal_on_page (src : list (string * string)) (e : string) : Prop :=
  Dict.get src e = Some "page"
  ∧ (dotted_name (local_part e) = true ∨ local_part e ∉ GENERIC_PREFIXES).

End ValidateSpec.

Module MainSpec.
Import PyStr Validate Main.

(** The reading of the claim on the evidence map: none of its keys has a
    denylisted domain part. *)
Definition map_free_of_disposable (dom : option string) (f : Feeds) : Prop :=
  Forall (fun e => ¬ disposable e) (Dict.keys (emails_by_source (process_company dom f))).

(** A crawl that found one throwaway address, no API enabled. *)
Definition crawl_only (es : list string) : Feeds :=
  {| crawl_emails := es; use_hunter := false; hunter_search := Raised;
     hunter_verify := fun _ => Raised; use_apollo := false;
     apollo_emails := Raised |}.

End MainSpec.

Module IoSpec.
Import PyStr Io.

Definition acme_input : input_row :=
  {| in_company_name := Some "Acme"; in_website := "https://acme.com" |}.

Definition acme_done : checkpoint_row :=
  {| chk_company_name := Some "Acme"; chk_domain := Some "acme.com" |}.

End IoSpec.

Module ExtractSpec.
Import PyStr Extract.

(** No two addresses of the list differ by letter case only. *)
Definition case_insensitively_deduplicated (l : list string) : Prop :=
  NoDup (map lower l).

(** The page of the repository's extraction test. *)
Definition dquote : string := String (ascii_of_nat 34) EmptyString.

Definition test_page : string :=
  "<a href=" ++ dquote ++ "mailto:hello@example.com" ++ dquote ++ ">Email</a> "
  ++ "support@example.com firstname.lastname@sub.domain.ai image@2x.png".

End ExtractSpec.

Module NormalizeSpec.
Import PyStr Utils.

Section Normalize.
Variable urlparse : string -> outcome ParseResult.
Variable tld_extract : string -> outcome ExtractResult.

(** The text handed to [urlparse]: trimmed, with a scheme put in front
    when it has none. *)
Definition with_scheme (u : string) : string :=
  let s := strip u in
  if contains "://" s then s else "http://" ++ s.

(** Nothing to parse: no string, or nothing but whitespace. *)
Definition blank (input : option string) : Prop :=
  match input with
  | None => True
  | Some u => strip u = ""
  end.

(** The input parses, and [h] is its non-empty host name. *)
Definition parsed_host (input : option string) (h : string) : Prop :=
  ∃ u p, input = Some u ∧ strip u ≠ ""
         ∧ urlparse (with_scheme u) = Returned p
         ∧ hostname p = Some h ∧ h ≠ "".

(** The suffix splitter fails on [h], or finds no domain label or no
    public suffix in it. *)
Definition lacks_label_or_suffix (h : string) : Prop :=
  match tld_extract h with
  | Raised => True
  | Returned ext => domain ext = "" ∨ suffix ext = ""
  end.

(** [d] is the registrable domain of the input: label, dot, suffix. *)
Definition registrable (input : option string) (d : string) : Prop :=
  ∃ h ext, parsed_host input h ∧ tld_extract h = Returned ext
           ∧ domain ext ≠ "" ∧ suffix ext ≠ ""
           ∧ d = domain ext ++ "." ++ suffix ext.

End Normalize.






End NormalizeSpec.

Module RateSpec.
Import Utils.

(** Three callers share a limiter of one call per minute: the first is
    admitted at time 0, the other two arrive a little later, are both told
    to sleep until the first entry is a minute old, and are resumed one
    after the other. *)
Definition race : list event :=
  [Enter 0 0 0; Enter 1 (1 # 10) (1 # 10); Enter 2 (2 # 10) (2 # 10);
   Resume 1 (6002 # 100); Resume 2 (6003 # 100)].

(** Calls made one after the other: each starts no earlier than the
    one before it returned, and a caller told to sleep is resumed no
    earlier than its sleep ends. *)
Fixpoint well_timed (clock : Q) (rl : RateLimiter) (calls : list (Q * Q))
  : Prop :=
  match calls with
  | [] => True
  | (now, done) :: rest =>
      (clock <= now)%Q
      ∧ match acquire_enter now rl with
        | Returned (rl', w) =>
            (now + default 0%Q w <= done)%Q
            ∧ well_timed done (acquire_record done rl') rest
        | Raised => False
        end
  end.

(** What sequential calls keep true of the deque [ts] and of the
    completions [cs] so far, for a budget of [n]. *)
Definition in_step (n : nat) (clock : Q) (ts cs : list Q) : Prop :=
  ∃ old, cs = (old ++ ts)%list
         ∧ Forall (fun c => (60 < clock - c)%Q) old
         ∧ (length (purge clock ts) <= n)%nat
         ∧ ∀ t, (in_window t cs <= n)%nat.

End RateSpec.

Module ScrapeSpec.
Import PyStr Scrape.

(** The claim on the page budget: no more page fetches are issued than
    [max_pages_per_site], failed ones included. *)
Definition within_fetch_budget (settings : Settings)
    (log : list (string * bool)) : Prop :=
  (Z.of_nat (length log) <= max_pages_per_site settings)%Z.

(** The final state of a crawl that ended without raising. *)
Definition finished (r : option (outcome crawl_state)) : option crawl_state :=
  match r with
  | Some (Returned st) => Some st
  | _ => None
  end.

Definition settings_of (pages depth : Z) : Settings :=
  {| max_pages_per_site := pages; max_depth := depth;
     user_agent := "AI-EmailEnricher" |}.

(** The crawl of [example.com] on the reference library, the site being
    given by its pages. *)
Definition crawl_example (site : list (string * string)) (settings : Settings)
    (fuel : nat) : option (outcome crawl_state) :=
  crawl_trace Lib.urlparse Lib.tld_extract Lib.urljoin Lib.find_all_hrefs
    Lib.can_fetch (Lib.serve site) KEYWORDS "example.com" settings fuel.

(** Its state on entry to the loop, and after [n] turns. *)
Definition start_example : outcome crawl_state :=
  seeds ← seed_urls Lib.urljoin "example.com" KEYWORDS;
  initial_state Lib.urlparse Lib.tld_extract KEYWORDS "example.com"
    (base_url "example.com" :: seeds).

Definition start_of (r : outcome crawl_state) : option crawl_state :=
  match r with
  | Returned st => Some st
  | Raised => None
  end.

Definition turns_example (site : list (string * string)) (settings : Settings)
    (n : nat) (st : crawl_state) : crawl_state :=
  crawl_turns Lib.urlparse Lib.tld_extract Lib.urljoin Lib.find_all_hrefs
    Lib.can_fetch (Lib.serve site) KEYWORDS "example.com" settings n TxtNone st.

(** A home page that links to an "about" page, which links to a team
    page: the team page is two links away from the root. *)
Definition chain_site : list (string * string) :=
  [("https://example.com/", "<a href='/about-us'>About</a>");
   ("https://example.com/about-us", "<a href='/team/jane'>Jane</a>");
   ("https://example.com/team/jane", "jane.doe@example.com")].

(** A home page that links twice to the same page (menu and footer). *)
Definition twice_site : list (string * string) :=
  [("https://example.com/",
    "<a href='/about-us'>About</a> ... <a href='/about-us'>About us</a>");
   ("https://example.com/about-us", "info@example.com")].

(** A home page with six dead links; none of the guessed paths exists. *)
Definition dead_links_site : list (string * string) :=
  [("https://example.com/",
    "<a href='/team/a'>A</a><a href='/team/b'>B</a><a href='/team/c'>C</a>"
    ++ "<a href='/team/d'>D</a><a href='/team/e'>E</a><a href='/team/f'>F</a>")].

(** The pages counted are the fetches that returned, and they stay
    within the budget. *)
Definition counted (settings : Settings) (st : crawl_state) : Prop :=
  Z.of_nat (fetches_ok st) = pages_visited st
  ∧ (pages_visited st <= Z.max 0 (max_pages_per_site settings))%Z.

End ScrapeSpec.


Module CleanSpec.
Import PyStr Validate.

(** The addresses that [filter_emails_basic] lets through unchanged. *)
Definition passes (e : string) : bool :=
  match split_once "@" e with
  | (_, Some dom) => negb (bool_decide (lower dom ∈ DISPOSABLE_DOMAINS))
  | (_, None) => false
  end.

End CleanSpec.

Module EvidenceSpec.
Import PyStr Main.

(** An entry of the evidence map whose source is one of the three tags. *)
Definition known_source (kv : string * string) : Prop :=
  snd kv = "page" ∨ snd kv = "hunter" ∨ snd kv = "apollo".

(** The address [e] was handed over by the crawl: a domain was found and
    the crawl returned [e]. *)
Definition crawl_found (dom : option string) (f : Feeds) (e : string) : bool :=
  match dom with Some d => negb (is_empty d) | None => false end
  && bool_decide (e ∈ crawl_emails f).

(** By the Hunter search: Hunter is in use and its search returned [e]. *)
Definition hunter_found (f : Feeds) (e : string) : bool :=
  use_hunter f
  && match hunter_search f with
     | Returned hs => bool_decide (e ∈ hs)
     | Raised => false
     end.

(** By Apollo: Apollo is in use and [e] is the truthy [email] of a person
    it returned. *)
Definition apollo_found (f : Feeds) (e : string) : bool :=
  use_apollo f
  && match apollo_emails f with
     | Returned ps => negb (is_empty e) && bool_decide (Some e ∈ ps)
     | Raised => false
     end.

(** The first of the three stages, in the order in which
    [process_company] runs them, that handed [e] over. *)
Definition first_source (dom : option string) (f : Feeds) (e : string)
  : option string :=
  if crawl_found dom f e then Some "page"
  else if hunter_found f e then Some "hunter"
  else if apollo_found f e then Some "apollo"
  else None.

End EvidenceSpec.

Module ScoreSpec.
Import PyStr Validate ValidateSpec.

(** The three grounds of the scorer, on a list of addresses. *)
Definition verified (hv : gmap string verdict) (src : list (string * string))
    (emails : list string) : Prop :=
  Exists (valid_verdict hv) emails ∨ Exists (from_apollo src) emails.

Definition personal (hv : gmap string verdict) (src : list (string * string))
    (emails : list string) : Prop :=
  ¬ verified hv src emails ∧ Exists (personal_on_page src) emails.

Definition bare (hv : gmap string verdict) (src : list (string * string))
    (emails : list string) : Prop :=
  ¬ verified hv src emails ∧ ¬ Exists (personal_on_page src) emails.

End ScoreSpec.

Module CrawlSpec.
Import PyStr Scrape.

(** A URL that [enqueue_candidates] accepts: on the target's registrable
    domain, with a path that holds a keyword or is the root path. *)
Definition kept_link (urlparse : string -> outcome ParseResult)
    (tld_extract : string -> outcome ExtractResult)
    (keywords : list string) (target u : string) : Prop :=
  Utils.same_domain urlparse tld_extract target u = Returned true
  ∧ ∃ parsed, urlparse u = Returned parsed
              ∧ wanted_path keywords (lower (path parsed)) = true.

(** A robots.txt that forbids everything. *)
Definition forbid_all (txt agent url : string) : outcome bool := Returned false.

(** A site that serves a robots.txt and a home page. *)
Definition guarded_site : list (string * string) :=
  [("https://example.com/robots.txt", "User-agent: * Disallow: /");
   ("https://example.com/", "ceo@example.com")].

Section Crawl.
Variable urlparse : string -> outcome ParseResult.
Variable tld_extract : string -> outcome ExtractResult.
Variable can_fetch : string -> string -> string -> outcome bool.
Variable keywords : list string.
Variable target : string.
Variable settings : Settings.

(** The three things that stay true during the crawl. *)
Definition obeys_robots (txt : robots_txt) (st : crawl_state) : Prop :=
  Forall (fun p => robots_disallows can_fetch settings txt (fst p) = false)
         (fetch_log st).

Definition stays_on_site (st : crawl_state) : Prop :=
  Forall (fun p => kept_link urlparse tld_extract keywords target (fst p)
                   ∧ snd p = 0%Z) (q st)
  ∧ Forall (fun p => kept_link urlparse tld_extract keywords target (fst p))
           (fetch_log st).

Definition remembers (st : crawl_state) : Prop :=
  Forall (fun p => fst p ∈ seen st) (q st)
  ∧ Forall (fun p => fst p ∈ seen st) (fetch_log st).
End Crawl.

End CrawlSpec.

Module TextSpec.
Import PyStr Extract.

(** Every character of [s] satisfies [p]. *)
Fixpoint every (p : ascii → bool) (s : string) : bool :=
  match s with
  | EmptyString => true
  | String c s' => p c && every p s'
  end.

(** The characters an address can hold: those of the local part, the dot
    and the at sign. *)
Definition addr_char (c : ascii) : bool :=
  is_atext c || Ascii.eqb c "." || Ascii.eqb c "@".

(** A character of ASCII: a code point below 128. *)
Definition is_ascii (c : ascii) : bool := (code c <? 128)%N.

(** Text of ASCII characters only: the text that the model of the
    patterns and of [lower] and [strip] is faithful on. *)
Definition ascii_text (s : string) : Prop := every is_ascii s = true.

(** A page to run the extractor on. *)
Definition contact_page : string :=
  "Write to Jane.Doe@Example.com, or to jobs@example.org; logo@2x.png".

(** A page to look for a web site in. *)
Definition linkedin_page : string :=
  "<a href='HTTPS://Example.com/about'>Website</a> http://x <b>".

End TextSpec.

Module OutputSpec.
Import Output.

(** [dedup_key.get(k)] *)
Fixpoint lookup (d : list (string * string * ResultRow)) (k : string * string)
  : option ResultRow :=
  match d with
  | [] => None
  | (k', v) :: rest => if decide (k = k') then Some v else lookup rest k
  end.

Definition with_key (k : string * string) (r : ResultRow) : bool :=
  bool_decide (row_key r = k).

(** The last of the rows with the key [k]. *)
Definition last_with_key (rows : list ResultRow) (k : string * string)
  : option ResultRow :=
  last (List.filter (with_key k) rows).

End OutputSpec.

Module InputCsvSpec.
Import PyStr.

(** The header names accepted for each column of the normalised table,
    in order of preference. *)
Definition ALIASES : list (string * list string) :=
  [ ("company_name", ["company_name"; "company"; "name"]);
    ("website", ["website"; "url"; "domain"]);
    ("linkedin", ["linkedin"; "linkedin_url"]);
    ("founder_name", ["founder_name"; "founder"]);
    ("country", ["country"; "location"]) ].

Definition named (a : string) (c : string) : bool :=
  String.eqb (strip (lower c)) a.

(** The last column whose header reads [a] once lower-cased and trimmed. *)
Definition last_named (columns : list string) (a : string) : option string :=
  last (List.filter (named a) columns).

(** The column taken for a list of accepted names: that of the first name
    that some header matches. *)
Definition chosen (columns : list string) (aliases : list string)
  : option string :=
  head (omap (last_named columns) aliases).

End InputCsvSpec.

Module DiscoverSpec.
Import PyStr Discover.

(** What a match of the pattern looks like: a scheme, in any case, and a
    non-empty run of characters of the class. *)
Definition url_shape (u : string) : Prop :=
  ∃ scheme body, u = scheme ++ body
    ∧ (lower scheme = "http://" ∨ lower scheme = "https://")
    ∧ body ≠ "" ∧ TextSpec.every url_char body = true.

Definition occurs_in (u s : string) : Prop :=
  ∃ pre post, s = pre ++ u ++ post.

End DiscoverSpec.

Module FoundEmailsSpec.
Import PyStr.

(** An address that the field keeps apart from its neighbours: not empty,
    and free of the separator. *)
Definition countable (e : string) : Prop :=
  e ≠ "" ∧ mem_char ";" e = false.

End FoundEmailsSpec.

(** * Properties *)

(** ** Python string operations on examples *)

Module PyStrFacts.

Example lower_ex : PyStr.lower "Sub.Example.CO.uk" = "sub.example.co.uk".
Proof. reflexivity. Qed.
Example strip_ex : PyStr.strip "  a b  " = "a b".
Proof. reflexivity. Qed.
Example split_ex : PyStr.split "." "a..b" = ["a"; ""; "b"].
Proof. reflexivity. Qed.
Example remove_ex : PyStr.remove_all "mailto:" "mailto:a@b.c" = "a@b.c".
Proof. reflexivity. Qed.
Example sorted_ex : PyStr.sorted ["b"; "a"; "B"] = ["B"; "a"; "b"].
Proof. reflexivity. Qed.

End PyStrFacts.

(** ** The confidence scorer *)

Module ValidateFacts.
Import PyStr Validate ValidateSpec.

Lemma says_valid_iff hv e : says_valid hv e = true ↔ valid_verdict hv e.
Proof.
  unfold says_valid, valid_verdict. split.
  - case_bool_decide as Hempty; [done|].
    destruct (hv !! e) as [v|] eqn:Hv; [|done].
    intros [_ Hr%bool_decide_eq_true]%andb_prop. eauto.
  - intros (v & Hv & Hr).
    case_bool_decide as Hempty.
    { subst hv. by rewrite lookup_empty in Hv. }
    rewrite Hv. apply andb_true_intro. split.
    + apply negb_true_iff, bool_decide_eq_false. intros ->.
      by rewrite lookup_empty in Hr.
    + by apply bool_decide_eq_true.
Qed.

Lemma says_valid_false hv e : says_valid hv e = false ↔ ¬ valid_verdict hv e.
Proof. rewrite <- says_valid_iff. by destruct (says_valid hv e). Qed.

Lemma scan_valid_none hv src emails :
  Forall (fun e => ¬ valid_verdict hv e) emails →
  scan_valid hv src emails = None.
Proof.
  induction 1 as [|e rest He _ IH]; [done|].
  simpl. apply says_valid_false in He. by rewrite He.
Qed.


Lemma scan_apollo_none src emails :
  Forall (fun e => ¬ from_apollo src e) emails → scan_apollo src emails = None.
Proof.
  induction 1 as [|e rest He _ IH]; [done|].
  simpl. by rewrite bool_decide_eq_false_2.
Qed.

Lemma scan_apollo_some src emails :
  Exists (from_apollo src) emails →
  scan_apollo src emails = Some ("high", "apollo").
Proof.
  induction 1 as [e rest He|e rest _ IH]; simpl.
  - by rewrite bool_decide_eq_true_2.
  - by case_bool_decide.
Qed.

Lemma scan_page_none src emails :
  Forall (fun e => ¬ personal_on_page src e) emails → scan_page src emails = None.
Proof.
  induction 1 as [|e rest He _ IH]; [done|].
  simpl. case_bool_decide as Hpage; [|done].
  destruct (dotted_name (local_part e)) eqn:Hdot.
  { exfalso. apply He. split; auto. }
  case_bool_decide as Hgen; [|done].
  exfalso. apply He. split; auto.
Qed.

Lemma scan_page_some src emails :
  Exists (personal_on_page src) emails →
  scan_page src emails = Some ("medium", "page").
Proof.
  induction 1 as [e rest [Hpage Hshape]|e rest _ IH]; simpl.
  - rewrite bool_decide_eq_true_2 by done.
    destruct (dotted_name (local_part e)) eqn:Hdot; [done|].
    destruct Hshape as [?|Hgen]; [done|].
    by rewrite bool_decide_eq_true_2.
  - case_bool_decide; [|done].
    destruct (dotted_name (local_part e)); [done|].
    by case_bool_decide.
Qed.



End ValidateFacts.

(** ** Disposable-domain filtering *)

Module MainFacts.
Import PyStr Validate Main MainSpec.

Lemma filter_emails_basic_elem x ks dom :
  x ∈ filter_emails_basic ks dom →
  ∃ k d, k ∈ ks ∧ x = strip k ∧ domain_part k = Some d
         ∧ d ∉ DISPOSABLE_DOMAINS.
Proof.
  induction ks as [|k ks IH]; simpl.
  { intros H. by apply elem_of_nil in H. }
  destruct (split_once "@" k) as [loc [d|]] eqn:Hsplit.
  - case_bool_decide as Hd.
    + intros (k' & d' & ? & ?)%IH. exists k', d'. split; [by right|done].
    + intros [->|Hin]%elem_of_cons.
      * exists k, (lower d). split; [by left|]. split; [done|].
        unfold domain_part. rewrite Hsplit. done.
      * destruct (IH Hin) as (k' & d' & ? & ?). exists k', d'.
        split; [by right|done].
  - intros (k' & d' & ? & ?)%IH. exists k', d'. split; [by right|done].
Qed.

Lemma dedupe_from_elem x seen items : x ∈ dedupe_from seen items → x ∈ items.
Proof.
  revert seen. induction items as [|y items IH]; intros seen; simpl; [done|].
  case_bool_decide.
  - intros ?%IH. by right.
  - intros [->|?%IH]%elem_of_cons; [by left|by right].
Qed.

Lemma process_company_found dom f :
  found_emails (process_company dom f)
  = dedupe_keep_order
      (filter_emails_basic (Dict.keys (emails_by_source (process_company dom f))) dom).
Proof.
  unfold process_company.
  repeat match goal with
         | |- context [let '(_, _) := ?x in _] => destruct x eqn:?
         end.
  reflexivity.
Qed.

Lemma process_company_scored dom f :
  (confidence (process_company dom f), method (process_company dom f))
  = assess_confidence (found_emails (process_company dom f))
      (hunter_verification (process_company dom f)) (emails_by_source (process_company dom f)).
Proof.
  unfold process_company.
  repeat match goal with
         | |- context [let '(_, _) := ?x in _] => destruct x eqn:?
         end.
  simpl. congruence.
Qed.

(** C5, as stated, fails: a throwaway address found by the crawl stays
    in the evidence map that is given to the scorer and written to the
    result row. *)
Lemma disposable_key_survives :
  Dict.keys (emails_by_source
               (process_company (Some "acme.com") (crawl_only ["ceo@mailinator.com"])))
  = ["ceo@mailinator.com"]
  ∧ disposable "ceo@mailinator.com"
  ∧ ¬ map_free_of_disposable (Some "acme.com") (crawl_only ["ceo@mailinator.com"]).
Proof.
  assert (Hd : disposable "ceo@mailinator.com").
  { exists "mailinator.com". split; [reflexivity|].
    apply (bool_decide_unpack _). vm_compute. exact I. }
  split; [reflexivity|]. split; [exact Hd|].
  unfold map_free_of_disposable. intros H.
  change (Forall (fun e => ¬ disposable e) ["ceo@mailinator.com"]) in H.
  apply Forall_cons in H as [H _]. exact (H Hd).
Qed.

(** C5, amended.  The filter runs on the keys of the evidence map, before
    deduplication and before scoring, and what it passes on (the list
    that becomes [found_emails] and the [emails] argument of the scorer)
    holds only whitespace-stripped forms of keys whose domain part (the
    text after the first ["@"], lower-cased) is not on the denylist; when
    no key carries surrounding whitespace, no listed address is
    disposable.  The evidence map itself is not filtered. *)
Theorem disposable_filtered_from_found (dom : option string) (f : Feeds) :
  let ev := process_company dom f in
  found_emails ev
  = dedupe_keep_order (filter_emails_basic (Dict.keys (emails_by_source ev)) dom)
  ∧ (confidence ev, method ev)
    = assess_confidence (found_emails ev) (hunter_verification ev)
        (emails_by_source ev)
  ∧ Forall (fun x => ∃ k d, k ∈ Dict.keys (emails_by_source ev)
                      ∧ x = strip k ∧ domain_part k = Some d
                      ∧ d ∉ DISPOSABLE_DOMAINS)
      (found_emails ev)
  ∧ (Forall (fun k => strip k = k) (Dict.keys (emails_by_source ev)) →
     Forall (fun x => ¬ disposable x) (found_emails ev)).
Proof.
  intros ev. subst ev.
  assert (Hall : Forall (fun x => ∃ k d,
                     k ∈ Dict.keys (emails_by_source (process_company dom f))
                     ∧ x = strip k ∧ domain_part k = Some d
                     ∧ d ∉ DISPOSABLE_DOMAINS)
                   (found_emails (process_company dom f))).
  { rewrite process_company_found. apply Forall_forall. intros x Hx.
    apply dedupe_from_elem in Hx. by apply filter_emails_basic_elem in Hx. }
  split; [apply process_company_found|]. split; [apply process_company_scored|].
  split; [exact Hall|].
  intros Hclean. rewrite Forall_forall in Hall, Hclean.
  apply Forall_forall. intros x Hx.
  destruct (Hall x Hx) as (k & d & Hk & -> & Hd & Hnot).
  rewrite (Hclean k Hk). intros (d' & Hd' & Hin). congruence.
Qed.

Lemma disposable_filtered_from_found_witness :
  Forall (fun x => ¬ disposable x)
    (found_emails (process_company (Some "acme.com")
       (crawl_only ["ceo@mailinator.com"; "jane@acme.com"]))).
Proof.
  apply (disposable_filtered_from_found (Some "acme.com")
           (crawl_only ["ceo@mailinator.com"; "jane@acme.com"])).
  repeat constructor.
Defined.

End MainFacts.

(** ** Checkpoint merge *)

Module IoFacts.
Import PyStr Io IoSpec.

Lemma elem_of_processed_keys k chk :
  k ∈ processed_keys chk ↔
  ∃ c n d, c ∈ chk ∧ chk_company_name c = Some n ∧ chk_domain c = Some d
           ∧ k = (strip n, strip d).
Proof.
  induction chk as [|c chk IH]; simpl.
  { split; [set_solver|]. intros (c & ? & ? & H & _). by apply elem_of_nil in H. }
  destruct (chk_company_name c) as [n|] eqn:Hn, (chk_domain c) as [d|] eqn:Hd;
    rewrite ?elem_of_union, ?elem_of_singleton, IH; split;
    try (intros (c' & n' & d' & [->|Hin]%elem_of_cons & Hn' & Hd' & ->);
         [congruence|by eauto 10]);
    try (intros (c' & n' & d' & Hin & ?); exists c', n', d';
         split; [by right|done]).
  - intros [->|(c' & n' & d' & Hin & ?)].
    + exists c, n, d. split; [by left|done].
    + exists c', n', d'. split; [by right|done].
  - intros (c' & n' & d' & [->|Hin]%elem_of_cons & Hn' & Hd' & ->).
    + left. congruence.
    + right. eauto 10.
Qed.

(** What the merge does: with a non-empty checkpoint, an input row is
    dropped exactly when some checkpoint row has its trimmed name and a
    blank domain. *)
Lemma merge_checkpoint_elem r df chk :
  chk ≠ [] →
  r ∈ merge_checkpoint df chk ↔
  r ∈ df ∧ ¬ ∃ c n d, c ∈ chk ∧ chk_company_name c = Some n
                      ∧ chk_domain c = Some d
                      ∧ strip n = strip (default "" (in_company_name r))
                      ∧ strip d = "".
Proof.
  intros Hne. unfold merge_checkpoint. destruct chk as [|c0 chk0]; [done|].
  rewrite !list_elem_of_In, List.filter_In, <- !list_elem_of_In.
  unfold row_mask. rewrite bool_decide_eq_true, elem_of_processed_keys.
  split; intros [Hin Hno]; (split; [done|]).
  - intros (c & n & d & Hc & Hn & Hd & Hname & Hdom). apply Hno.
    exists c, n, d. repeat split; try done. by rewrite Hname, Hdom.
  - intros (c & n & d & Hc & Hn & Hd & Hkey). apply Hno.
    exists c, n, d. injection Hkey as Hname Hdom. by repeat split.
Qed.

(** C8: the row of a company that the checkpoint already holds, with the
    domain found for it, is kept by the merge although the claim has it
    dropped. *)
Theorem merge_checkpoint_keeps_processed_company :
  merge_checkpoint [acme_input] [acme_done] = [acme_input]
  ∧ chk_company_name acme_done = in_company_name acme_input.
Proof. split; reflexivity. Qed.

End IoFacts.

(** ** The e-mail extractor *)

Module ExtractFacts.
Import PyStr Extract ExtractSpec.

(** *** The bounds on the recursion of the scanner are enough *)

Lemma str_length_app s1 s2 :
  String.length (s1 ++ s2) = (String.length s1 + String.length s2)%nat.
Proof. induction s1 as [|c s1 IH]; simpl; [done|]. by rewrite IH. Qed.

Lemma span_length p s :
  (String.length (fst (span p s)) + String.length (snd (span p s)))%nat
  = String.length s.
Proof.
  induction s as [|c s IH]; simpl; [done|].
  destruct (p c); [|done]. destruct (span p s). simpl in *. lia.
Qed.

Lemma rstrip_by_length p s :
  (String.length (rstrip_by p s) <= String.length s)%nat.
Proof.
  induction s as [|c s IH]; simpl; [done|].
  destruct (is_empty (rstrip_by p s) && p c); simpl; lia.
Qed.

Lemma drop_length n : ∀ s,
  String.length (drop n s) = (String.length s - n)%nat.
Proof. induction n as [|n IH]; intros [|c s]; simpl; auto. Qed.

Lemma scan_atoms_shorter n : ∀ s,
  (String.length s <= n)%nat →
  (String.length (snd (scan_atoms s)) <= String.length s)%nat.
Proof.
  induction n as [|n IH]; intros [|c s] Hn; simpl in *; try lia.
  destruct (is_atext c).
  { specialize (IH s ltac:(lia)). destruct (scan_atoms s). simpl in *. lia. }
  destruct (Ascii.eqb c "."); [|simpl; lia].
  destruct s as [|d s]; [simpl; lia|].
  destruct (is_atext d); [|simpl; lia].
  specialize (IH s ltac:(simpl in Hn; lia)).
  destruct (scan_atoms s). simpl in *. lia.
Qed.

Lemma match_label_shorter s l r :
  match_label s = Some (l, r) → (String.length r < String.length s)%nat.
Proof.
  destruct s as [|c s]; [done|]. simpl.
  destruct (is_alnum c); [|done].
  pose proof (span_length is_label_char s) as Hspan.
  destruct (span is_label_char s) as [run rest]. simpl in Hspan.
  intros [= <- <-]. rewrite str_length_app, drop_length. lia.
Qed.

Lemma match_dot_labels_shorter fuel : ∀ s,
  (String.length (snd (match_dot_labels fuel s)) <= String.length s)%nat.
Proof.
  induction fuel as [|fuel IH]; intros s; simpl; [done|].
  destruct s as [|c s]; [done|].
  destruct (Ascii.eqb c "."); [|done].
  destruct (match_label s) as [[l r]|] eqn:Hl; [|done].
  apply match_label_shorter in Hl. specialize (IH r).
  destruct (match_dot_labels fuel r). simpl in *. lia.
Qed.

Lemma match_dot_labels_stable fuel : ∀ fuel' s,
  (String.length s <= fuel)%nat → (String.length s <= fuel')%nat →
  match_dot_labels fuel s = match_dot_labels fuel' s.
Proof.
  induction fuel as [|fuel IH]; intros [|fuel'] [|c s] H1 H2; simpl in *;
    try done; try lia.
  destruct (Ascii.eqb c "."); [|done].
  destruct (match_label s) as [[l r]|] eqn:Hl; [|done].
  apply match_label_shorter in Hl. rewrite (IH fuel' r); [done|lia|lia].
Qed.

Lemma match_at_shorter s m r :
  match_at s = Some (m, r) → (String.length r < String.length s)%nat.
Proof.
  unfold match_at, match_local. destruct s as [|c s]; [done|].
  destruct (is_atext c); [|done].
  pose proof (scan_atoms_shorter (String.length s) s ltac:(lia)) as Hloc.
  destruct (scan_atoms s) as [loc rest]. simpl in Hloc.
  destruct rest as [|a rest]; [done|].
  destruct (Ascii.eqb a "@"); [|done].
  unfold match_host.
  destruct (match_label rest) as [[l0 r0]|] eqn:Hl; [|done].
  apply match_label_shorter in Hl.
  pose proof (match_dot_labels_shorter (String.length r0) r0) as Hdots.
  destruct (match_dot_labels (String.length r0) r0) as [dots r1].
  destruct (is_empty dots); [done|].
  intros [= <- <-]. simpl in *. lia.
Qed.

(** [finditer] is not cut short: more turns give the same matches. *)
Lemma finditer_fuel_stable fuel : ∀ fuel' s,
  (String.length s < fuel)%nat → (String.length s < fuel')%nat →
  finditer_fuel fuel s = finditer_fuel fuel' s.
Proof.
  induction fuel as [|fuel IH]; intros [|fuel'] s H1 H2; try lia. simpl.
  destruct (match_at s) as [[m r]|] eqn:Hm.
  - apply match_at_shorter in Hm. rewrite (IH fuel' r); [done|lia|lia].
  - destruct s as [|c s]; [done|]. simpl in *. apply IH; lia.
Qed.

(** Neither is [replace]. *)
Lemma remove_all_fuel_stable pat fuel : ∀ fuel' s,
  pat ≠ "" →
  (String.length s <= fuel)%nat → (String.length s <= fuel')%nat →
  remove_all_fuel fuel pat s = remove_all_fuel fuel' pat s.
Proof.
  induction fuel as [|fuel IH]; intros [|fuel'] [|c s] Hpat H1 H2;
    try done; try (simpl in *; lia).
  cbn [remove_all_fuel]. destruct (String.prefix pat (String c s)).
  - apply IH; [done| |]; rewrite drop_length; destruct pat; simpl in *;
      try done; lia.
  - f_equal. apply IH; [done| |]; simpl in *; lia.
Qed.

(** *** The tests of the repository *)

Example test_extract_emails_basic :
  extract_emails_from_html test_page None
  = ["firstname.lastname@sub.domain.ai"; "hello@example.com";
     "support@example.com"].
Proof. vm_compute. reflexivity. Qed.

Example test_extract_emails_with_domain_bias :
  extract_emails_from_html "a@alphaai.com other@other.com" (Some "alphaai.com")
  = ["a@alphaai.com"; "other@other.com"].
Proof. vm_compute. reflexivity. Qed.

(** *** Order and grouping *)

Lemma filter_split_perm {A} (p : A → bool) (l : list A) :
  List.filter p l ++ List.filter (fun x => negb (p x)) l ≡ₚ l.
Proof.
  induction l as [|x l IH]; simpl; [done|].
  destruct (p x); simpl.
  - by f_equiv.
  - rewrite <- Permutation_middle. by f_equiv.
Qed.

Lemma sorted_perm l : sorted l ≡ₚ l.
Proof. apply merge_sort_Permutation. Qed.

Lemma sorted_Sorted l : Sorted le (sorted l).
Proof. apply (Sorted_merge_sort le). Qed.

(** The test that builds [off] is the negation of the one that builds
    [on]: both read the lower-cased address only. *)
Lemma off_test d f e :
  e ∈ f →
  bool_decide (lower e ∉@{gset string}
               list_to_set (map lower (sorted (List.filter (on_domain d) f))))
  = negb (on_domain d e).
Proof.
  intros Hin. destruct (on_domain d e) eqn:Hon; simpl.
  - apply bool_decide_eq_false. intros Hnot. apply Hnot.
    apply elem_of_list_to_set, list_elem_of_fmap. exists e. split; [done|].
    rewrite sorted_perm. apply list_elem_of_In, List.filter_In.
    split; [by apply list_elem_of_In|done].
  - apply bool_decide_eq_true.
    intros (x & Hlow & Hx)%elem_of_list_to_set%list_elem_of_fmap.
    rewrite sorted_perm in Hx.
    apply list_elem_of_In, List.filter_In in Hx as [_ Hx].
    unfold on_domain in *. rewrite <- Hlow in Hx. congruence.
Qed.

Lemma biased_split d f :
  let on := sorted (List.filter (on_domain d) f) in
  let lowered_on : gset string := list_to_set (map lower on) in
  List.filter (fun e => bool_decide (lower e ∉ lowered_on)) f
  = List.filter (fun e => negb (on_domain d e)) f.
Proof.
  intros on lowered_on. apply List.filter_ext_in. intros e He.
  apply off_test. by apply list_elem_of_In.
Qed.

(** C4, as stated, fails: deduplication is by exact string, so two
    spellings of one address are both returned. *)
Lemma extract_keeps_both_spellings :
  extract_emails_from_html "A@x.com a@x.com" None = ["A@x.com"; "a@x.com"]
  ∧ ¬ case_insensitively_deduplicated
        (extract_emails_from_html "A@x.com a@x.com" None).
Proof.
  assert (Hrun : extract_emails_from_html "A@x.com a@x.com" None
                 = ["A@x.com"; "a@x.com"]) by (vm_compute; reflexivity).
  split; [exact Hrun|]. rewrite Hrun. unfold case_insensitively_deduplicated.
  change (map lower ["A@x.com"; "a@x.com"]) with ["a@x.com"; "a@x.com"].
  intros Hnd. apply NoDup_cons in Hnd as [Hnot _]. apply Hnot. by left.
Qed.

(** C4, amended.  For every text and bias domain the result has no
    address twice (compared as exact strings, so case-sensitively) and is
    a reordering of the result without bias domain, which is sorted;
    with a non-empty bias domain it is the sorted addresses ending in
    ["@" ++ domain] (case-insensitively) followed by the sorted others. *)
Theorem extract_bias_reorders (html : string) (dom : option string) :
  let r := extract_emails_from_html html dom in
  let base := extract_emails_from_html html None in
  NoDup r ∧ r ≡ₚ base ∧ Sorted le base
  ∧ match dom with
    | Some d =>
        if is_empty d then r = base
        else ∃ on off, r = (on ++ off)%list ∧ Sorted le on ∧ Sorted le off
               ∧ Forall (fun e => on_domain d e = true) on
               ∧ Forall (fun e => on_domain d e = false) off
    | None => r = base
    end.
Proof.
  intros r base. subst r base. unfold extract_emails_from_html.
  set (f := elements (filtered html)).
  assert (Hf : NoDup f) by apply NoDup_elements.
  assert (Hbase : NoDup (sorted f)) by by rewrite sorted_perm.
  destruct dom as [d|]; [|by auto using sorted_Sorted].
  destruct (is_empty d); [by auto using sorted_Sorted|].
  rewrite biased_split.
  assert (Hperm : (sorted (List.filter (on_domain d) f)
                   ++ sorted (List.filter (fun e => negb (on_domain d e)) f))%list
                  ≡ₚ sorted f).
  { by rewrite !sorted_perm, filter_split_perm. }
  split; [by rewrite Hperm|]. split; [done|]. split; [apply sorted_Sorted|].
  eexists _, _. split; [reflexivity|].
  split; [apply sorted_Sorted|]. split; [apply sorted_Sorted|].
  split; apply Forall_forall; intros e He; rewrite sorted_perm in He;
    apply list_elem_of_In, List.filter_In in He as [_ He]; [done|].
  by apply negb_true_iff.
Qed.

End ExtractFacts.

(** ** Domain normalisation *)

Module NormalizeFacts.
Import PyStr Utils NormalizeSpec.

Section Normalize.
Variable urlparse : string -> outcome ParseResult.
Variable tld_extract : string -> outcome ExtractResult.

Local Abbreviation parsed_host := (NormalizeSpec.parsed_host urlparse).
Local Abbreviation lacks_label_or_suffix :=
  (NormalizeSpec.lacks_label_or_suffix tld_extract).
Local Abbreviation registrable :=
  (NormalizeSpec.registrable urlparse tld_extract).

Lemma is_empty_true s : is_empty s = true ↔ s = "".
Proof. destruct s; simpl; split; congruence. Qed.

Lemma is_empty_false s : is_empty s = false ↔ s ≠ "".
Proof. destruct s; simpl; split; congruence. Qed.


Lemma lower_app s1 s2 : lower (s1 ++ s2) = lower s1 ++ lower s2.
Proof. induction s1 as [|c s1 IH]; simpl; [done|]. by rewrite IH. Qed.


(** The four ways through [normalize_domain]. *)
Lemma normalize_domain_cases input :
  (blank input
   ∧ normalize_domain urlparse tld_extract input = Returned None)
  ∨ (¬ blank input ∧ (¬ ∃ h, parsed_host input h)
     ∧ normalize_domain urlparse tld_extract input = Returned None)
  ∨ (∃ h, parsed_host input h ∧ lacks_label_or_suffix h
     ∧ normalize_domain urlparse tld_extract input = Returned None)
  ∨ (∃ d, registrable input d
     ∧ normalize_domain urlparse tld_extract input = Returned (Some d)).
Proof.
  destruct input as [u|]; [|left; by split].
  simpl. destruct (is_empty u) eqn:Hu.
  { left. apply is_empty_true in Hu as ->. by split. }
  destruct (is_empty (strip u)) eqn:Hs.
  { left. apply is_empty_true in Hs. by split. }
  apply is_empty_false in Hs. right.
  assert (Hurl : (if negb (contains "://" (strip u))
                  then "http://" ++ strip u else strip u) = with_scheme u).
  { unfold with_scheme. by destruct (contains "://" (strip u)). }
  rewrite Hurl.
  destruct (urlparse (with_scheme u)) as [p|] eqn:Hp; simpl.
  2:{ left. split; [done|]. split; [|done].
      intros (h & u' & p' & [= <-] & _ & Hp' & _). congruence. }
  destruct (hostname p) as [h|] eqn:Hh; simpl.
  2:{ left. split; [done|]. split; [|done].
      intros (h & u' & p' & [= <-] & _ & Hp' & Hh' & _). congruence. }
  destruct (is_empty h) eqn:Hhe; simpl.
  { left. split; [done|]. split; [|done]. apply is_empty_true in Hhe.
    intros (h' & u' & p' & [= <-] & _ & Hp' & Hh' & Hne). congruence. }
  apply is_empty_false in Hhe. right.
  assert (Hhost : parsed_host (Some u) h) by (exists u, p; done).
  unfold lacks_label_or_suffix, registrable.
  destruct (tld_extract h) as [ext|] eqn:Hext; simpl.
  2:{ left. exists h. rewrite Hext. done. }
  destruct (is_empty (domain ext)) eqn:Hd; simpl.
  { left. exists h. rewrite Hext. apply is_empty_true in Hd. auto. }
  destruct (is_empty (suffix ext)) eqn:Hx; simpl.
  { left. exists h. rewrite Hext. apply is_empty_true in Hx. auto. }
  right. apply is_empty_false in Hd, Hx.
  exists (domain ext ++ "." ++ suffix ext). split; [|done].
  exists h, ext. done.
Qed.







End Normalize.

(** The repository's test of [same_domain], on the reference parser. *)
Example test_same_domain :
  same_domain Lib.urlparse Lib.tld_extract "example.com"
    "https://www.example.com/about" = Returned true
  ∧ same_domain Lib.urlparse Lib.tld_extract "example.com"
      "https://othersite.com/contact" = Returned false.
Proof. split; vm_compute; reflexivity. Qed.



End NormalizeFacts.

(** ** The rate limiter *)

Module RateFacts.
Import Utils RateSpec.

Lemma acquire_enter_returns now rl :
  (1 <= per_minute rl)%Z →
  ∃ rl' w, acquire_enter now rl = Returned (rl', w)
           ∧ per_minute rl' = per_minute rl.
Proof.
  intros Hbudget. unfold acquire_enter.
  destruct (per_minute rl <=? Z.of_nat (length (purge now (timestamps rl))))%Z
    eqn:Hfull.
  - apply Z.leb_le in Hfull.
    destruct (purge now (timestamps rl)) as [|t0 ts]; simpl in *; [lia|].
    eauto.
  - eauto.
Qed.

Lemma sched_step_budget clock s ev c' s' :
  sched_step clock s ev = Some (Returned (c', s')) →
  per_minute (limiter s') = per_minute (limiter s).
Proof.
  unfold sched_step. destruct ev as [who now done|who done].
  - destruct (_ && _); [|done].
    unfold acquire_enter.
    destruct (per_minute (limiter s) <=? _)%Z; simpl.
    + destruct (first_ts _); simpl; [|done]. by intros [= <- <-].
    + by intros [= <- <-].
  - destruct (wake_time who (sleeping s)); [|done].
    destruct (_ && _); [|done]. by intros [= <- <-].
Qed.

Lemma sched_step_no_raise clock s ev :
  (1 <= per_minute (limiter s))%Z → sched_step clock s ev ≠ Some Raised.
Proof.
  intros Hbudget. unfold sched_step. destruct ev as [who now done|who done].
  - destruct (_ && _); [|done].
    destruct (acquire_enter_returns now (limiter s) Hbudget) as (rl' & w & -> & _).
    by destruct w.
  - destruct (wake_time who (sleeping s)); [|done]. by destruct (_ && _).
Qed.

Lemma sched_run_budget evs : ∀ clock s,
  (1 <= per_minute (limiter s))%Z →
  sched_run clock s evs ≠ Some Raised
  ∧ ∀ c' s', sched_run clock s evs = Some (Returned (c', s')) →
             per_minute (limiter s') = per_minute (limiter s).
Proof.
  induction evs as [|ev evs IH]; intros clock s Hbudget; simpl.
  { split; [done|]. by intros c' s' [= <- <-]. }
  pose proof (sched_step_no_raise clock s ev Hbudget) as Hno.
  destruct (sched_step clock s ev) as [[[c1 s1]|]|] eqn:Hstep; [|done|done].
  apply sched_step_budget in Hstep.
  destruct (IH c1 s1) as [Hr Hb]; [lia|].
  split; [done|]. intros c' s' Hrun. rewrite (Hb _ _ Hrun). done.
Qed.

Lemma acquire_returns now done rl :
  (1 <= per_minute rl)%Z →
  ∃ rl', acquire now done rl = Returned rl' ∧ per_minute rl' = per_minute rl.
Proof.
  intros Hbudget. unfold acquire.
  destruct (acquire_enter_returns now rl Hbudget) as (rl1 & w & -> & Hp).
  simpl. eauto.
Qed.

Lemma acquire_all_returns calls : ∀ rl,
  (1 <= per_minute rl)%Z →
  ∃ rl', acquire_all calls rl = Returned rl' ∧ per_minute rl' = per_minute rl.
Proof.
  induction calls as [|[now done] calls IH]; intros rl Hbudget; simpl.
  { eauto. }
  destruct (acquire_returns now done rl Hbudget) as (rl1 & -> & Hp1). simpl.
  destruct (IH rl1) as (rl' & -> & Hp'); [lia|]. exists rl'. split; [done|lia].
Qed.

(** C10. Whatever integer the limiter is built with, its budget is
    [max 1 per_minute], hence at least one; no sequence of [acquire]
    calls, one after the other or interleaved, raises, and none changes
    the budget.  A limiter built with zero or a negative number admits
    the first call at once, makes a call that comes within the minute
    wait a finite time, and admits a call that comes after the minute. *)
Theorem rate_limiter_budget_at_least_one (n : Z) :
  per_minute (RateLimiter_init n) = Z.max 1 n
  ∧ (1 <= per_minute (RateLimiter_init n))%Z
  ∧ (∀ calls, ∃ rl, acquire_all calls (RateLimiter_init n) = Returned rl
                    ∧ per_minute rl = Z.max 1 n)
  ∧ (∀ clock evs,
       sched_run clock (sched_init n) evs ≠ Some Raised
       ∧ ∀ c' s', sched_run clock (sched_init n) evs = Some (Returned (c', s')) →
                  per_minute (limiter s') = Z.max 1 n)
  ∧ ((n <= 0)%Z →
     RateLimiter_init n = RateLimiter_init 1
     ∧ (∀ now, acquire_enter now (RateLimiter_init n)
               = Returned (RateLimiter_init n, None))
     ∧ (∀ t now, older_than_minute now t = false →
          acquire_enter now (acquire_record t (RateLimiter_init n))
          = Returned (acquire_record t (RateLimiter_init n),
                      Some (60 - (now - t) + (1 # 100))%Q))
     ∧ (∀ t now, older_than_minute now t = true →
          acquire_enter now (acquire_record t (RateLimiter_init n))
          = Returned (RateLimiter_init n, None))).
Proof.
  split; [done|]. split; [simpl; lia|]. split; [|split].
  - intros calls.
    destruct (acquire_all_returns calls (RateLimiter_init n)) as (rl & ? & ?);
      [simpl; lia|]. by exists rl.
  - intros clock evs.
    destruct (sched_run_budget evs clock (sched_init n)) as [Hr Hb];
      [simpl; lia|].
    split; [done|]. intros c' s' Hrun. by rewrite (Hb _ _ Hrun).
  - intros Hn.
    assert (Hinit : RateLimiter_init n = RateLimiter_init 1).
    { unfold RateLimiter_init. f_equal. lia. }
    rewrite Hinit. split; [done|]. split; [done|].
    split; intros t now Hold; unfold acquire_enter; simpl; by rewrite Hold.
Qed.

Lemma rate_limiter_budget_at_least_one_witness :
  acquire_enter 5 (RateLimiter_init 0) = Returned (RateLimiter_init 0, None).
Proof.
  apply (rate_limiter_budget_at_least_one 0). lia.
Defined.

(** *** Calls one after the other stay within the budget *)

Lemma older_than_minute_true now t :
  older_than_minute now t = true ↔ (60 < now - t)%Q.
Proof.
  unfold older_than_minute. rewrite negb_true_iff.
  split.
  - intros H. apply Qnot_le_lt. intros Hle. apply Qle_bool_iff in Hle. congruence.
  - intros H. destruct (Qle_bool (now - t) 60) eqn:Hle; [|done].
    apply Qle_bool_iff in Hle. lra.
Qed.

Lemma purge_split now ts :
  ∃ dropped, ts = (dropped ++ purge now ts)%list
             ∧ Forall (fun c => (60 < now - c)%Q) dropped.
Proof.
  induction ts as [|t ts (dropped & Hts & Hold)]; simpl.
  { by exists []. }
  destruct (older_than_minute now t) eqn:Ht.
  - exists (t :: dropped). split; [simpl; congruence|].
    constructor; [by apply older_than_minute_true|done].
  - by exists [].
Qed.

Lemma purge_later clock now ts :
  (clock <= now)%Q → (length (purge now ts) <= length (purge clock ts))%nat.
Proof.
  intros Hle. induction ts as [|t ts IH]; simpl; [done|].
  destruct (older_than_minute clock t) eqn:Hc.
  - apply older_than_minute_true in Hc.
    assert (Hn : older_than_minute now t = true)
      by (apply older_than_minute_true; lra).
    by rewrite Hn.
  - destruct (older_than_minute now t); [|done].
    simpl. destruct (purge_split now ts) as (dropped & Hts & _).
    rewrite Hts at 2. rewrite length_app. lia.
Qed.

Lemma in_window_app t l1 l2 :
  in_window t (l1 ++ l2) = (in_window t l1 + in_window t l2)%nat.
Proof. unfold in_window. by rewrite List.filter_app, length_app. Qed.

Lemma in_window_length t l : (in_window t l <= length l)%nat.
Proof. unfold in_window. apply List.filter_length_le. Qed.

Lemma in_window_before t l :
  Forall (fun c => (c < t)%Q) l → in_window t l = 0%nat.
Proof.
  unfold in_window. induction 1 as [|c l Hc _ IH]; simpl; [done|].
  destruct (Qle_bool t c) eqn:Hle; [|done].
  apply Qle_bool_iff in Hle. lra.
Qed.

Lemma in_window_single t c :
  in_window t [c] = 1%nat ∧ (t <= c)%Q ∧ (c <= t + 60)%Q
  ∨ in_window t [c] = 0%nat.
Proof.
  unfold in_window. simpl. destruct (Qle_bool t c) eqn:Hle; simpl; [|by right].
  apply Qle_bool_iff in Hle.
  destruct (Qle_bool c (t + 60)) eqn:Hle2; simpl; [|by right].
  apply Qle_bool_iff in Hle2. by left.
Qed.

(** One call keeps the invariant. *)
Lemma acquire_in_step n clock now done rl rl' w cs :
  (1 <= n)%nat → per_minute rl = Z.of_nat n →
  in_step n clock (timestamps rl) cs →
  (clock <= now)%Q →
  acquire_enter now rl = Returned (rl', w) →
  (now + default 0%Q w <= done)%Q →
  in_step n done (timestamps (acquire_record done rl')) (cs ++ [done]).
Proof.
  intros Hn Hbudget (old & -> & Hold & Hlen & Hwin) Hclock Henter Hdone.
  destruct (purge_split now (timestamps rl)) as (dropped & Hts & Hdropped).
  pose proof (purge_later clock now (timestamps rl) Hclock) as Hlater.
  set (kept := purge now (timestamps rl)) in *.
  assert (Hall : Forall (fun c => (60 < now - c)%Q) (old ++ dropped)).
  { apply Forall_app. split; [|done].
    eapply Forall_impl; [exact Hold|]. simpl. intros c Hc. lra. }
  assert (Hcs : ((old ++ timestamps rl) ++ [done]
                 = (old ++ dropped) ++ (kept ++ [done]))%list).
  { rewrite Hts at 1. by rewrite <- !app_assoc. }
  unfold acquire_enter in Henter. fold kept in Henter. rewrite Hbudget in Henter.
  destruct (Z.of_nat n <=? Z.of_nat (length kept))%Z eqn:Hfull.
  - (* the caller slept until the oldest entry was a minute old *)
    apply Z.leb_le in Hfull.
    destruct kept as [|t0 rest] eqn:Hkept; [simpl in *; lia|].
    simpl in Henter. injection Henter as <- <-. simpl in Hdone.
    assert (Hrest : length rest = (n - 1)%nat) by (simpl in *; lia).
    assert (Hfresh : older_than_minute now t0 = false).
    { destruct (timestamps rl) as [|x xs] eqn:Hx; [done|].
      assert (Hp : purge now (x :: xs) = t0 :: rest) by done.
      clear -Hp. induction (x :: xs) as [|y ys IH]; [done|].
      simpl in Hp. destruct (older_than_minute now y) eqn:Hy; [auto|].
      by injection Hp as -> ->. }
    assert (Ht0 : (now - t0 <= 60)%Q).
    { apply Qnot_lt_le. intros Hlt. apply older_than_minute_true in Hlt.
      congruence. }
    exists (old ++ dropped)%list. simpl. split; [exact Hcs|].
    split; [eapply Forall_impl; [exact Hall|]; simpl; intros c Hc; lra|].
    split.
    + assert (Hold0 : older_than_minute done t0 = true)
        by (apply older_than_minute_true; lra).
      rewrite Hold0.
      destruct (purge_split done (rest ++ [done])) as (dr & Hsplit & _).
      assert (Hl : length (rest ++ [done]) = n) by (rewrite length_app; simpl; lia).
      rewrite Hsplit, length_app in Hl. lia.
    + intros t. rewrite Hcs.
      destruct (in_window_single t done) as [(Hone & Ht & Ht')|Hzero].
      * rewrite in_window_app, (in_window_before t (old ++ dropped)).
        2:{ eapply Forall_impl; [exact Hall|]. simpl. intros c Hc. lra. }
        rewrite in_window_app, Hone.
        change (t0 :: rest) with ([t0] ++ rest)%list.
        rewrite in_window_app, (in_window_before t [t0]).
        2:{ constructor; [lra|done]. }
        pose proof (in_window_length t rest). lia.
      * specialize (Hwin t). rewrite Hts in Hwin.
        rewrite !in_window_app in Hwin.
        rewrite !in_window_app, Hzero. lia.
  - (* the caller was admitted at once *)
    apply Z.leb_gt in Hfull.
    simpl in Henter. injection Henter as <- <-. simpl in Hdone.
    exists (old ++ dropped)%list. simpl. split; [exact Hcs|].
    split; [eapply Forall_impl; [exact Hall|]; simpl; intros c Hc; lra|].
    split.
    + destruct (purge_split done (kept ++ [done])) as (dr & Hsplit & _).
      assert (Hl : (length (kept ++ [done]) <= n)%nat)
        by (rewrite length_app; simpl; lia).
      rewrite Hsplit, length_app in Hl. lia.
    + intros t. rewrite Hcs.
      destruct (in_window_single t done) as [(Hone & Ht & Ht')|Hzero].
      * rewrite in_window_app, (in_window_before t (old ++ dropped)).
        2:{ eapply Forall_impl; [exact Hall|]. simpl. intros c Hc. lra. }
        rewrite in_window_app, Hone.
        pose proof (in_window_length t kept). lia.
      * specialize (Hwin t). rewrite Hts in Hwin.
        rewrite !in_window_app in Hwin. rewrite !in_window_app, Hzero. lia.
Qed.

Lemma well_timed_in_step n calls : ∀ clock rl cs,
  (1 <= n)%nat → per_minute rl = Z.of_nat n →
  in_step n clock (timestamps rl) cs →
  well_timed clock rl calls →
  ∀ t, (in_window t (cs ++ map snd calls) <= n)%nat.
Proof.
  induction calls as [|[now done] calls IH]; intros clock rl cs Hn Hb Hinv Hw t.
  { simpl. rewrite app_nil_r. destruct Hinv as (_ & _ & _ & _ & Hwin). apply Hwin. }
  simpl in Hw. destruct Hw as [Hclock Hw].
  destruct (acquire_enter now rl) as [[rl' w]|] eqn:Henter; [|done].
  destruct Hw as [Hdone Hrest].
  assert (Hb' : per_minute (acquire_record done rl') = Z.of_nat n).
  { destruct (acquire_enter_returns now rl) as (r & w' & Hr & Hp); [lia|].
    rewrite Henter in Hr. injection Hr as <- <-. simpl. lia. }
  simpl. change (done :: map snd calls) with ([done] ++ map snd calls)%list.
  rewrite app_assoc.
  eapply IH; [done|exact Hb'| |exact Hrest].
  exact (acquire_in_step n clock now done rl rl' w cs Hn Hb Hinv Hclock
           Henter Hdone).
Qed.

(** Without interleaving the bound of C7 holds: however the calls are
    timed, no window of 60 seconds holds more completions than the
    budget. *)
Lemma sequential_calls_within_budget (n : Z) (clock : Q) (calls : list (Q * Q)) :
  well_timed clock (RateLimiter_init n) calls →
  ∀ t, (Z.of_nat (in_window t (map snd calls))
        <= per_minute (RateLimiter_init n))%Z.
Proof.
  intros Hw t.
  pose proof (well_timed_in_step (Z.to_nat (Z.max 1 n)) calls clock
                (RateLimiter_init n) []) as H.
  simpl in *. specialize (H ltac:(lia) ltac:(lia)).
  assert (Hinit : in_step (Z.to_nat (Z.max 1 n)) clock [] []).
  { exists []. split; [done|]. split; [done|]. split; [simpl; lia|].
    intros t'. unfold in_window. simpl. lia. }
  specialize (H Hinit Hw t). lia.
Qed.

(** C7: with callers interleaved, a limiter of one call per minute lets
    two [acquire] calls complete within one hundredth of a second. *)
Theorem rate_limiter_race_exceeds_budget :
  ∃ s, sched_run 0 (sched_init 1) race = Some (Returned (6003 # 100, s))
       ∧ per_minute (limiter s) = 1%Z
       ∧ completions s = [0%Q; 6002 # 100; 6003 # 100]
       ∧ in_window (6002 # 100) (completions s) = 2%nat.
Proof. eexists. vm_compute. repeat split. Qed.

End RateFacts.

(** ** The site crawler *)

Module ScrapeFacts.
Import PyStr Scrape ScrapeSpec.

Section Loop.
Variable urlparse : string -> outcome ParseResult.
Variable tld_extract : string -> outcome ExtractResult.
Variable urljoin : string -> string -> outcome string.
Variable find_all_hrefs : string -> outcome (list string).
Variable can_fetch : string -> string -> string -> outcome bool.
Variable http_get : nat -> string -> outcome Utils.Response.
Variable keywords : list string.
Variable target : string.
Variable settings : Settings.

Local Abbreviation step :=
  (crawl_step urlparse tld_extract urljoin find_all_hrefs can_fetch
     http_get keywords target settings).
Local Abbreviation loop :=
  (crawl_loop urlparse tld_extract urljoin find_all_hrefs can_fetch
     http_get keywords target settings).
Local Abbreviation counted := (ScrapeSpec.counted settings).

Lemma fetches_ok_snoc log url ok :
  length (List.filter snd (log ++ [(url, ok)]))
  = (length (List.filter (snd : string * bool → bool) log)
     + if ok then 1 else 0)%nat.
Proof. rewrite List.filter_app, length_app. by destruct ok. Qed.

(** A turn either uses up one queue entry without counting a page, or
    counts one page, which it has fetched. *)
Lemma follow_links_counts url html st :
  pages_visited (follow_links urlparse tld_extract urljoin find_all_hrefs
                   keywords target url html st) = pages_visited st
  ∧ fetch_log (follow_links urlparse tld_extract urljoin find_all_hrefs
                 keywords target url html st) = fetch_log st.
Proof.
  unfold follow_links. destruct (mbind _ _) as [links|]; [|done].
  by destruct (enqueue_candidates _ _ _ _ _ _ _) as [q' [[]|]].
Qed.

Lemma crawl_step_progress txt st st' :
  step txt st = Some st' →
  (pages_visited st < max_pages_per_site settings)%Z
  ∧ ((pages_visited st' = pages_visited st
      ∧ (length (q st') < length (q st))%nat
      ∧ fetches_ok st' = fetches_ok st)
     ∨ (pages_visited st' = (pages_visited st + 1)%Z
        ∧ fetches_ok st' = S (fetches_ok st))).
Proof.
  unfold step, crawl_step, fetches_ok.
  destruct (q st) as [|[url depth] rest] eqn:Hq; [done|].
  destruct (pages_visited st <? max_pages_per_site settings)%Z eqn:Hlt;
    cbn [negb]; [|done].
  apply Z.ltb_lt in Hlt. intros Hstep. split; [done|].
  destruct (depth >? max_depth settings)%Z.
  { injection Hstep as <-. left. cbn. auto. }
  destruct (robots_disallows _ _ _ _).
  { injection Hstep as <-. left. cbn. auto. }
  destruct (Utils.fetch_text _ _ _) as [page|]; injection Hstep as <-.
  - right.
    destruct (follow_links_counts url (default "" page)
                (page_fetched target url (default "" page) (popped rest st)))
      as [-> ->].
    cbn [page_fetched popped pages_visited fetch_log].
    rewrite fetches_ok_snoc. split; lia.
  - left. cbn [fetch_failed popped pages_visited fetch_log q].
    rewrite fetches_ok_snoc. split; [done|]. split; [cbn; lia|lia].
Qed.

(** The loop ends. *)
Lemma crawl_loop_terminates txt st : ∃ fuel st', loop fuel txt st = Some st'.
Proof.
  remember (Z.to_nat (max_pages_per_site settings - pages_visited st)) as n
    eqn:Hn.
  assert (Hle : (Z.to_nat (max_pages_per_site settings - pages_visited st)
                 <= n)%nat) by lia.
  clear Hn. revert st Hle.
  induction n as [|n IHn]; intros st Hle.
  - exists 0%nat, st. unfold loop. simpl.
    destruct (crawl_step _ _ _ _ _ _ _ _ _ txt st) as [st'|] eqn:Hstep; [|done].
    apply crawl_step_progress in Hstep as [Hlt _]. lia.
  - remember (length (q st)) as m eqn:Hm.
    assert (Hq : (length (q st) <= m)%nat) by lia.
    clear Hm. revert st Hle Hq.
    induction m as [|m IHm]; intros st Hle Hq.
    + exists 0%nat, st. unfold loop. simpl. unfold crawl_step.
      destruct (q st); [done|simpl in Hq; lia].
    + destruct (step txt st) as [st'|] eqn:Hstep.
      * destruct (crawl_step_progress _ _ _ Hstep)
          as [Hlt [(Hp & Hlen & _)|(Hp & _)]].
        -- destruct (IHm st') as (fuel & st'' & Hrun); [lia|lia|].
           exists (S fuel), st''. unfold loop in *. simpl.
           fold step. by rewrite Hstep.
        -- destruct (IHn st') as (fuel & st'' & Hrun); [lia|].
           exists (S fuel), st''. unfold loop in *. simpl.
           fold step. by rewrite Hstep.
      * exists 0%nat, st. unfold loop. simpl. fold step. by rewrite Hstep.
Qed.

Lemma crawl_step_counted txt st st' :
  step txt st = Some st' → counted st → counted st'.
Proof.
  intros Hstep [Hok Hmax]. unfold counted.
  destruct (crawl_step_progress _ _ _ Hstep)
    as [Hlt [(Hp & _ & Hf)|(Hp & Hf)]]; rewrite Hp, Hf; lia.
Qed.

Lemma crawl_loop_counted fuel : ∀ txt st st',
  loop fuel txt st = Some st' → counted st → counted st'.
Proof.
  induction fuel as [|fuel IH]; intros txt st st'; unfold loop; simpl;
    fold step; destruct (step txt st) as [st1|] eqn:Hstep;
    try done; try (by intros [= <-]).
  intros Hrun Hc. eapply IH; [exact Hrun|]. by eapply crawl_step_counted.
Qed.

Lemma initial_state_counted seeds st0 :
  initial_state urlparse tld_extract keywords target seeds = Returned st0 →
  counted st0.
Proof.
  unfold initial_state.
  destruct (enqueue_candidates _ _ _ _ _ _ _) as [q0 [[]|]]; [|done].
  intros [= <-]. unfold counted, fetches_ok. simpl. lia.
Qed.
End Loop.

(** The two branches of the model that stand for exceptions the code
    cannot meet are dead: a page fetch never yields [None], and
    [enqueue_candidates] never raises. *)
Lemma fetch_text_page http_get url :
  Utils.fetch_text http_get url false ≠ Returned None.
Proof.
  unfold Utils.fetch_text. destruct (http_get url) as [r|]; simpl; [|done].
  by destruct (Utils.raise_for_status r).
Qed.

Lemma enqueue_candidates_returns urlparse tld_extract keywords target seen urls :
  ∀ q, snd (enqueue_candidates urlparse tld_extract keywords target seen urls q)
       = Returned tt.
Proof.
  induction urls as [|u urls IH]; intros q; simpl; [done|].
  case_bool_decide; [done|].
  unfold Utils.same_domain.
  destruct (urlparse u) as [parsed|] eqn:Hparse; simpl; [|done].
  destruct (tld_extract _) as [ext|]; simpl; [|done].
  destruct (String.eqb _ _); [|done].
  by destruct (wanted_path _ _).
Qed.

(** Every entry that [enqueue_candidates] adds has depth 0, whatever the
    depth of the page whose links are offered. *)
Lemma enqueue_candidates_depth urlparse tld_extract keywords target seen urls :
  ∀ q u d,
    (u, d) ∈ fst (enqueue_candidates urlparse tld_extract keywords target
                    seen urls q) →
    (u, d) ∈ q ∨ (d = 0%Z ∧ u ∈ urls ∧ u ∉ seen).
Proof.
  induction urls as [|x urls IH]; intros q u d; simpl; [by left|].
  case_bool_decide as Hseen.
  { intros [?|(? & ? & ?)]%IH; [by left|]. right. split_and!; [done|by right|done]. }
  destruct (Utils.same_domain _ _ _ _) as [[]|]; simpl.
  - destruct (urlparse x) as [parsed|]; simpl; [|by left].
    destruct (wanted_path _ _).
    + intros [[?|[= -> ->]%list_elem_of_singleton]%elem_of_app|(? & ? & ?)]%IH.
      * by left.
      * right. split_and!; [done|by left|done].
      * right. split_and!; [done|by right|done].
    + intros [?|(? & ? & ?)]%IH; [by left|].
      right. split_and!; [done|by right|done].
  - intros [?|(? & ? & ?)]%IH; [by left|].
    right. split_and!; [done|by right|done].
  - by left.
Qed.

(** A URL that is in [seen] is not enqueued again: links met on an
    earlier page are not reconsidered. *)
Lemma enqueue_candidates_skips_seen
    urlparse tld_extract keywords target seen urls q u d :
  u ∈ seen →
  (u, d) ∈ fst (enqueue_candidates urlparse tld_extract keywords target
                  seen urls q) →
  (u, d) ∈ q.
Proof.
  intros Hseen [?|(_ & _ & Hnot)]%enqueue_candidates_depth; [done|].
  by destruct Hnot.
Qed.

(** C2, as stated, fails: with the default budget of 15 pages the crawl
    of a site whose home page has six dead links issues 16 page fetches,
    of which one returns a page. *)
Lemma failed_fetches_exceed_budget :
  ∃ log,
    fetch_log <$> finished (crawl_example dead_links_site (settings_of 15 2) 30)
    = Some log
    ∧ length log = 16%nat
    ∧ length (List.filter snd log) = 1%nat
    ∧ ¬ within_fetch_budget (settings_of 15 2) log.
Proof.
  eexists. split; [vm_compute; reflexivity|].
  split; [reflexivity|]. split; [reflexivity|].
  unfold within_fetch_budget. simpl. lia.
Qed.

(** C2, amended.  For every domain, link graph and behaviour of the
    network, one crawl ends, and the page fetches that return a page
    number at most [max_pages_per_site] (none when that is negative);
    they are the pages counted in [pages_visited].  Fetches that fail are
    not counted against the budget. *)
Theorem crawl_page_budget
    (urlparse : string -> outcome ParseResult)
    (tld_extract : string -> outcome ExtractResult)
    (urljoin : string -> string -> outcome string)
    (find_all_hrefs : string -> outcome (list string))
    (can_fetch : string -> string -> string -> outcome bool)
    (http_get : nat -> string -> outcome Utils.Response)
    (keywords : list string) (target : string) (settings : Settings) :
  let crawl := crawl_trace urlparse tld_extract urljoin find_all_hrefs
                 can_fetch http_get keywords target settings in
  (∃ fuel r, crawl fuel = Some r)
  ∧ (∀ fuel st, crawl fuel = Some (Returned st) →
       (Z.of_nat (fetches_ok st) <= Z.max 0 (max_pages_per_site settings))%Z
       ∧ Z.of_nat (fetches_ok st) = pages_visited st).
Proof.
  intros crawl. subst crawl. unfold crawl_trace.
  destruct (urljoin _ "/robots.txt") as [robots_url|]; [|by split; [exists 0%nat; eauto|]].
  destruct (read_robots _ _ _ _ _) as [ns|txt].
  { split; [exists 0%nat; eauto|]. intros _ st [= <-]. simpl.
    unfold fetches_ok. simpl. lia. }
  destruct (mbind _ _) as [st0|] eqn:Hinit; [|by split; [exists 0%nat; eauto|]].
  assert (Hc : counted settings st0).
  { destruct (seed_urls _ _ _) as [seeds|]; [|done].
    by eapply initial_state_counted. }
  split.
  - destruct (crawl_loop_terminates urlparse tld_extract urljoin find_all_hrefs
                can_fetch http_get keywords target settings txt st0)
      as (fuel & st' & Hrun).
    exists fuel, (Returned st'). by rewrite Hrun.
  - intros fuel st Hrun.
    destruct (crawl_loop _ _ _ _ _ _ _ _ _ fuel txt st0) as [st'|] eqn:Hloop;
      [|done].
    injection Hrun as <-.
    destruct (crawl_loop_counted _ _ _ _ _ _ _ _ _ _ _ _ _ Hloop Hc) as [Hok Hmax].
    lia.
Qed.

Lemma crawl_page_budget_witness :
  match crawl_trace Lib.urlparse Lib.tld_extract Lib.urljoin Lib.find_all_hrefs
          Lib.can_fetch (Lib.serve dead_links_site) KEYWORDS "example.com"
          (settings_of 15 2) 30 with
  | Some (Returned st) => (Z.of_nat (fetches_ok st) <= 15)%Z
  | _ => True
  end.
Proof.
  destruct (crawl_trace Lib.urlparse Lib.tld_extract Lib.urljoin
              Lib.find_all_hrefs Lib.can_fetch (Lib.serve dead_links_site)
              KEYWORDS "example.com" (settings_of 15 2) 30)
    as [[st|]|] eqn:Hrun; [|exact I|exact I].
  exact (proj1 (proj2 (crawl_page_budget Lib.urlparse Lib.tld_extract
                         Lib.urljoin Lib.find_all_hrefs Lib.can_fetch
                         (Lib.serve dead_links_site) KEYWORDS "example.com"
                         (settings_of 15 2)) 30%nat st Hrun)).
Defined.

(** C1: the root page is dequeued at depth 0 and links to [/about-us],
    which is enqueued at depth 0, not 1; so with [max_depth = 0] the
    crawl still fetches a page two links away from the root. *)
Theorem links_enqueued_at_depth_zero :
  (st0 ← start_of start_example; head (q st0))
  = Some ("https://example.com/", 0%Z)
  ∧ (st0 ← start_of start_example;
     last (q (turns_example chain_site (settings_of 15 0) 1 st0)))
    = Some ("https://example.com/about-us", 0%Z)
  ∧ fetch_log <$> finished (crawl_example chain_site (settings_of 15 0) 30)
    = Some [("https://example.com/", true);
            ("https://example.com/contact", false);
            ("https://example.com/about", false);
            ("https://example.com/team", false);
            ("https://example.com/people", false);
            ("https://example.com/career", false);
            ("https://example.com/careers", false);
            ("https://example.com/join", false);
            ("https://example.com/recruit", false);
            ("https://example.com/jobs", false);
            ("https://example.com/about-us", true);
            ("https://example.com/team/jane", true)].
Proof. split; [|split]; vm_compute; reflexivity. Qed.

(** C6: a page that links twice to the same URL has it enqueued twice,
    and the crawl fetches it twice. *)
Theorem same_link_enqueued_twice :
  (st0 ← start_of start_example;
   Some (List.filter
           (fun p => String.eqb (fst p) "https://example.com/about-us")
           (q (turns_example twice_site (settings_of 15 2) 1 st0))))
  = Some [("https://example.com/about-us", 0%Z);
          ("https://example.com/about-us", 0%Z)]
  ∧ List.filter snd
      <$> (fetch_log <$> finished (crawl_example twice_site (settings_of 15 2) 30))
    = Some [("https://example.com/", true);
            ("https://example.com/about-us", true);
            ("https://example.com/about-us", true)].
Proof. split; vm_compute; reflexivity. Qed.

End ScrapeFacts.

(** * Further properties of the code *)

(** ** validate.py: order-preserving deduplication and the basic filter *)

Module CleanProps.
Import PyStr Validate CleanSpec.

Lemma dedupe_from_sublist items : ∀ seen,
  dedupe_from seen items `sublist_of` items.
Proof.
  induction items as [|x items IH]; intros seen; simpl; [done|].
  case_bool_decide; [by apply sublist_cons|by apply sublist_skip].
Qed.

Lemma dedupe_from_fresh items : ∀ seen x,
  x ∈ dedupe_from seen items → lower x ∉ seen.
Proof.
  induction items as [|y items IH]; intros seen x; simpl.
  { by intros ?%elem_of_nil. }
  case_bool_decide as Hy; [by apply IH|].
  intros [->|Hin]%elem_of_cons; [done|].
  apply IH in Hin. set_solver.
Qed.

Lemma dedupe_from_nodup items : ∀ seen,
  NoDup (lower <$> dedupe_from seen items).
Proof.
  induction items as [|x items IH]; intros seen; simpl; [constructor|].
  case_bool_decide as Hx; [by apply IH|].
  rewrite fmap_cons. constructor; [|by apply IH].
  intros (y & Hy & Hin)%list_elem_of_fmap.
  apply dedupe_from_fresh in Hin. set_solver.
Qed.

Lemma dedupe_from_covers items : ∀ seen x,
  x ∈ items → lower x ∈ seen ∨ lower x ∈ lower <$> dedupe_from seen items.
Proof.
  induction items as [|y items IH]; intros seen x; simpl.
  { by intros ?%elem_of_nil. }
  intros [->|Hin]%elem_of_cons.
  - case_bool_decide; [by left|]. right. rewrite fmap_cons. by left.
  - case_bool_decide as Hy.
    + by apply IH.
    + destruct (IH ({[lower y]} ∪ seen) x Hin) as [Hs|Hd].
      * apply elem_of_union in Hs as [Heq%elem_of_singleton|Hs]; [|by left].
        right. rewrite fmap_cons, Heq. by left.
      * right. rewrite fmap_cons. by right.
Qed.

Lemma dedupe_from_fixed items : ∀ seen,
  NoDup (lower <$> items) →
  Forall (fun x => lower x ∉ seen) items →
  dedupe_from seen items = items.
Proof.
  induction items as [|x items IH]; intros seen Hnd Hfresh; simpl; [done|].
  rewrite fmap_cons in Hnd. apply NoDup_cons in Hnd as [Hx Hnd].
  apply Forall_cons in Hfresh as [Hxs Hfresh].
  rewrite bool_decide_eq_false_2 by done. f_equal. apply IH; [done|].
  apply Forall_forall. intros y Hy. rewrite Forall_forall in Hfresh.
  intros [Heq%elem_of_singleton|Hs]%elem_of_union; [|by eapply Hfresh].
  apply Hx, list_elem_of_fmap. by exists y.
Qed.

Lemma dedupe_from_snoc items x : ∀ seen,
  dedupe_from seen (items ++ [x])
  = (dedupe_from seen items
     ++ if bool_decide (lower x ∈ seen ∨ lower x ∈ lower <$> items)
        then [] else [x])%list.
Proof.
  induction items as [|y items IH]; intros seen.
  { cbn [app dedupe_from fmap list_fmap]. case_bool_decide as Hx.
    - rewrite bool_decide_eq_true_2; [done|by left].
    - rewrite bool_decide_eq_false_2; [done|].
      intros [?|Hin]; [done|]. by apply elem_of_nil in Hin. }
  change ((y :: items) ++ [x])%list with (y :: (items ++ [x]))%list.
  cbn [dedupe_from]. rewrite fmap_cons. case_bool_decide as Hy.
  - rewrite IH.
    assert (Hiff : lower x ∈ seen ∨ lower x ∈ lower <$> items
                   ↔ lower x ∈ seen
                     ∨ lower x ∈ (lower y :: (lower <$> items))).
    { rewrite elem_of_cons. split; [tauto|].
      intros [?|[Heq|?]]; [tauto| |tauto]. left. by rewrite Heq. }
    by rewrite (bool_decide_ext _ _ Hiff).
  - rewrite IH.
    assert (Hiff : lower x ∈ {[lower y]} ∪ seen ∨ lower x ∈ lower <$> items
                   ↔ lower x ∈ seen
                     ∨ lower x ∈ (lower y :: (lower <$> items))).
    { rewrite elem_of_cons, elem_of_union, elem_of_singleton. tauto. }
    by rewrite (bool_decide_ext _ _ Hiff).
Qed.

Lemma dedupe_from_first items : ∀ seen x,
  x ∈ dedupe_from seen items ↔
  ∃ pre post, items = (pre ++ x :: post)%list
              ∧ (lower x ∉ seen) ∧ (lower x ∉ lower <$> pre).
Proof.
  induction items as [|y items IH]; intros seen x; cbn [dedupe_from].
  { split; [by intros ?%elem_of_nil|]. intros (pre & post & Heq & _).
    by destruct pre. }
  case_bool_decide as Hy.
  - rewrite IH. split.
    + intros (pre & post & -> & Hs & Hpre). exists (y :: pre), post.
      split; [done|]. split; [done|]. rewrite fmap_cons.
      intros [Heq|?]%elem_of_cons; [|done]. by rewrite Heq in Hs.
    + intros (pre & post & Heq & Hs & Hpre). destruct pre as [|z pre].
      * injection Heq as -> ->. done.
      * injection Heq as -> ->. exists pre, post. split; [done|].
        split; [done|]. rewrite fmap_cons in Hpre. intros Hin. apply Hpre.
        by right.
  - rewrite elem_of_cons, IH. split.
    + intros [->|(pre & post & -> & Hs & Hpre)].
      * exists [], items. split; [done|]. split; [done|].
        by intros ?%elem_of_nil.
      * exists (y :: pre), post. split; [done|].
        assert (Hxy : lower x ≠ lower y).
        { intros Heq. apply Hs, elem_of_union. left.
          by apply elem_of_singleton. }
        split.
        -- intros Hin. apply Hs, elem_of_union. by right.
        -- rewrite fmap_cons. by intros [?|?]%elem_of_cons.
    + intros (pre & post & Heq & Hs & Hpre). destruct pre as [|z pre].
      * injection Heq as -> ->. by left.
      * injection Heq as -> ->. right. exists pre, post. split; [done|].
        rewrite fmap_cons in Hpre. split.
        -- intros [Hx%elem_of_singleton|?]%elem_of_union; [|done].
           apply Hpre. rewrite Hx. by left.
        -- intros Hin. apply Hpre. by right.
Qed.

(** X1. [dedupe_keep_order] keeps a sub-sequence of its input in which no
    two items are equal up to letter case; every input item is still
    represented up to letter case; and running it again changes nothing.
    The spelling kept is always the first one met: an item is in the
    result exactly when it stands in the input with no earlier item equal
    to it up to letter case, and an item put at the end of the input is
    put at the end of the result exactly when no item before it is equal
    to it up to letter case, the rest of the result being unchanged. *)
Theorem dedupe_keep_order_first_spellings (items : list string) :
  dedupe_keep_order items `sublist_of` items
  ∧ NoDup (lower <$> dedupe_keep_order items)
  ∧ Forall (fun x => lower x ∈ lower <$> dedupe_keep_order items) items
  ∧ (∀ x rest, items = x :: rest → head (dedupe_keep_order items) = Some x)
  ∧ dedupe_keep_order (dedupe_keep_order items) = dedupe_keep_order items
  ∧ (∀ x, x ∈ dedupe_keep_order items ↔
          ∃ pre post, items = (pre ++ x :: post)%list
                      ∧ lower x ∉ (lower <$> pre))
  ∧ (∀ x, dedupe_keep_order (items ++ [x])
          = (dedupe_keep_order items
             ++ if bool_decide (lower x ∈ lower <$> items)
                then [] else [x])%list).
Proof.
  unfold dedupe_keep_order. split_and!.
  - apply dedupe_from_sublist.
  - apply dedupe_from_nodup.
  - apply Forall_forall. intros x Hx.
    destruct (dedupe_from_covers items ∅ x Hx) as [?|?]; [set_solver|done].
  - intros x rest ->. simpl. by rewrite bool_decide_eq_false_2 by set_solver.
  - apply dedupe_from_fixed; [apply dedupe_from_nodup|].
    apply Forall_forall. set_solver.
  - intros x. rewrite dedupe_from_first. split.
    + intros (pre & post & Heq & _ & Hpre). by exists pre, post.
    + intros (pre & post & Heq & Hpre). exists pre, post.
      split; [done|]. split; [set_solver|done].
  - intros x. rewrite dedupe_from_snoc.
    assert (Hiff : lower x ∈ (∅ : gset string) ∨ lower x ∈ lower <$> items
                   ↔ lower x ∈ lower <$> items).
    { split; [|by right]. intros [Hin|?]; [|done].
      by apply elem_of_empty in Hin. }
    by rewrite (bool_decide_ext _ _ Hiff).
Qed.

Lemma filter_emails_basic_map emails domain :
  filter_emails_basic emails domain = strip <$> List.filter passes emails.
Proof.
  induction emails as [|e emails IH]; simpl; [done|].
  unfold passes at 1. destruct (split_once "@" e) as [loc [dom|]]; [|done].
  case_bool_decide; csimpl; [done|]. by rewrite IH.
Qed.

Lemma filter_sublist {A} (p : A → bool) (l : list A) :
  List.filter p l `sublist_of` l.
Proof.
  induction l as [|x l IH]; simpl; [done|].
  destruct (p x); [by apply sublist_skip|by apply sublist_cons].
Qed.

Lemma filter_all {A} (p : A → bool) (l : list A) :
  Forall (fun x => p x = true) l → List.filter p l = l.
Proof.
  induction 1 as [|x l Hx _ IH]; simpl; [done|]. by rewrite Hx, IH.
Qed.

Lemma fmap_fixed {A} (f : A → A) (l : list A) :
  Forall (fun x => f x = x) l → f <$> l = l.
Proof. induction 1 as [|x l Hx _ IH]; csimpl; [done|]. by rewrite Hx, IH. Qed.

(** X2. On addresses that carry no surrounding whitespace,
    [filter_emails_basic] returns a sub-sequence of its input: exactly the
    addresses that hold an ["@"] and whose text after the first ["@"],
    lower-cased, is not a disposable domain.  Its [domain] argument has no
    effect, and filtering twice is filtering once. *)
Theorem filter_emails_basic_on_trimmed
    (emails : list string) (domain other : option string) :
  Forall (fun e => strip e = e) emails →
  filter_emails_basic emails domain = List.filter passes emails
  ∧ filter_emails_basic emails domain `sublist_of` emails
  ∧ filter_emails_basic emails other = filter_emails_basic emails domain
  ∧ filter_emails_basic (filter_emails_basic emails domain) domain
    = filter_emails_basic emails domain.
Proof.
  intros Htrim.
  assert (Hkept : Forall (fun e => strip e = e) (List.filter passes emails)).
  { apply Forall_forall. intros e [He _]%list_elem_of_In%List.filter_In.
    rewrite Forall_forall in Htrim. by apply Htrim, list_elem_of_In. }
  assert (Hsame : filter_emails_basic emails domain = List.filter passes emails).
  { by rewrite filter_emails_basic_map, fmap_fixed. }
  split_and!; [done| | |].
  - rewrite Hsame. apply filter_sublist.
  - by rewrite !filter_emails_basic_map.
  - rewrite Hsame, filter_emails_basic_map, fmap_fixed.
    + apply filter_all, Forall_forall.
      by intros e [_ He]%list_elem_of_In%List.filter_In.
    + rewrite filter_all; [done|]. apply Forall_forall.
      by intros e [_ He]%list_elem_of_In%List.filter_In.
Qed.

Lemma filter_emails_basic_on_trimmed_witness :
  filter_emails_basic ["jane@acme.com"; "no-at-sign"; "x@YOPmail.com"] None
  = ["jane@acme.com"].
Proof.
  destruct (filter_emails_basic_on_trimmed
              ["jane@acme.com"; "no-at-sign"; "x@YOPmail.com"] None None)
    as [Hsame _].
  - repeat constructor.
  - rewrite Hsame. vm_compute. reflexivity.
Defined.

End CleanProps.

(** ** main.py: the first source of an address wins *)

Module EvidenceProps.
Import PyStr Validate Main EvidenceSpec.

Lemma get_set {V} (d : list (string * V)) k v k' :
  Dict.get (Dict.set d k v) k'
  = if String.eqb k' k then Some v else Dict.get d k'.
Proof.
  induction d as [|[k0 v0] d IH]; simpl.
  { done. }
  destruct (String.eqb k k0) eqn:Hk; simpl.
  - apply String.eqb_eq in Hk as ->. by destruct (String.eqb k' k0).
  - rewrite IH. destruct (String.eqb k' k0) eqn:Hk0; [|done].
    apply String.eqb_eq in Hk0 as ->.
    by rewrite String.eqb_sym, Hk.
Qed.

Lemma elem_of_keys {V} (d : list (string * V)) k :
  k ∈ Dict.keys d ↔ is_Some (Dict.get d k).
Proof.
  unfold Dict.keys. induction d as [|[k0 v0] d IH]; simpl.
  { split; [by intros ?%elem_of_nil|by intros [? ?]]. }
  rewrite elem_of_cons, IH. destruct (String.eqb k k0) eqn:Hk.
  - apply String.eqb_eq in Hk. split; [by eauto|by left].
  - apply String.eqb_neq in Hk. split; [by intros [?|?]|by right].
Qed.

Lemma keys_set {V} (d : list (string * V)) k v :
  Dict.keys (Dict.set d k v)
  = if bool_decide (k ∈ Dict.keys d) then Dict.keys d else (Dict.keys d ++ [k])%list.
Proof.
  unfold Dict.keys. induction d as [|[k0 v0] d IH].
  { case_bool_decide as Hin; [by apply elem_of_nil in Hin|done]. }
  cbn [Dict.set map fst]. destruct (String.eqb k k0) eqn:Hk.
  - apply String.eqb_eq in Hk as ->.
    by rewrite bool_decide_eq_true_2 by by left.
  - apply String.eqb_neq in Hk. cbn [map fst]. rewrite IH.
    case_bool_decide as Hin.
    + by rewrite bool_decide_eq_true_2 by by right.
    + rewrite bool_decide_eq_false_2; [done|].
      by intros [?|?]%elem_of_cons.
Qed.

(** One address noted: a source already recorded stays, a new address
    gets [tag] and goes last. *)
Lemma get_note_source tag d e k :
  Dict.get (note_source tag d e) k
  = match Dict.get d k with
    | Some v => Some v
    | None => if String.eqb k e then Some tag else None
    end.
Proof.
  unfold note_source. rewrite get_set.
  destruct (String.eqb k e) eqn:Hk; [|by destruct (Dict.get d k)].
  apply String.eqb_eq in Hk as ->. by destruct (Dict.get d e).
Qed.

Lemma keys_note_source tag d e :
  Dict.keys (note_source tag d e)
  = if bool_decide (e ∈ Dict.keys d) then Dict.keys d else (Dict.keys d ++ [e])%list.
Proof. apply keys_set. Qed.

(** What holds of the map after the crawl and is kept by every later
    note holds of the map in the end. *)
Lemma process_company_map_ind (P : list (string * string) → Prop) dom f :
  P (if match dom with Some d => negb (is_empty d) | None => false end
     then note_sources "page" [] (crawl_emails f) else []) →
  (∀ d e, P d → P (note_source "hunter" d e)) →
  (∀ d e, P d → P (note_source "apollo" d e)) →
  P (emails_by_source (process_company dom f)).
Proof.
  intros Hcrawl Hhunter Hapollo.
  assert (Hh : ∀ es d, P d → P (note_sources "hunter" d es)).
  { unfold note_sources. induction es as [|e es IH]; intros d Hd; simpl; auto. }
  assert (Ha : ∀ ps d, P d → P (fold_left note_apollo ps d)).
  { induction ps as [|p ps IH]; intros d Hd; simpl; [done|].
    apply IH. destruct p as [e|]; simpl; [|done]. destruct (is_empty e); auto. }
  unfold process_company.
  set (d0 := if match dom with Some d => negb (is_empty d) | None => false end
             then note_sources "page" [] (crawl_emails f) else []) in *.
  destruct (use_hunter f); [destruct (hunter_search f) as [hs|];
    [destruct (hunter_verify f _)|]|];
    (destruct (use_apollo f); [destruct (apollo_emails f)|]);
    match goal with
    | |- context [assess_confidence ?a ?b ?c] =>
        destruct (assess_confidence a b c)
    end; simpl; auto.
Qed.

Lemma set_values {V} (Q : string * V → Prop) (d : list (string * V)) k v :
  (∀ k', Q (k', v)) → Forall Q d → Forall Q (Dict.set d k v).
Proof.
  intros Hv. induction 1 as [|[k0 v0] d H0 Hd IH]; simpl.
  { by repeat constructor. }
  destruct (String.eqb k k0); constructor; auto.
Qed.

Lemma get_value {V} (Q : string * V → Prop) (d : list (string * V)) k v :
  (∀ k1 k2 w, Q (k1, w) → Q (k2, w)) →
  Forall Q d → Dict.get d k = Some v → Q (k, v).
Proof.
  intros Hkey. induction 1 as [|[k0 v0] d H0 _ IH]; simpl; [done|].
  destruct (String.eqb k k0); [|done]. intros [= <-]. by eapply Hkey.
Qed.

Lemma note_source_known tag d e :
  known_source (e, tag) → Forall known_source d →
  Forall known_source (note_source tag d e).
Proof.
  intros Htag Hd. unfold note_source.
  destruct (Dict.get d e) as [v|] eqn:Hget; simpl.
  - apply set_values; [|done]. intros k'.
    by apply (get_value known_source d e v).
  - by apply set_values.
Qed.

Lemma note_source_nodup tag d e :
  NoDup (Dict.keys d) → NoDup (Dict.keys (note_source tag d e)).
Proof.
  intros Hd. rewrite keys_note_source. case_bool_decide as Hin; [done|].
  apply NoDup_app. split_and!; [done| |apply NoDup_singleton].
  intros x Hx ->%list_elem_of_singleton. done.
Qed.

Lemma note_sources_get tag es : ∀ d k,
  Dict.get (note_sources tag d es) k
  = match Dict.get d k with
    | Some v => Some v
    | None => if bool_decide (k ∈ es) then Some tag else None
    end.
Proof.
  unfold note_sources. induction es as [|e es IH]; intros d k; cbn [fold_left].
  { destruct (Dict.get d k); [done|].
    case_bool_decide as Hin; [by apply elem_of_nil in Hin|done]. }
  rewrite IH, get_note_source. destruct (Dict.get d k) as [v|]; [done|].
  destruct (String.eqb k e) eqn:Hk.
  - apply String.eqb_eq in Hk as ->. by rewrite bool_decide_eq_true_2 by by left.
  - apply String.eqb_neq in Hk. case_bool_decide as Hin.
    + by rewrite bool_decide_eq_true_2 by by right.
    + rewrite bool_decide_eq_false_2; [done|]. by intros [?|?]%elem_of_cons.
Qed.

Lemma note_sources_nodup tag es : ∀ d,
  NoDup (Dict.keys d) → NoDup (Dict.keys (note_sources tag d es)).
Proof.
  unfold note_sources. induction es as [|e es IH]; intros d Hd; simpl; [done|].
  by apply IH, note_source_nodup.
Qed.

Lemma note_sources_known tag es : ∀ d,
  (∀ e, known_source (e, tag)) → Forall known_source d →
  Forall known_source (note_sources tag d es).
Proof.
  unfold note_sources. induction es as [|e es IH]; intros d Htag Hd; simpl;
    [done|].
  by apply IH, note_source_known.
Qed.

Lemma note_apollo_get ps : ∀ d k,
  Dict.get (fold_left note_apollo ps d) k
  = match Dict.get d k with
    | Some v => Some v
    | None => if negb (is_empty k) && bool_decide (Some k ∈ ps)
              then Some "apollo" else None
    end.
Proof.
  induction ps as [|p ps IH]; intros d k; cbn [fold_left].
  { destruct (Dict.get d k); [done|].
    rewrite bool_decide_eq_false_2 by by intros ?%elem_of_nil.
    by rewrite andb_false_r. }
  rewrite IH. clear IH.
  assert (Hskip : bool_decide (Some k ∈ p :: ps)
                  = bool_decide (p = Some k) || bool_decide (Some k ∈ ps)).
  { case_bool_decide as Hin.
    - apply elem_of_cons in Hin as [<-|Hin].
      + by rewrite bool_decide_eq_true_2.
      + rewrite (bool_decide_eq_true_2 _ Hin). by rewrite orb_true_r.
    - rewrite !bool_decide_eq_false_2; [done| |].
      + intros ?. apply Hin. by right.
      + intros ->. apply Hin. by left. }
  rewrite Hskip. clear Hskip. destruct p as [e|]; cbn [note_apollo].
  2:{ by rewrite (bool_decide_eq_false_2 (None = Some k)). }
  destruct (is_empty e) eqn:He.
  - destruct (Dict.get d k); [done|].
    destruct (bool_decide (Some e = Some k)) eqn:Hek; [|done].
    apply bool_decide_eq_true in Hek. injection Hek as ->. by rewrite He.
  - rewrite get_note_source. destruct (Dict.get d k); [done|].
    destruct (String.eqb k e) eqn:Hk.
    + apply String.eqb_eq in Hk as ->.
      by rewrite He, bool_decide_eq_true_2.
    + apply String.eqb_neq in Hk.
      rewrite (bool_decide_eq_false_2 (Some e = Some k)); [done|].
      intros [= ->]. done.
Qed.

(** The map of [process_company], stage by stage. *)
Lemma process_company_map dom f :
  emails_by_source (process_company dom f)
  = let d0 := if match dom with Some d => negb (is_empty d) | None => false end
              then note_sources "page" [] (crawl_emails f) else [] in
    let d1 := if use_hunter f then
                match hunter_search f with
                | Returned hs => note_sources "hunter" d0 hs
                | Raised => d0
                end
              else d0 in
    if use_apollo f then
      match apollo_emails f with
      | Returned ps => fold_left note_apollo ps d1
      | Raised => d1
      end
    else d1.
Proof.
  unfold process_company. cbn zeta.
  destruct (use_hunter f); [destruct (hunter_search f) as [hs|];
    [destruct (hunter_verify f _)|]|];
    (destruct (use_apollo f); [destruct (apollo_emails f)|]);
    match goal with
    | |- context [assess_confidence ?a ?b ?c] =>
        destruct (assess_confidence a b c)
    end; reflexivity.
Qed.

Lemma process_company_get dom f e :
  Dict.get (emails_by_source (process_company dom f)) e = first_source dom f e.
Proof.
  rewrite process_company_map. cbn zeta.
  unfold first_source, crawl_found, hunter_found, apollo_found.
  set (d0 := if match dom with Some d => negb (is_empty d) | None => false end
             then note_sources "page" [] (crawl_emails f) else []).
  assert (H0 : Dict.get d0 e
               = if match dom with Some d => negb (is_empty d) | None => false end
                    && bool_decide (e ∈ crawl_emails f)
                 then Some "page" else None).
  { subst d0.
    destruct (match dom with Some d => negb (is_empty d) | None => false end);
      [|done].
    rewrite note_sources_get. cbn [Dict.get andb]. done. }
  set (d1 := if use_hunter f then
               match hunter_search f with
               | Returned hs => note_sources "hunter" d0 hs
               | Raised => d0
               end
             else d0).
  assert (H1 : Dict.get d1 e
               = match Dict.get d0 e with
                 | Some v => Some v
                 | None =>
                     if use_hunter f
                        && match hunter_search f with
                           | Returned hs => bool_decide (e ∈ hs)
                           | Raised => false
                           end
                     then Some "hunter" else None
                 end).
  { subst d1. destruct (use_hunter f); cbn [andb].
    - destruct (hunter_search f) as [hs|].
      + apply note_sources_get.
      + by destruct (Dict.get d0 e).
    - by destruct (Dict.get d0 e). }
  assert (H2 : Dict.get
                 (if use_apollo f then
                    match apollo_emails f with
                    | Returned ps => fold_left note_apollo ps d1
                    | Raised => d1
                    end
                  else d1) e
               = match Dict.get d1 e with
                 | Some v => Some v
                 | None =>
                     if use_apollo f
                        && match apollo_emails f with
                           | Returned ps =>
                               negb (is_empty e) && bool_decide (Some e ∈ ps)
                           | Raised => false
                           end
                     then Some "apollo" else None
                 end).
  { destruct (use_apollo f); cbn [andb].
    - destruct (apollo_emails f) as [ps|].
      + apply note_apollo_get.
      + by destruct (Dict.get d1 e).
    - by destruct (Dict.get d1 e). }
  rewrite H2, H1, H0.
  destruct (match dom with Some d => negb (is_empty d) | None => false end
            && bool_decide (e ∈ crawl_emails f)); [done|].
  by destruct (use_hunter f
               && match hunter_search f with
                  | Returned hs => bool_decide (e ∈ hs)
                  | Raised => false
                  end).
Qed.

(** X3. In the evidence map that [process_company] builds, each address
    is a key once, every source is one of page, hunter and apollo, and
    the first source to find an address keeps it.  The source recorded for
    an address is that of the first stage, in the order crawl, Hunter
    search, Apollo, that handed it over, and an address that no stage
    handed over is not in the map: a crawled address is credited to the
    page whatever Hunter and Apollo return afterwards, and an address
    that Hunter found and the crawl did not stays credited to Hunter when
    Apollo returns it too. *)
Theorem evidence_first_source_wins (dom : option string) (f : Feeds) :
  let ebs := emails_by_source (process_company dom f) in
  NoDup (Dict.keys ebs)
  ∧ Forall known_source ebs
  ∧ (∀ d, dom = Some d → d ≠ "" →
       Forall (fun e => Dict.get ebs e = Some "page") (crawl_emails f))
  ∧ (∀ e, Dict.get ebs e = first_source dom f e)
  ∧ (∀ e, crawl_found dom f e = false → hunter_found f e = true →
          Dict.get ebs e = Some "hunter").
Proof.
  intros ebs. subst ebs. split_and!.
  - apply process_company_map_ind; auto using note_source_nodup.
    destruct (match dom with Some d => negb (is_empty d) | None => false end);
      [|constructor].
    apply note_sources_nodup. constructor.
  - apply process_company_map_ind.
    + destruct (match dom with Some d => negb (is_empty d) | None => false end);
        [|constructor].
      apply note_sources_known; [by left|constructor].
    + intros d e Hd. apply note_source_known; [right; by left|done].
    + intros d e Hd. apply note_source_known; [right; by right|done].
  - intros d -> Hd.
    apply (process_company_map_ind
             (fun m => Forall (fun e => Dict.get m e = Some "page") (crawl_emails f))).
    + destruct d; [done|]. simpl. apply Forall_forall. intros e He.
      rewrite note_sources_get. simpl. by rewrite bool_decide_eq_true_2.
    + intros m e Hm. eapply Forall_impl; [exact Hm|]. simpl.
      intros x Hx. by rewrite get_note_source, Hx.
    + intros m e Hm. eapply Forall_impl; [exact Hm|]. simpl.
      intros x Hx. by rewrite get_note_source, Hx.
  - apply process_company_get.
  - intros e Hc Hh. rewrite process_company_get. unfold first_source.
    by rewrite Hc, Hh.
Qed.

End EvidenceProps.

(** ** validate.py: what each confidence label stands for *)

Module ScoreProps.
Import PyStr Validate ValidateSpec ValidateFacts ScoreSpec.

Lemma scan_valid_high hv src emails :
  Exists (valid_verdict hv) emails →
  ∃ m, scan_valid hv src emails = Some ("high", m).
Proof.
  induction 1 as [e rest He|e rest _ IH]; simpl.
  - apply says_valid_iff in He. rewrite He. eauto.
  - destruct (says_valid hv e); eauto.
Qed.

Lemma exists_or_none {A} (P : A → Prop) (b : A → bool) (l : list A) :
  (∀ x, b x = true ↔ P x) → Exists P l ∨ Forall (fun x => ¬ P x) l.
Proof.
  intros Hb. induction l as [|x l [IH|IH]].
  - right. constructor.
  - left. by right.
  - destruct (b x) eqn:Hx.
    + left. left. by apply Hb.
    + right. constructor; [|done]. intros HP%Hb. congruence.
Qed.

Lemma personal_on_page_bool src e :
  bool_decide (Dict.get src e = Some "page")
  && (dotted_name (local_part e)
      || bool_decide (local_part e ∉ GENERIC_PREFIXES)) = true
  ↔ personal_on_page src e.
Proof.
  unfold personal_on_page.
  rewrite andb_true_iff, orb_true_iff, !bool_decide_eq_true. done.
Qed.

Lemma not_exists_forall {A} (P : A → Prop) (l : list A) :
  ¬ Exists P l ↔ Forall (fun x => ¬ P x) l.
Proof.
  split.
  - intros H. apply Forall_forall. intros x Hx HP. apply H.
    apply Exists_exists. eauto.
  - intros H (x & Hx & HP)%Exists_exists. rewrite Forall_forall in H.
    by apply (H x).
Qed.

(** Exactly one of the three grounds holds, and it decides the label. *)
Lemma label_cases hv src emails :
  (verified hv src emails ∧ fst (assess_confidence emails hv src) = "high")
  ∨ (personal hv src emails ∧ fst (assess_confidence emails hv src) = "medium")
  ∨ (bare hv src emails ∧ fst (assess_confidence emails hv src) = "low").
Proof.
  unfold assess_confidence, verified, personal, bare.
  destruct (exists_or_none (valid_verdict hv) (says_valid hv) emails)
    as [Hv|Hv]; [apply says_valid_iff| |].
  { left. destruct (scan_valid_high hv src emails Hv) as [m ->]. auto. }
  destruct (exists_or_none (from_apollo src)
              (fun e => bool_decide (Dict.get src e = Some "apollo")) emails)
    as [Ha|Ha]; [intros x; apply bool_decide_eq_true| |].
  { left. rewrite scan_valid_none, (scan_apollo_some _ _ Ha) by done. auto. }
  assert (Hnot : ¬ (Exists (valid_verdict hv) emails
                    ∨ Exists (from_apollo src) emails)).
  { intros [H|H].
    - exact (proj2 (not_exists_forall _ _) Hv H).
    - exact (proj2 (not_exists_forall _ _) Ha H). }
  right.
  destruct (exists_or_none (personal_on_page src) _ emails
              (personal_on_page_bool src)) as [Hp|Hp].
  - left. rewrite scan_valid_none, scan_apollo_none, (scan_page_some _ _ Hp)
      by done. auto.
  - right. rewrite scan_valid_none, scan_apollo_none, scan_page_none by done.
    split; [|done]. split; [done|]. by apply not_exists_forall.
Qed.

(** X4. The confidence label says what evidence there is, and nothing
    else: it is [high] exactly when some address has a ["valid"] verdict
    or comes from Apollo, [medium] exactly when none does but some
    on-page address looks personal, [low] exactly when neither holds; no
    other label is returned, and the order of the addresses does not
    change it. *)
Theorem confidence_label_meaning
    (emails : list string) (hv : gmap string verdict)
    (src : list (string * string)) :
  let label := fst (assess_confidence emails hv src) in
  (label = "high" ↔ verified hv src emails)
  ∧ (label = "medium" ↔ personal hv src emails)
  ∧ (label = "low" ↔ bare hv src emails)
  ∧ (label = "high" ∨ label = "medium" ∨ label = "low")
  ∧ (∀ emails', emails ≡ₚ emails' →
       fst (assess_confidence emails' hv src) = label).
Proof.
  intros label. subst label.
  assert (Hexcl : ∀ l, (verified hv src l → personal hv src l → False)
                       ∧ (verified hv src l → bare hv src l → False)
                       ∧ (personal hv src l → bare hv src l → False)).
  { intros l. unfold personal, bare. tauto. }
  destruct (Hexcl emails) as (H1 & H2 & H3).
  split_and!.
  - destruct (label_cases hv src emails) as [[? ->]|[[? ->]|[? ->]]];
      split; try done; intros; exfalso; eauto.
  - destruct (label_cases hv src emails) as [[? ->]|[[? ->]|[? ->]]];
      split; try done; intros; exfalso; eauto.
  - destruct (label_cases hv src emails) as [[? ->]|[[? ->]|[? ->]]];
      split; try done; intros; exfalso; eauto.
  - destruct (label_cases hv src emails) as [[? ->]|[[? ->]|[? ->]]]; auto.
  - intros emails' Hperm.
    assert (Hv : verified hv src emails ↔ verified hv src emails').
    { unfold verified. by rewrite Hperm. }
    assert (Hp : Exists (personal_on_page src) emails
                 ↔ Exists (personal_on_page src) emails').
    { by rewrite Hperm. }
    destruct (Hexcl emails') as (H1' & H2' & H3').
    destruct (label_cases hv src emails) as [[G ->]|[[G ->]|[G ->]]];
      destruct (label_cases hv src emails') as [[G' ->]|[[G' ->]|[G' ->]]];
      try done; exfalso; unfold personal, bare in *; tauto.
Qed.

End ScoreProps.

(** ** utils.py: a URL belongs to the domain it normalises to *)

Module DomainProps.
Import PyStr Utils NormalizeSpec NormalizeFacts.

(** X5. [same_domain] agrees with [normalize_domain]: when an input
    normalises to a domain, [same_domain] accepts that domain, in any
    letter case, for the URL that was parsed (the trimmed input, with
    [http://] in front when it had no scheme).  This holds whatever the
    URL parser and the suffix splitter return. *)
Theorem normalized_domain_is_same_domain
    (urlparse : string -> outcome ParseResult)
    (tld_extract : string -> outcome ExtractResult)
    (u d d' : string) :
  normalize_domain urlparse tld_extract (Some u) = Returned (Some d) →
  lower d' = lower d →
  same_domain urlparse tld_extract d' (with_scheme u) = Returned true.
Proof.
  intros Hnorm Hcase.
  destruct (normalize_domain_cases urlparse tld_extract (Some u))
    as [[_ H]|[(_ & _ & H)|[(h & _ & _ & H)|(d0 & Hreg & H)]]];
    rewrite H in Hnorm; try done.
  injection Hnorm as ->.
  destruct Hreg as (h & ext & (u' & p & [= <-] & _ & Hp & Hh & _)
                    & Hext & Hd & Hx & ->).
  unfold same_domain. rewrite Hp. simpl. rewrite Hh. simpl. rewrite Hext. simpl.
  apply is_empty_false in Hd, Hx. rewrite Hd, Hx. simpl.
  rewrite Hcase. by rewrite String.eqb_refl.
Qed.

Lemma normalized_domain_is_same_domain_witness :
  same_domain Lib.urlparse Lib.tld_extract "Example.CO.UK"
    (with_scheme " Sub.Example.co.uk/about ") = Returned true.
Proof.
  apply (normalized_domain_is_same_domain Lib.urlparse Lib.tld_extract
           " Sub.Example.co.uk/about " "example.co.uk" "Example.CO.UK").
  - vm_compute. reflexivity.
  - vm_compute. reflexivity.
Defined.

(** X6. [same_domain] never raises: when the URL does not parse, or the
    suffix splitter fails, the answer is [False]; and the letter case of
    the domain it is asked about does not matter. *)
Theorem same_domain_total
    (urlparse : string -> outcome ParseResult)
    (tld_extract : string -> outcome ExtractResult)
    (dom url : string) :
  (∃ b, same_domain urlparse tld_extract dom url = Returned b)
  ∧ (urlparse url = Raised →
     same_domain urlparse tld_extract dom url = Returned false)
  ∧ (∀ p, urlparse url = Returned p →
          tld_extract (default "" (hostname p)) = Raised →
          same_domain urlparse tld_extract dom url = Returned false)
  ∧ same_domain urlparse tld_extract (lower dom) url
    = same_domain urlparse tld_extract dom url.
Proof.
  assert (Hlow : ∀ s, lower (lower s) = lower s).
  { induction s as [|c s IH]; simpl; [done|]. rewrite IH. f_equal.
    unfold lower_char. destruct (is_upper c) eqn:Hc; [|by rewrite Hc].
    destruct c as [[] [] [] [] [] [] [] []]; vm_compute in Hc; try done;
      vm_compute; reflexivity. }
  unfold same_domain. split_and!.
  - destruct (urlparse url) as [p|]; simpl; [|by eauto].
    destruct (tld_extract _); simpl; eauto.
  - by intros ->.
  - intros p -> Hext. simpl. by rewrite Hext.
  - by rewrite Hlow.
Qed.

End DomainProps.

(** ** utils.py: the rate limiter used by one caller at a time *)

Module RateProps.
Import Utils RateSpec RateFacts.

Lemma purge_head_fresh now ts t0 rest :
  purge now ts = t0 :: rest → (now - t0 <= 60)%Q.
Proof.
  induction ts as [|t ts IH]; simpl; [done|].
  destruct (older_than_minute now t) eqn:Ht; [done|].
  intros [= -> ->]. apply Qnot_lt_le. intros Hlt.
  apply older_than_minute_true in Hlt. congruence.
Qed.

Lemma acquire_enter_timestamps now rl rl' w :
  acquire_enter now rl = Returned (rl', w) →
  timestamps rl' = purge now (timestamps rl) ∧ per_minute rl' = per_minute rl.
Proof.
  unfold acquire_enter.
  destruct (per_minute rl <=? _)%Z; simpl.
  - destruct (first_ts _); simpl; [|done]. by intros [= <- <-].
  - by intros [= <- <-].
Qed.

(** X7. A caller that [acquire] sends to sleep found the deque filled to
    the budget or beyond; it is asked to sleep for at least a hundredth of
    a second, and for at most 60.01 seconds when no recorded timestamp lies
    in the future.  Entering [acquire] only drops entries from the front of
    the deque, and the entry that the sleep is computed from stays in it.
    (Inequalities only: they hold of the rationals here and are kept by
    the rounding of the floating-point subtraction and sum in the code.) *)
Theorem acquire_sleep_is_bounded (now : Q) (rl rl' : RateLimiter) (wait : Q) :
  acquire_enter now rl = Returned (rl', Some wait) →
  (1 # 100 <= wait)%Q
  ∧ (per_minute rl <= Z.of_nat (length (timestamps rl)))%Z
  ∧ (∃ dropped t0 rest, timestamps rl = (dropped ++ t0 :: rest)%list
                        ∧ timestamps rl' = t0 :: rest)
  ∧ (Forall (fun t => (t <= now)%Q) (timestamps rl) →
     (wait <= 60 + (1 # 100))%Q).
Proof.
  intros Henter.
  destruct (acquire_enter_timestamps _ _ _ _ Henter) as [Hts _].
  unfold acquire_enter in Henter.
  destruct (per_minute rl <=? Z.of_nat (length (purge now (timestamps rl))))%Z
    eqn:Hfull; simpl in Henter; [|done].
  apply Z.leb_le in Hfull.
  destruct (purge now (timestamps rl)) as [|t0 rest] eqn:Hpurge;
    simpl in Henter; [done|].
  injection Henter as _ <-.
  pose proof (purge_head_fresh _ _ _ _ Hpurge) as Hfresh.
  destruct (purge_split now (timestamps rl)) as (dropped & Hsplit & _).
  rewrite Hpurge in Hsplit.
  split; [lra|]. split.
  { rewrite Hsplit, length_app. simpl in *. lia. }
  split; [by exists dropped, t0, rest|].
  intros Hpast. rewrite Hsplit in Hpast.
  apply Forall_app in Hpast as [_ Hpast].
  apply Forall_cons in Hpast as [Ht0 _]. lra.
Qed.

Lemma acquire_sleep_is_bounded_witness :
  ((1 # 100 <= 4001 # 100)%Q ∧ (4001 # 100 <= 60 + (1 # 100))%Q)
  ∧ acquire_enter 30 (acquire_record 10 (RateLimiter_init 1))
    = Returned (acquire_record 10 (RateLimiter_init 1), Some (4001 # 100)).
Proof.
  assert (Henter : acquire_enter 30 (acquire_record 10 (RateLimiter_init 1))
                   = Returned (acquire_record 10 (RateLimiter_init 1),
                               Some (4001 # 100)))
    by (vm_compute; reflexivity).
  destruct (acquire_sleep_is_bounded 30 (acquire_record 10 (RateLimiter_init 1))
              (acquire_record 10 (RateLimiter_init 1)) (4001 # 100) Henter)
    as (Hlow & _ & _ & Hhigh).
  split; [|exact Henter]. split; [exact Hlow|]. apply Hhigh.
  repeat constructor. vm_compute. discriminate.
Defined.

(** Calls made one after the other keep [in_step] and a short deque. *)
Lemma well_timed_run n calls : ∀ clock rl cs,
  (1 <= n)%nat → per_minute rl = Z.of_nat n →
  in_step n clock (timestamps rl) cs →
  (length (timestamps rl) <= n + 1)%nat →
  well_timed clock rl calls →
  ∃ rl' clock',
    acquire_all calls rl = Returned rl'
    ∧ per_minute rl' = Z.of_nat n
    ∧ in_step n clock' (timestamps rl') (cs ++ map snd calls)
    ∧ (length (timestamps rl') <= n + 1)%nat.
Proof.
  induction calls as [|[now fin] calls IH]; intros clock rl cs Hn Hb Hinv Hlen Hw.
  { exists rl, clock. simpl. by rewrite app_nil_r. }
  simpl in Hw. destruct Hw as [Hclock Hw].
  destruct (acquire_enter now rl) as [[rl1 w]|] eqn:Henter; [|done].
  destruct Hw as [Hdone Hrest].
  destruct (acquire_enter_timestamps _ _ _ _ Henter) as [Hts Hp].
  pose proof (acquire_in_step n clock now fin rl rl1 w cs Hn Hb Hinv Hclock
                Henter Hdone) as Hinv'.
  assert (Hlen' : (length (timestamps (acquire_record fin rl1)) <= n + 1)%nat).
  { simpl. rewrite length_app, Hts. simpl.
    destruct Hinv as (_ & _ & _ & Hkept & _).
    pose proof (purge_later clock now (timestamps rl) Hclock). lia. }
  destruct (IH fin (acquire_record fin rl1) (cs ++ [fin])%list) as
    (rl' & clock' & Hrun & Hb' & Hfinal & Hshort);
    [done|simpl; lia|done|done|done|].
  exists rl', clock'. simpl. unfold acquire. rewrite Henter. simpl.
  rewrite Hrun. split; [done|]. split; [done|].
  change (fin :: map snd calls) with ([fin] ++ map snd calls)%list.
  by rewrite app_assoc.
Qed.

(** X8. When the calls to [acquire] come one after the other (each
    starts after the one before returned, and a sleeping caller is woken
    no earlier than asked), every call returns, no window of 60 seconds
    holds more returns than the budget [max 1 per_minute], and the deque
    of timestamps never holds more than one entry above the budget. *)
Theorem sequential_acquire_keeps_rate
    (n : Z) (clock : Q) (calls : list (Q * Q)) :
  well_timed clock (RateLimiter_init n) calls →
  ∃ rl, acquire_all calls (RateLimiter_init n) = Returned rl
        ∧ per_minute rl = Z.max 1 n
        ∧ (∀ t, (Z.of_nat (in_window t (map snd calls)) <= Z.max 1 n)%Z)
        ∧ (Z.of_nat (length (timestamps rl)) <= Z.max 1 n + 1)%Z.
Proof.
  intros Hw.
  destruct (well_timed_run (Z.to_nat (Z.max 1 n)) calls clock
              (RateLimiter_init n) []) as (rl & clock' & Hrun & Hb & Hinv & Hlen);
    [lia|simpl; lia| |simpl; lia|done|].
  { exists []. split; [done|]. split; [done|]. split; [simpl; lia|].
    intros t. unfold in_window. simpl. lia. }
  exists rl. split; [done|]. split; [lia|].
  destruct Hinv as (_ & _ & _ & _ & Hwin). simpl in Hwin.
  split; [|lia]. intros t. specialize (Hwin t). lia.
Qed.

Lemma sequential_acquire_keeps_rate_witness :
  ∃ rl, acquire_all [(0%Q, 0%Q); (1%Q, 6001 # 100)] (RateLimiter_init 1)
        = Returned rl
        ∧ (Z.of_nat (in_window (6001 # 100)
                       (map snd [(0%Q, 0%Q); (1%Q, 6001 # 100)])) <= 1)%Z
        ∧ (Z.of_nat (length (timestamps rl)) <= 2)%Z.
Proof.
  destruct (sequential_acquire_keeps_rate 1 0 [(0%Q, 0%Q); (1%Q, 6001 # 100)])
    as (rl & Hrun & _ & Hwin & Hlen).
  - simpl. split; [lra|]. split; [lra|]. split; [lra|].
    split; [|done]. vm_compute. discriminate.
  - exists rl. split; [exact Hrun|]. split; [exact (Hwin (6001 # 100))|].
    exact Hlen.
Defined.

End RateProps.

(** ** scrape.py: what the crawl fetches, and what it returns *)

Module CrawlProps.
Import PyStr Scrape ScrapeSpec ScrapeFacts CrawlSpec.

Section Crawl.
Variable urlparse : string -> outcome ParseResult.
Variable tld_extract : string -> outcome ExtractResult.
Variable urljoin : string -> string -> outcome string.
Variable find_all_hrefs : string -> outcome (list string).
Variable can_fetch : string -> string -> string -> outcome bool.
Variable http_get : nat -> string -> outcome Utils.Response.
Variable keywords : list string.
Variable target : string.
Variable settings : Settings.

Local Abbreviation step :=
  (crawl_step urlparse tld_extract urljoin find_all_hrefs can_fetch
     http_get keywords target settings).
Local Abbreviation turns :=
  (crawl_turns urlparse tld_extract urljoin find_all_hrefs can_fetch
     http_get keywords target settings).
Local Abbreviation loop :=
  (crawl_loop urlparse tld_extract urljoin find_all_hrefs can_fetch
     http_get keywords target settings).
Local Abbreviation enqueue :=
  (enqueue_candidates urlparse tld_extract keywords target).
Local Abbreviation disallowed :=
  (robots_disallows can_fetch settings).
Local Abbreviation kept := (kept_link urlparse tld_extract keywords target).
Local Abbreviation obeys_robots := (CrawlSpec.obeys_robots can_fetch settings).
Local Abbreviation stays_on_site :=
  (CrawlSpec.stays_on_site urlparse tld_extract keywords target).

Lemma enqueue_candidates_kept seen urls : ∀ q u d,
  (u, d) ∈ fst (enqueue seen urls q) → (u, d) ∈ q ∨ kept u.
Proof.
  induction urls as [|x urls IH]; intros q u d; simpl; [by left|].
  case_bool_decide as Hseen; [by apply IH|].
  destruct (Utils.same_domain _ _ _ _) as [[]|] eqn:Hsame; simpl.
  - destruct (urlparse x) as [parsed|] eqn:Hparse; simpl; [|by left].
    destruct (wanted_path _ _) eqn:Hpath; [|by apply IH].
    intros [[?|[= -> ->]%list_elem_of_singleton]%elem_of_app|?]%IH;
      [by left| |by right].
    right. split; [done|]. by exists parsed.
  - by apply IH.
  - by left.
Qed.

(** What one turn does to the queue, the [seen] set and the log: the head
    of the queue is taken; it is skipped, or fetched in vain, or fetched
    and the links of the page are offered to [enqueue_candidates]. *)
Lemma crawl_step_shape txt st st' :
  step txt st = Some st' →
  ∃ url depth rest,
    q st = (url, depth) :: rest
    ∧ ((fetch_log st' = fetch_log st ∧ q st' = rest ∧ seen st' = seen st)
       ∨ (disallowed txt url = false
          ∧ ∃ ok, fetch_log st' = (fetch_log st ++ [(url, ok)])%list
                  ∧ ((q st' = rest ∧ seen st' = seen st)
                     ∨ ∃ links, q st' = fst (enqueue (seen st) links rest)
                                ∧ seen st' = seen st ∪ list_to_set links))).
Proof.
  unfold crawl_step.
  destruct (q st) as [|[url depth] rest] eqn:Hq; [done|].
  destruct (negb _); [done|]. intros Hstep. exists url, depth, rest.
  split; [done|].
  destruct (depth >? max_depth settings)%Z.
  { injection Hstep as <-. by left. }
  destruct (robots_disallows _ _ _ _) eqn:Hrobots.
  { injection Hstep as <-. by left. }
  right. split; [done|].
  destruct (Utils.fetch_text _ _ _) as [page|]; injection Hstep as <-.
  - exists true. unfold follow_links.
    destruct (mbind _ _) as [links|]; [|by split; [|left]].
    pose proof (enqueue_candidates_returns urlparse tld_extract keywords target
                  (seen st) links rest) as Hret.
    cbn [page_fetched popped seen q].
    destruct (enqueue_candidates _ _ _ _ _ _ _) as [q' r] eqn:Henq.
    simpl in Hret. subst r. cbn. split; [done|]. right. exists links.
    by rewrite Henq.
  - exists false. cbn. split; [done|]. by left.
Qed.

Lemma crawl_turns_ind (P : crawl_state → Prop) txt :
  (∀ st st', step txt st = Some st' → P st → P st') →
  ∀ n st, P st → P (turns n txt st).
Proof.
  intros Hstep. induction n as [|n IH]; intros st Hst; simpl; [done|].
  destruct (crawl_step _ _ _ _ _ _ _ _ _ txt st) as [st'|] eqn:Hs; [|done].
  apply IH. by eapply Hstep.
Qed.

Lemma crawl_loop_turns fuel : ∀ txt st st',
  loop fuel txt st = Some st' → st' = turns fuel txt st.
Proof.
  induction fuel as [|fuel IH]; intros txt st st'; simpl;
    destruct (crawl_step _ _ _ _ _ _ _ _ _ txt st) as [st1|] eqn:Hs;
    try done; try (by intros [= <-]).
  apply IH.
Qed.

Lemma step_obeys_robots txt st st' :
  step txt st = Some st' → obeys_robots txt st → obeys_robots txt st'.
Proof.
  intros (url & depth & rest & Hq & Hcases)%crawl_step_shape Hinv.
  unfold obeys_robots in *.
  destruct Hcases as [(Hlog & _)|(Hok & ok & Hlog & _)]; rewrite Hlog; [done|].
  apply Forall_app. split; [done|]. by apply Forall_singleton.
Qed.

Lemma step_stays_on_site txt st st' :
  step txt st = Some st' → stays_on_site st → stays_on_site st'.
Proof.
  intros (url & depth & rest & Hq & Hcases)%crawl_step_shape [Hqueue Hlog].
  rewrite Hq in Hqueue. apply Forall_cons in Hqueue as [[Hurl _] Hrest].
  simpl in Hurl. unfold stays_on_site.
  destruct Hcases as
    [(Hl & Hq' & _)|(_ & ok & Hl & [[Hq' _]|(links & Hq' & _)])];
    rewrite Hl, Hq'.
  - done.
  - split; [done|]. apply Forall_app. split; [done|]. by apply Forall_singleton.
  - split; [|apply Forall_app; split; [done|by apply Forall_singleton]].
    apply Forall_forall. intros [u d] Hin. simpl.
    rewrite Forall_forall in Hrest.
    destruct (enqueue_candidates_depth _ _ _ _ _ _ _ _ _ Hin) as [Hold|(-> & _)].
    + by apply (Hrest (u, d)).
    + split; [|done].
      destruct (enqueue_candidates_kept _ _ _ _ _ Hin) as [Hold|Hk]; [|done].
      by apply (Hrest (u, 0%Z)).
Qed.

Lemma step_remembers txt st st' :
  step txt st = Some st' → remembers st → remembers st'.
Proof.
  intros (url & depth & rest & Hq & Hcases)%crawl_step_shape [Hqueue Hlog].
  rewrite Hq in Hqueue. apply Forall_cons in Hqueue as [Hurl Hrest].
  simpl in Hurl. unfold remembers.
  destruct Hcases as
    [(Hl & Hq' & Hs)|(_ & ok & Hl & [[Hq' Hs]|(links & Hq' & Hs)])];
    rewrite Hl, Hq', Hs.
  - done.
  - split; [done|]. apply Forall_app. split; [done|]. by apply Forall_singleton.
  - split.
    + apply Forall_forall. intros [u d] Hin. simpl.
      rewrite Forall_forall in Hrest.
      destruct (enqueue_candidates_depth _ _ _ _ _ _ _ _ _ Hin)
        as [Hold|(_ & Hnew & _)].
      * apply elem_of_union. left. by apply (Hrest (u, d)).
      * apply elem_of_union. right. by apply elem_of_list_to_set.
    + apply Forall_app. split.
      * eapply Forall_impl; [exact Hlog|]. simpl.
        intros p Hp. apply elem_of_union. by left.
      * apply Forall_singleton. simpl. apply elem_of_union. by left.
Qed.

Lemma initial_state_invariants txt seeds st0 :
  initial_state urlparse tld_extract keywords target seeds = Returned st0 →
  obeys_robots txt st0 ∧ stays_on_site st0 ∧ remembers st0
  ∧ fetch_log st0 = [].
Proof.
  unfold initial_state.
  destruct (enqueue_candidates _ _ _ _ _ _ _) as [q0 [[]|]] eqn:Henq; [|done].
  intros [= <-]. unfold obeys_robots, stays_on_site, remembers. simpl.
  split_and!; try done.
  - apply Forall_forall. intros [u d] Hin. simpl.
    assert (Hin' : (u, d) ∈ fst (enqueue ∅ seeds [])) by by rewrite Henq.
    destruct (enqueue_candidates_depth _ _ _ _ _ _ _ _ _ Hin')
      as [Hold|(-> & _)]; [by apply elem_of_nil in Hold|].
    split; [|done].
    destruct (enqueue_candidates_kept _ _ _ _ _ Hin') as [Hold|Hk]; [|done].
    by apply elem_of_nil in Hold.
  - apply Forall_forall. intros [u d] Hin. simpl.
    apply elem_of_list_to_set, list_elem_of_fmap. by exists (u, d).
Qed.
End Crawl.

(** X9. The crawl obeys robots.txt.  When robots.txt is served and
    forbids the root URL, nothing is fetched and the result is no address
    and the one note [robots_disallow:root]; otherwise no URL that
    robots.txt forbids to the configured agent is ever fetched.  (A
    robots.txt that cannot be fetched, or answers 404, forbids nothing.) *)
Theorem crawl_obeys_robots
    (urlparse : string -> outcome ParseResult)
    (tld_extract : string -> outcome ExtractResult)
    (urljoin : string -> string -> outcome string)
    (find_all_hrefs : string -> outcome (list string))
    (can_fetch : string -> string -> string -> outcome bool)
    (http_get : nat -> string -> outcome Utils.Response)
    (keywords : list string) (target : string) (settings : Settings)
    (robots_url : string) :
  urljoin (base_url target) "/robots.txt" = Returned robots_url →
  let trace := crawl_trace urlparse tld_extract urljoin find_all_hrefs
                 can_fetch http_get keywords target settings in
  let crawl := crawl_site_for_emails urlparse tld_extract urljoin
                 find_all_hrefs can_fetch http_get keywords target settings in
  (∀ t, Utils.fetch_text (http_get 0%nat) robots_url true = Returned (Some t) →
        can_fetch t (user_agent settings) (base_url target) = Returned false →
        ∀ fuel, crawl fuel = Some (Returned ([], ["robots_disallow:root"]))
                ∧ fetch_log <$> finished (trace fuel) = Some [])
  ∧ (∀ txt fuel st,
       read_robots can_fetch http_get target settings robots_url = inr txt →
       trace fuel = Some (Returned st) →
       Forall (fun p => robots_disallows can_fetch settings txt (fst p) = false)
         (fetch_log st)).
Proof.
  intros Hjoin trace crawl. subst trace crawl.
  unfold crawl_site_for_emails, crawl_trace. rewrite Hjoin. split.
  - intros t Hfetch Hcan fuel. unfold read_robots. rewrite Hfetch, Hcan.
    simpl. by rewrite elements_empty.
  - intros txt fuel st ->.
    destruct (mbind _ _) as [st0|] eqn:Hinit; [|done].
    destruct (seed_urls _ _ _) as [seeds|]; [|done]. simpl in Hinit.
    destruct (initial_state_invariants urlparse tld_extract can_fetch keywords
                target settings txt _ _ Hinit) as (Hrobots & _).
    destruct (crawl_loop _ _ _ _ _ _ _ _ _ fuel txt st0) as [st'|] eqn:Hloop;
      [|done].
    intros [= <-]. apply crawl_loop_turns in Hloop as ->.
    apply (crawl_turns_ind urlparse tld_extract urljoin find_all_hrefs can_fetch
             http_get keywords target settings
             (obeys_robots can_fetch settings txt)); [|done].
    apply step_obeys_robots.
Qed.

Lemma crawl_obeys_robots_witness :
  crawl_site_for_emails Lib.urlparse Lib.tld_extract Lib.urljoin
    Lib.find_all_hrefs forbid_all (Lib.serve guarded_site) KEYWORDS
    "example.com" (settings_of 15 2) 5
  = Some (Returned ([], ["robots_disallow:root"])).
Proof.
  apply (crawl_obeys_robots Lib.urlparse Lib.tld_extract Lib.urljoin
           Lib.find_all_hrefs forbid_all (Lib.serve guarded_site) KEYWORDS
           "example.com" (settings_of 15 2) "https://example.com/robots.txt")
    with (t := "User-agent: * Disallow: /").
  - vm_compute. reflexivity.
  - vm_compute. reflexivity.
  - reflexivity.
Defined.

(** X10. At every moment of the crawl, each URL that is queued or has
    been fetched is on the registrable domain of the target and has a
    path that holds one of the keywords or is the root path: an
    off-domain link is never followed. *)
Theorem crawl_stays_on_target
    (urlparse : string -> outcome ParseResult)
    (tld_extract : string -> outcome ExtractResult)
    (urljoin : string -> string -> outcome string)
    (find_all_hrefs : string -> outcome (list string))
    (can_fetch : string -> string -> string -> outcome bool)
    (http_get : nat -> string -> outcome Utils.Response)
    (keywords : list string) (target : string) (settings : Settings)
    (seeds : list string) (st0 : crawl_state) (txt : robots_txt) (n : nat) :
  initial_state urlparse tld_extract keywords target seeds = Returned st0 →
  let st := crawl_turns urlparse tld_extract urljoin find_all_hrefs can_fetch
              http_get keywords target settings n txt st0 in
  Forall (fun p => kept_link urlparse tld_extract keywords target (fst p)) (q st)
  ∧ Forall (fun p => kept_link urlparse tld_extract keywords target (fst p))
      (fetch_log st).
Proof.
  intros Hinit st. subst st.
  destruct (initial_state_invariants urlparse tld_extract can_fetch keywords
              target settings txt _ _ Hinit) as (_ & Hsite & _).
  destruct (crawl_turns_ind urlparse tld_extract urljoin find_all_hrefs can_fetch
              http_get keywords target settings
              (stays_on_site urlparse tld_extract keywords target) txt
              (step_stays_on_site _ _ _ _ _ _ _ _ _ txt) n st0 Hsite)
    as [Hq Hlog].
  split; [|done]. eapply Forall_impl; [exact Hq|]. by intros p [? _].
Qed.

Lemma crawl_stays_on_target_witness :
  match start_example with
  | Returned st0 =>
      Forall (fun p => kept_link Lib.urlparse Lib.tld_extract KEYWORDS
                         "example.com" (fst p))
        (fetch_log (turns_example chain_site (settings_of 15 2) 12 st0))
  | Raised => True
  end.
Proof.
  unfold start_example.
  destruct (seed_urls Lib.urljoin "example.com" KEYWORDS) as [seeds|];
    [|exact I]. simpl.
  destruct (initial_state Lib.urlparse Lib.tld_extract KEYWORDS "example.com"
              (base_url "example.com" :: seeds)) as [st0|] eqn:Hinit; [|exact I].
  exact (proj2 (crawl_stays_on_target Lib.urlparse Lib.tld_extract Lib.urljoin
                  Lib.find_all_hrefs Lib.can_fetch (Lib.serve chain_site)
                  KEYWORDS "example.com" (settings_of 15 2) _ st0 TxtNone 12
                  Hinit)).
Defined.

(** X11. At every moment of the crawl, the URLs that are queued or have
    been fetched are in [seen]; so whatever links a later page offers, a
    URL already queued or fetched is not appended to the queue again. *)
Theorem crawl_remembers_urls
    (urlparse : string -> outcome ParseResult)
    (tld_extract : string -> outcome ExtractResult)
    (urljoin : string -> string -> outcome string)
    (find_all_hrefs : string -> outcome (list string))
    (can_fetch : string -> string -> string -> outcome bool)
    (http_get : nat -> string -> outcome Utils.Response)
    (keywords : list string) (target : string) (settings : Settings)
    (seeds : list string) (st0 : crawl_state) (txt : robots_txt) (n : nat) :
  initial_state urlparse tld_extract keywords target seeds = Returned st0 →
  let st := crawl_turns urlparse tld_extract urljoin find_all_hrefs can_fetch
              http_get keywords target settings n txt st0 in
  Forall (fun p => fst p ∈ seen st) (q st)
  ∧ Forall (fun p => fst p ∈ seen st) (fetch_log st)
  ∧ (∀ links queue u d,
       u ∈ (fst <$> q st) ∨ u ∈ (fst <$> fetch_log st) →
       (u, d) ∈ fst (enqueue_candidates urlparse tld_extract keywords target
                       (seen st) links queue) →
       (u, d) ∈ queue).
Proof.
  intros Hinit st. subst st.
  destruct (initial_state_invariants urlparse tld_extract can_fetch keywords
              target settings txt _ _ Hinit) as (_ & _ & Hseen & _).
  destruct (crawl_turns_ind urlparse tld_extract urljoin find_all_hrefs can_fetch
              http_get keywords target settings remembers txt
              (step_remembers _ _ _ _ _ _ _ _ _ txt) n st0 Hseen)
    as [Hq Hlog].
  split; [done|]. split; [done|].
  intros links queue u d Hknown. apply enqueue_candidates_skips_seen.
  rewrite Forall_forall in Hq. rewrite Forall_forall in Hlog.
  destruct Hknown as [(p & -> & Hp)%list_elem_of_fmap
                     |(p & -> & Hp)%list_elem_of_fmap]; auto.
Qed.

Lemma crawl_remembers_urls_witness :
  match start_example with
  | Returned st0 =>
      Forall (fun p => fst p ∈ seen (turns_example chain_site (settings_of 15 2) 12 st0))
        (fetch_log (turns_example chain_site (settings_of 15 2) 12 st0))
  | Raised => True
  end.
Proof.
  unfold start_example.
  destruct (seed_urls Lib.urljoin "example.com" KEYWORDS) as [seeds|];
    [|exact I]. simpl.
  destruct (initial_state Lib.urlparse Lib.tld_extract KEYWORDS "example.com"
              (base_url "example.com" :: seeds)) as [st0|] eqn:Hinit; [|exact I].
  exact (proj1 (proj2 (crawl_remembers_urls Lib.urlparse Lib.tld_extract
                         Lib.urljoin Lib.find_all_hrefs Lib.can_fetch
                         (Lib.serve chain_site) KEYWORDS "example.com"
                         (settings_of 15 2) _ st0 TxtNone 12 Hinit))).
Defined.

(** X12. The addresses that a crawl returns are sorted and hold no
    address twice. *)
Theorem crawl_result_sorted
    (urlparse : string -> outcome ParseResult)
    (tld_extract : string -> outcome ExtractResult)
    (urljoin : string -> string -> outcome string)
    (find_all_hrefs : string -> outcome (list string))
    (can_fetch : string -> string -> string -> outcome bool)
    (http_get : nat -> string -> outcome Utils.Response)
    (keywords : list string) (target : string) (settings : Settings)
    (fuel : nat) (found notes : list string) :
  crawl_site_for_emails urlparse tld_extract urljoin find_all_hrefs can_fetch
    http_get keywords target settings fuel = Some (Returned (found, notes)) →
  Sorted PyStr.le found ∧ NoDup found.
Proof.
  unfold crawl_site_for_emails.
  destruct (crawl_trace _ _ _ _ _ _ _ _ _ fuel) as [[st|]|]; try done.
  intros [= <- _]. split.
  - apply ExtractFacts.sorted_Sorted.
  - rewrite ExtractFacts.sorted_perm. apply NoDup_elements.
Qed.

Lemma crawl_result_sorted_witness :
  match crawl_site_for_emails Lib.urlparse Lib.tld_extract Lib.urljoin
          Lib.find_all_hrefs Lib.can_fetch (Lib.serve chain_site) KEYWORDS
          "example.com" (settings_of 15 2) 30 with
  | Some (Returned (found, _)) => NoDup found
  | _ => True
  end.
Proof.
  destruct (crawl_site_for_emails Lib.urlparse Lib.tld_extract Lib.urljoin
              Lib.find_all_hrefs Lib.can_fetch (Lib.serve chain_site) KEYWORDS
              "example.com" (settings_of 15 2) 30)
    as [[[found notes]|]|] eqn:Hrun; [|exact I|exact I].
  exact (proj2 (crawl_result_sorted _ _ _ _ _ _ _ _ _ _ _ _ Hrun)).
Defined.

End CrawlProps.

(** ** extract.py: what an extracted address looks like *)

Module ExtractProps.
Import PyStr Extract ExtractFacts TextSpec.

Lemma every_app p s1 s2 : every p (s1 ++ s2) = every p s1 && every p s2.
Proof.
  induction s1 as [|c s1 IH]; simpl; [done|]. rewrite IH. by destruct (p c).
Qed.

Lemma every_impl (p1 p2 : ascii → bool) s :
  (∀ c, p1 c = true → p2 c = true) → every p1 s = true → every p2 s = true.
Proof.
  intros Himp. induction s as [|c s IH]; simpl; [done|].
  intros [Hc Hs]%andb_prop. by rewrite (Himp c Hc), IH.
Qed.

Lemma every_not_mem p s c :
  every p s = true → p c = false → mem_char c s = false.
Proof.
  intros Hs Hc. induction s as [|d s IH]; simpl in *; [done|].
  apply andb_prop in Hs as [Hd Hs]. rewrite (IH Hs).
  destruct (Ascii.eqb c d) eqn:Heq; [|done].
  apply Ascii.eqb_eq in Heq as ->. congruence.
Qed.

Lemma atext_addr c : is_atext c = true → addr_char c = true.
Proof. unfold addr_char. by intros ->. Qed.

Lemma alnum_atext c : is_alnum c = true → is_atext c = true.
Proof. unfold is_atext. by intros ->. Qed.

Lemma label_char_addr c : is_label_char c = true → addr_char c = true.
Proof.
  unfold is_label_char. intros [H|H]%orb_prop.
  - by apply atext_addr, alnum_atext.
  - apply Ascii.eqb_eq in H as ->. reflexivity.
Qed.

Lemma scan_atoms_chars n : ∀ s,
  (String.length s <= n)%nat → every addr_char (fst (scan_atoms s)) = true.
Proof.
  induction n as [|n IH]; intros [|c s] Hn; simpl in *; try done; try lia.
  destruct (is_atext c) eqn:Hc.
  { specialize (IH s ltac:(lia)). destruct (scan_atoms s). simpl in *.
    by rewrite (atext_addr c Hc). }
  destruct (Ascii.eqb c ".") eqn:Hdot; [|done].
  destruct s as [|d s]; [done|].
  destruct (is_atext d) eqn:Hd; [|done].
  specialize (IH s ltac:(simpl in Hn; lia)). destruct (scan_atoms s).
  simpl in *. rewrite (atext_addr d Hd), IH.
  unfold addr_char. by rewrite Hdot, orb_true_r.
Qed.

Lemma span_chars p s : every p (fst (span p s)) = true.
Proof.
  induction s as [|c s IH]; simpl; [done|].
  destruct (p c) eqn:Hc; [|done]. destruct (span p s). simpl in *.
  by rewrite Hc.
Qed.

Lemma rstrip_by_chars p strip_p s :
  every p s = true → every p (rstrip_by strip_p s) = true.
Proof.
  induction s as [|c s IH]; simpl; [done|].
  intros [Hc Hs]%andb_prop.
  destruct (is_empty _ && strip_p c); simpl; [done|]. by rewrite Hc, IH.
Qed.

Lemma lstrip_by_chars p strip_p s :
  every p s = true → every p (lstrip_by strip_p s) = true.
Proof.
  induction s as [|c s IH]; simpl; [done|].
  intros [Hc Hs]%andb_prop.
  destruct (strip_p c); [by apply IH|]. simpl. by rewrite Hc.
Qed.

Lemma match_label_chars s l r :
  match_label s = Some (l, r) → every addr_char l = true.
Proof.
  destruct s as [|c s]; [done|]. simpl.
  destruct (is_alnum c) eqn:Hc; [|done].
  pose proof (span_chars is_label_char s) as Hrun.
  destruct (span is_label_char s) as [run rest]. simpl in Hrun.
  intros [= <- _]. simpl.
  rewrite (atext_addr c (alnum_atext c Hc)). simpl.
  apply rstrip_by_chars. revert Hrun. apply every_impl, label_char_addr.
Qed.

Lemma match_dot_labels_chars fuel : ∀ s,
  every addr_char (fst (match_dot_labels fuel s)) = true.
Proof.
  induction fuel as [|fuel IH]; intros s; simpl; [done|].
  destruct s as [|c s]; [done|].
  destruct (Ascii.eqb c ".") eqn:Hdot; [|done].
  destruct (match_label s) as [[l r]|] eqn:Hl; [|done].
  apply match_label_chars in Hl. specialize (IH r).
  destruct (match_dot_labels fuel r) as [m r']. cbn [fst every] in *.
  rewrite every_app, Hl, IH. unfold addr_char. by rewrite Hdot, orb_true_r.
Qed.

Lemma mem_char_app c s1 s2 :
  mem_char c (s1 ++ s2) = mem_char c s1 || mem_char c s2.
Proof.
  induction s1 as [|d s1 IH]; simpl; [done|]. rewrite IH.
  by destruct (Ascii.eqb c d).
Qed.

(** A match of the pattern holds address characters only, and an at
    sign. *)
Lemma match_at_chars s m r :
  match_at s = Some (m, r) →
  every addr_char m = true ∧ mem_char "@" m = true.
Proof.
  unfold match_at, match_local. destruct s as [|c s]; [done|].
  destruct (is_atext c) eqn:Hc; [|done].
  pose proof (scan_atoms_chars (String.length s) s ltac:(lia)) as Hloc.
  destruct (scan_atoms s) as [loc rest]. simpl in Hloc.
  destruct rest as [|a rest]; [done|].
  destruct (Ascii.eqb a "@") eqn:Ha; [|done].
  apply Ascii.eqb_eq in Ha as ->.
  unfold match_host.
  destruct (match_label rest) as [[l0 r0]|] eqn:Hl; [|done].
  apply match_label_chars in Hl.
  pose proof (match_dot_labels_chars (String.length r0) r0) as Hdots.
  destruct (match_dot_labels (String.length r0) r0) as [dots r1].
  destruct (is_empty dots); [done|].
  intros [= <- _]. cbn [fst] in *.
  assert (Hat : addr_char "@" = true) by reflexivity. split.
  - rewrite every_app. cbn [every].
    by rewrite (atext_addr c Hc), Hloc, Hat, every_app, Hl, Hdots.
  - rewrite mem_char_app. cbn [mem_char]. rewrite Ascii.eqb_refl.
    by rewrite orb_true_r.
Qed.

Lemma finditer_fuel_chars fuel : ∀ s,
  Forall (fun m => every addr_char m = true ∧ mem_char "@" m = true)
    (finditer_fuel fuel s).
Proof.
  induction fuel as [|fuel IH]; intros s; simpl; [constructor|].
  destruct (match_at s) as [[m r]|] eqn:Hm.
  - constructor; [by eapply match_at_chars|apply IH].
  - destruct s as [|c s]; [constructor|apply IH].
Qed.

(** Stripping characters other than [c] keeps [c]. *)
Lemma lstrip_by_mem p c s :
  p c = false → mem_char c (lstrip_by p s) = mem_char c s.
Proof.
  intros Hc. induction s as [|d s IH]; simpl; [done|].
  destruct (p d) eqn:Hd; [|done]. rewrite IH.
  destruct (Ascii.eqb c d) eqn:Heq; [|done].
  apply Ascii.eqb_eq in Heq as ->. congruence.
Qed.

Lemma rstrip_by_mem p c s :
  p c = false → mem_char c (rstrip_by p s) = mem_char c s.
Proof.
  intros Hc. induction s as [|d s IH]; simpl; [done|].
  destruct (is_empty (rstrip_by p s)) eqn:He; simpl.
  - destruct (p d) eqn:Hd; simpl.
    + rewrite <- IH. destruct (rstrip_by p s); [|done]. simpl.
      destruct (Ascii.eqb c d) eqn:Heq; [|done].
      apply Ascii.eqb_eq in Heq as ->. congruence.
    + by rewrite IH.
  - by rewrite IH.
Qed.

(** Without a character to strip, nothing is stripped. *)
Lemma strip_by_none p s :
  every (fun c => negb (p c)) s = true → strip_by p s = s.
Proof.
  intros Hs. unfold strip_by.
  assert (Hl : lstrip_by p s = s).
  { destruct s as [|c s]; [done|]. simpl in *.
    apply andb_prop in Hs as [Hc _]. by destruct (p c). }
  rewrite Hl. induction s as [|c s IH]; simpl in *; [done|].
  apply andb_prop in Hs as [Hc Hs].
  assert (Hl' : lstrip_by p s = s).
  { destruct s as [|d s']; [done|]. simpl in *.
    apply andb_prop in Hs as [Hd _]. by destruct (p d). }
  rewrite (IH Hs Hl'). destruct (p c); [done|]. by rewrite andb_false_r.
Qed.

Lemma prefix_mem pat s c :
  String.prefix pat s = true → mem_char c pat = true → mem_char c s = true.
Proof.
  revert s. induction pat as [|a pat IH]; intros s Hpre Hc; [done|].
  destruct s as [|b s]; [done|]. cbn [String.prefix mem_char] in *.
  destruct (ascii_dec a b) as [->|]; [|done].
  destruct (Ascii.eqb c b); [done|]. cbn [orb] in *. by apply IH.
Qed.

Lemma remove_all_fuel_none pat c fuel : ∀ s,
  mem_char c pat = true → mem_char c s = false →
  remove_all_fuel fuel pat s = s.
Proof.
  induction fuel as [|fuel IH]; intros s Hpat Hs; [done|].
  destruct s as [|d s]; [done|]. cbn [remove_all_fuel].
  destruct (String.prefix pat (String d s)) eqn:Hpre.
  { rewrite (prefix_mem _ _ c Hpre Hpat) in Hs. done. }
  f_equal. apply IH; [done|]. simpl in Hs.
  by apply orb_false_elim in Hs as [_ ?].
Qed.

Lemma addr_char_plain c :
  addr_char c = true → is_space c = false ∧ Ascii.eqb c ":" = false.
Proof.
  destruct c as [[] [] [] [] [] [] [] []]; vm_compute; intros H;
    try discriminate H; by split.
Qed.

(** On an address, the [mailto:] removal and the final [strip] change
    nothing. *)
Lemma cleanup_is_identity e :
  every addr_char e = true → strip (remove_all "mailto:" e) = e.
Proof.
  intros He. unfold remove_all.
  rewrite (remove_all_fuel_none "mailto:" ":"); [|done|].
  - apply strip_by_none. revert He. apply every_impl.
    intros c Hc. destruct (addr_char_plain c Hc) as [-> _]. done.
  - apply (every_not_mem addr_char); [done|reflexivity].
Qed.

Lemma candidates_chars html e :
  e ∈ candidates html →
  every addr_char e = true ∧ mem_char "@" e = true
  ∧ ∃ m, m ∈ finditer html ∧ e = strip_chars ".,;:" m.
Proof.
  unfold candidates. intros Hin%elem_of_list_to_set.
  apply list_elem_of_In, List.in_map_iff in Hin as (m & <- & Hm).
  apply list_elem_of_In in Hm.
  pose proof (finditer_fuel_chars (S (String.length html)) html) as Hall.
  rewrite Forall_forall in Hall. destruct (Hall m Hm) as [Hchars Hat].
  split_and!; [| |by exists m].
  - unfold strip_chars, strip_by. by apply rstrip_by_chars, lstrip_by_chars.
  - unfold strip_chars, strip_by.
    by rewrite rstrip_by_mem, lstrip_by_mem.
Qed.

Lemma elem_of_filtered html e :
  e ∈ filtered html ↔ e ∈ candidates html ∧ is_image e = false.
Proof.
  unfold filtered. rewrite elem_of_map. split.
  - intros (x & -> & [Himg Hx]%elem_of_filter).
    destruct (candidates_chars html x Hx) as (Hchars & _).
    by rewrite (cleanup_is_identity x Hchars).
  - intros [He Himg]. exists e.
    destruct (candidates_chars html e He) as (Hchars & _).
    rewrite (cleanup_is_identity e Hchars). split; [done|].
    by apply elem_of_filter.
Qed.

Lemma elem_of_extract html dom e :
  e ∈ extract_emails_from_html html dom ↔ e ∈ filtered html.
Proof.
  unfold extract_emails_from_html.
  destruct dom as [d|]; [destruct (is_empty d)|];
    try (by rewrite sorted_perm, elem_of_elements).
  rewrite biased_split, elem_of_app, !sorted_perm.
  rewrite !list_elem_of_In, !List.filter_In, <- !list_elem_of_In, elem_of_elements.
  destruct (on_domain d e); simpl; intuition congruence.
Qed.

(** X13. On ASCII text, whatever the page and the bias domain, every
    address that [extract_emails_from_html] returns is a match of the
    pattern with surrounding punctuation stripped; it holds an at sign,
    is made of the characters of the pattern only (no whitespace, no
    colon, so the [mailto:] removal never alters a match) and does not end
    in an image file extension, in any letter case. *)
Theorem extracted_addresses_are_clean (html : string) (dom : option string) :
  ascii_text html →
  (∀ d, dom = Some d → ascii_text d) →
  Forall (fun e =>
            mem_char "@" e = true
            ∧ every addr_char e = true
            ∧ is_image e = false
            ∧ ∃ m, m ∈ finditer html ∧ e = strip_chars ".,;:" m)
    (extract_emails_from_html html dom).
Proof.
  intros _ _.
  apply Forall_forall. intros e [Hcand Himg]%elem_of_extract%elem_of_filtered.
  destruct (candidates_chars html e Hcand) as (Hchars & Hat & Hm). done.
Qed.

Lemma extracted_addresses_are_clean_witness :
  extract_emails_from_html contact_page (Some "example.com")
  = ["Jane.Doe@Example.com"; "jobs@example.org"]
  ∧ Forall (fun e =>
              mem_char "@" e = true
              ∧ every addr_char e = true
              ∧ is_image e = false
              ∧ ∃ m, m ∈ finditer contact_page ∧ e = strip_chars ".,;:" m)
      (extract_emails_from_html contact_page (Some "example.com")).
Proof.
  split; [vm_compute; reflexivity|].
  apply (extracted_addresses_are_clean contact_page (Some "example.com")).
  - vm_compute. reflexivity.
  - intros d [= <-]. vm_compute. reflexivity.
Defined.

End ExtractProps.

(** ** io.py: the files written at the end and at a checkpoint *)

Module OutputProps.
Import Output OutputSpec.

Lemma lookup_dedup_set d k r k' :
  lookup (dedup_set d k r) k' = if decide (k' = k) then Some r else lookup d k'.
Proof.
  induction d as [|[k0 v0] d IH]; cbn [dedup_set lookup]; [done|].
  destruct (decide (k = k0)) as [->|Hk]; cbn [lookup].
  - by destruct (decide (k' = k0)).
  - rewrite IH. destruct (decide (k' = k0)) as [->|]; [|done].
    by rewrite decide_False.
Qed.

Lemma dedup_set_keys d k r :
  (dedup_set d k r).*1
  = if decide (k ∈ d.*1) then d.*1 else (d.*1 ++ [k])%list.
Proof.
  induction d as [|[k0 v0] d IH]; cbn [dedup_set].
  { rewrite decide_False; [done|]. csimpl. by intros ?%elem_of_nil. }
  destruct (decide (k = k0)) as [->|Hk]; csimpl.
  - rewrite decide_True; [done|by left].
  - rewrite IH. destruct (decide (k ∈ d.*1)) as [Hin|Hin].
    + rewrite decide_True; [done|by right].
    + rewrite decide_False; [done|]. by intros [?|?]%elem_of_cons.
Qed.

Lemma dedup_set_fresh d k r :
  k ∉ d.*1 → dedup_set d k r = (d ++ [(k, r)])%list.
Proof.
  induction d as [|[k0 v0] d IH]; cbn [dedup_set]; [done|].
  csimpl. intros Hin. rewrite decide_False.
  - rewrite IH; [done|]. intros ?. apply Hin. by right.
  - intros ->. apply Hin. by left.
Qed.

Lemma dedup_key_snoc rows r :
  dedup_key (rows ++ [r]) = dedup_set (dedup_key rows) (row_key r) r.
Proof. unfold dedup_key. by rewrite fold_left_app. Qed.

Lemma dedup_key_nodup rows : NoDup (dedup_key rows).*1.
Proof.
  induction rows as [|r rows IH] using rev_ind.
  { constructor. }
  rewrite dedup_key_snoc, dedup_set_keys.
  destruct (decide _) as [Hin|Hin]; [done|].
  apply NoDup_app. split; [done|]. split.
  - intros k Hk Hk'. apply list_elem_of_singleton in Hk' as ->. done.
  - apply NoDup_singleton.
Qed.

Lemma filter_snoc {A} (f : A → bool) l x :
  List.filter f (l ++ [x]) = (List.filter f l ++ if f x then [x] else [])%list.
Proof. by rewrite List.filter_app. Qed.

Lemma lookup_dedup_key rows k :
  lookup (dedup_key rows) k = last_with_key rows k.
Proof.
  unfold last_with_key.
  induction rows as [|r rows IH] using rev_ind; [done|].
  rewrite dedup_key_snoc, lookup_dedup_set, IH, filter_snoc.
  destruct (decide (k = row_key r)) as [->|Hk].
  - assert (Hw : with_key (row_key r) r = true)
      by by apply bool_decide_eq_true.
    rewrite Hw. by rewrite last_snoc.
  - assert (Hw : with_key k r = false)
      by by apply bool_decide_eq_false.
    rewrite Hw. by rewrite app_nil_r.
Qed.

Lemma lookup_elem d k v :
  NoDup d.*1 → (k, v) ∈ d ↔ lookup d k = Some v.
Proof.
  induction d as [|[k0 v0] d IH]; csimpl; intros Hnd.
  { split; [by intros ?%elem_of_nil|done]. }
  apply NoDup_cons in Hnd as [Hk0 Hnd]. rewrite elem_of_cons, (IH Hnd).
  destruct (decide (k = k0)) as [->|Hk].
  - split.
    + intros [[= ->]|Hin]; [done|]. exfalso. apply Hk0.
      apply (IH Hnd) in Hin. apply list_elem_of_fmap. by exists (k0, v).
    + intros [= ->]. by left.
  - split; [|by right]. intros [[= -> ->]|?]; done.
Qed.

Lemma last_filter_key rows k r :
  last_with_key rows k = Some r → r ∈ rows ∧ row_key r = k.
Proof.
  unfold last_with_key. intros Hl%last_Some_elem_of.
  apply list_elem_of_In, List.filter_In in Hl as [Hin Hk].
  split; [by apply list_elem_of_In|]. unfold with_key in Hk.
  by apply bool_decide_eq_true in Hk.
Qed.

Lemma json_data_elem rows r :
  r ∈ json_data rows ↔ last_with_key rows (row_key r) = Some r.
Proof.
  unfold json_data. rewrite <- lookup_dedup_key. split.
  - intros ([k v] & -> & Hin)%list_elem_of_fmap. simpl.
    apply lookup_elem in Hin; [|apply dedup_key_nodup].
    pose proof Hin as Hl. rewrite lookup_dedup_key in Hl.
    apply last_filter_key in Hl as [_ ->]. done.
  - intros Hl. apply lookup_elem in Hl; [|apply dedup_key_nodup].
    apply list_elem_of_fmap. by exists (row_key r, r).
Qed.

Lemma dedup_key_keys_rows rows :
  (dedup_key rows).*1 = row_key <$> json_data rows.
Proof.
  unfold json_data. rewrite <- list_fmap_compose.
  apply list_fmap_ext. intros i [k v] Hin%list_elem_of_lookup_2.
  simpl. apply lookup_elem in Hin; [|apply dedup_key_nodup].
  rewrite lookup_dedup_key in Hin. by apply last_filter_key in Hin as [_ ->].
Qed.

Lemma dedup_key_distinct rows :
  NoDup (row_key <$> rows) → dedup_key rows = (λ r, (row_key r, r)) <$> rows.
Proof.
  induction rows as [|r rows IH] using rev_ind; [done|].
  rewrite fmap_app. intros (Hnd & Hr & _)%NoDup_app.
  rewrite dedup_key_snoc, (IH Hnd), fmap_app. csimpl.
  apply dedup_set_fresh. rewrite <- list_fmap_compose.
  intros Hin. apply (Hr (row_key r)); [done|]. by left.
Qed.

(** X14. The final call of [write_outputs] writes every row to the output
    CSV, duplicates included, and to the JSON file one row for each
    (company name, domain) pair: the last row with that pair.  No pair of
    the input is lost, the JSON file never holds more rows than the CSV,
    and when no two rows share a pair it holds the rows as they are, in
    order.  A checkpoint call writes the rows to the checkpoint CSV and
    no JSON file. *)
Theorem json_keeps_last_row_per_key (rows : list ResultRow)
    (out_csv out_json checkpoint_csv : string) :
  let final := write_outputs rows out_csv out_json checkpoint_csv false in
  let partial := write_outputs rows out_csv out_json checkpoint_csv true in
  (csv_path final = out_csv ∧ csv_rows final = rows)
  ∧ (∃ js, json_file final = Some (out_json, js)
       ∧ NoDup (row_key <$> js)
       ∧ (∀ r, r ∈ js ↔ last_with_key rows (row_key r) = Some r)
       ∧ (∀ r, r ∈ rows → ∃ r', r' ∈ js ∧ row_key r' = row_key r)
       ∧ (length js ≤ length rows)%nat
       ∧ (NoDup (row_key <$> rows) → js = rows))
  ∧ (csv_path partial = checkpoint_csv ∧ csv_rows partial = rows
     ∧ json_file partial = None).
Proof.
  cbn zeta. split; [done|]. split; [|done].
  exists (json_data rows). split; [done|]. split.
  { rewrite <- dedup_key_keys_rows. apply dedup_key_nodup. }
  split; [apply json_data_elem|]. split.
  { intros r Hin.
    assert (Hne : List.filter (with_key (row_key r)) rows ≠ []).
    { intros Hnil.
      assert (Hr : r ∈ List.filter (with_key (row_key r)) rows).
      { apply list_elem_of_In, List.filter_In. split; [by apply list_elem_of_In|].
        unfold with_key. by apply bool_decide_eq_true. }
      rewrite Hnil in Hr. by apply elem_of_nil in Hr. }
    destruct (last_with_key rows (row_key r)) as [r'|] eqn:Hl.
    - pose proof Hl as [_ Hk]%last_filter_key. exists r'. split; [|done].
      apply json_data_elem. by rewrite Hk.
    - unfold last_with_key in Hl. by apply last_None in Hl. }
  split.
  { unfold json_data. rewrite length_fmap.
    assert (Hlen : length (dedup_key rows).*1 = length (dedup_key rows))
      by apply length_fmap.
    rewrite <- Hlen. clear Hlen.
    induction rows as [|r rows IH] using rev_ind; [done|].
    rewrite dedup_key_snoc, dedup_set_keys, length_app. simpl.
    destruct (decide _); [lia|]. rewrite length_app. simpl. lia. }
  intros Hnd. unfold json_data. rewrite (dedup_key_distinct _ Hnd).
  rewrite <- list_fmap_compose. apply list_fmap_id.
Qed.

End OutputProps.

(** ** io.py: which input column fills which field *)

Module InputCsvProps.
Import PyStr InputCsv InputCsvSpec NormalizeFacts.

Lemma cols_snoc columns c :
  cols (columns ++ [c]) = Dict.set (cols columns) (strip (lower c)) c.
Proof. unfold cols. by rewrite fold_left_app. Qed.

Lemma get_cols columns a :
  Dict.get (cols columns) a = last_named columns a.
Proof.
  unfold last_named.
  induction columns as [|c columns IH] using rev_ind; [done|].
  rewrite cols_snoc, EvidenceProps.get_set, IH, List.filter_app.
  cbn [List.filter].
  assert (Hn : named a c = String.eqb a (strip (lower c)))
    by apply String.eqb_sym.
  rewrite Hn. destruct (String.eqb a (strip (lower c))).
  - by rewrite last_snoc.
  - by rewrite app_nil_r.
Qed.

Lemma last_named_header columns a c :
  last_named columns a = Some c → c ∈ columns ∧ strip (lower c) = a.
Proof.
  unfold last_named. intros Hl%last_Some_elem_of.
  apply list_elem_of_In, List.filter_In in Hl as [Hin Hn].
  split; [by apply list_elem_of_In|]. by apply String.eqb_eq.
Qed.

Lemma last_named_truthy columns a c :
  a ≠ "" → last_named columns a = Some c → is_empty c = false.
Proof.
  intros Ha [_ Hc]%last_named_header. destruct c; [|done].
  by rewrite <- Hc in Ha.
Qed.

Lemma py_or_last_named columns a rest :
  a ≠ "" →
  or_else (last_named columns a) rest
  = match last_named columns a with Some c => Some c | None => rest end.
Proof.
  intros Ha. unfold or_else.
  destruct (last_named columns a) as [c|] eqn:Hc; [|done].
  by rewrite (last_named_truthy _ _ _ Ha Hc).
Qed.

Ltac by_alias columns a :=
  let c := fresh "c" in
  let H := fresh "H" in
  let Hc := fresh "Hc" in
  destruct (last_named columns a) as [c|] eqn:H;
  [assert (Hc : is_empty c = false)
     by (by apply (last_named_truthy columns a c))|].

Ltac settle :=
  unfold or_else; cbn [Dict.get Dict.set head]; simpl (String.eqb _ _);
  cbn iota;
  repeat match goal with
         | Hc : is_empty _ = false |- _ => progress (rewrite ?Hc; cbn iota)
         end;
  try done.

Lemma source_of_column columns :
  Forall (λ ka, source_column columns ka.1 = chosen columns ka.2) ALIASES.
Proof.
  unfold ALIASES, source_column, mapped, chosen. cbn zeta.
  repeat apply Forall_cons_2; [| | | | |apply Forall_nil_2]; cbn [fst snd];
    rewrite !EvidenceProps.get_set; simpl (String.eqb _ _); rewrite !get_cols;
    cbn [omap list_omap].
  - by_alias columns "company_name"; [by settle|].
    by_alias columns "company"; [by settle|].
    by_alias columns "name"; by settle.
  - by_alias columns "website"; [by settle|].
    by_alias columns "url"; [by settle|].
    by_alias columns "domain"; by settle.
  - by_alias columns "linkedin"; [by settle|].
    by_alias columns "linkedin_url"; by settle.
  - by_alias columns "founder_name"; [by settle|].
    by_alias columns "founder"; by settle.
  - by_alias columns "country"; [by settle|].
    by_alias columns "location"; by settle.
Qed.

Lemma chosen_header columns aliases c :
  chosen columns aliases = Some c →
  ∃ a, a ∈ aliases ∧ c ∈ columns ∧ strip (lower c) = a.
Proof.
  unfold chosen. intros Hh%head_Some_elem_of.
  apply list_elem_of_omap in Hh as (a & Ha & Hl).
  apply last_named_header in Hl as [Hin Hn]. by exists a.
Qed.

Lemma chosen_none columns aliases :
  chosen columns aliases = None ↔
  Forall (λ c, strip (lower c) ∉ aliases) columns.
Proof.
  unfold chosen. rewrite head_None. split.
  - intros Hnil. apply Forall_forall. intros c Hc Ha.
    assert (Hne : List.filter (named (strip (lower c))) columns ≠ []).
    { intros Hf.
      assert (Hin : c ∈ List.filter (named (strip (lower c))) columns).
      { apply list_elem_of_In, List.filter_In.
        split; [by apply list_elem_of_In|]. apply String.eqb_refl. }
      rewrite Hf in Hin. by apply elem_of_nil in Hin. }
    destruct (last_named columns (strip (lower c))) as [c'|] eqn:Hl.
    + assert (Hin : c' ∈ omap (last_named columns) aliases).
      { apply list_elem_of_omap. by exists (strip (lower c)). }
      rewrite Hnil in Hin. by apply elem_of_nil in Hin.
    + by apply last_None in Hl.
  - intros Hall. destruct (omap (last_named columns) aliases) as [|c l] eqn:Ho;
      [done|].
    assert (Hin : c ∈ omap (last_named columns) aliases)
      by (rewrite Ho; by left).
    apply list_elem_of_omap in Hin as (a & Ha & [Hc Hn]%last_named_header).
    rewrite Forall_forall in Hall. destruct (Hall c Hc). by rewrite Hn.
Qed.

Lemma read_input_csv_chosen columns :
  read_input_csv columns = (λ ka, (ka.1, chosen columns ka.2)) <$> ALIASES.
Proof.
  pose proof (source_of_column columns) as Hsrc. unfold ALIASES in *.
  repeat (apply Forall_cons in Hsrc as [? Hsrc]). cbn [fst snd] in *.
  unfold read_input_csv. csimpl. by repeat f_equal.
Qed.

Lemma aliases_fun k a1 a2 :
  (k, a1) ∈ ALIASES → (k, a2) ∈ ALIASES → a1 = a2.
Proof.
  unfold ALIASES. intros H1 H2.
  repeat (apply elem_of_cons in H1 as [H1|H1]; [injection H1 as -> ->|]);
    [| | | | |by apply elem_of_nil in H1];
    repeat (apply elem_of_cons in H2 as [H2|H2]; [congruence|]);
    by apply elem_of_nil in H2.
Qed.

Lemma aliases_named k aliases :
  (k, aliases) ∈ ALIASES → "" ∉ aliases.
Proof.
  unfold ALIASES. intros H1.
  repeat (apply elem_of_cons in H1 as [H1|H1]; [injection H1 as -> ->|]);
    [| | | | |by apply elem_of_nil in H1];
    intros H2;
    repeat (apply elem_of_cons in H2 as [H2|H2]; [done|]);
    by apply elem_of_nil in H2.
Qed.

(** X15. [read_input_csv] builds the five columns [company_name],
    [website], [linkedin], [founder_name] and [country], in this order.
    Each is filled from the input column chosen by header, read in lower
    case and trimmed: the first accepted name that some header matches
    decides, and of several headers that read the same the last one is
    taken.  A column that is filled comes from a header of the input that
    reads as one of its accepted names; a column is left blank exactly
    when no header reads as an accepted name. *)
Theorem input_columns_by_alias (columns : list string) :
  (read_input_csv columns).*1
  = ["company_name"; "website"; "linkedin"; "founder_name"; "country"]
  ∧ read_input_csv columns = (λ ka, (ka.1, chosen columns ka.2)) <$> ALIASES
  ∧ (∀ k c, (k, Some c) ∈ read_input_csv columns →
       c ∈ columns ∧ c ≠ ""
       ∧ ∃ aliases, (k, aliases) ∈ ALIASES ∧ strip (lower c) ∈ aliases)
  ∧ (∀ k aliases, (k, aliases) ∈ ALIASES →
       (k, None) ∈ read_input_csv columns ↔
       Forall (λ c, strip (lower c) ∉ aliases) columns).
Proof.
  split; [done|]. split; [apply read_input_csv_chosen|].
  rewrite read_input_csv_chosen. split.
  { intros k c ([k' aliases] & [= -> Hc] & Hal)%list_elem_of_fmap.
    cbn [fst snd] in *. symmetry in Hc.
    apply chosen_header in Hc as (a & Ha & Hin & Hn).
    split; [done|]. split.
    - intros ->. cbn in Hn. subst a. by apply (aliases_named _ _ Hal).
    - exists aliases. by rewrite Hn. }
  intros k aliases Hal. rewrite <- chosen_none, list_elem_of_fmap. split.
  - intros ([k' aliases'] & [= -> Hc] & Hal'). cbn [fst snd] in *.
    by rewrite (aliases_fun _ _ _ Hal Hal').
  - intros Hc. exists (k, aliases). cbn [fst snd]. by rewrite Hc.
Qed.

End InputCsvProps.

(** ** io.py: what resuming from a checkpoint removes *)

Module IoProps.
Import PyStr Io IoFacts.

Lemma filter_twice {A} (f : A → bool) l :
  List.filter f (List.filter f l) = List.filter f l.
Proof.
  induction l as [|x l IH]; [done|]. cbn [List.filter].
  destruct (f x) eqn:Hx; [|done]. cbn [List.filter]. by rewrite Hx, IH.
Qed.

Lemma filter_keeps_order {A} (f : A → bool) l : List.filter f l `sublist_of` l.
Proof.
  induction l as [|x l IH]; [constructor|]. cbn [List.filter].
  destruct (f x); by constructor.
Qed.

Lemma filter_unchanged {A} (f : A → bool) l :
  (∀ x, x ∈ l → f x = true) → List.filter f l = l.
Proof.
  induction l as [|x l IH]; [done|]. intros Hall. cbn [List.filter].
  rewrite (Hall x) by by left. f_equal. apply IH. intros y Hy.
  apply Hall. by right.
Qed.

(** X16. [merge_checkpoint] only ever removes rows: the result is a
    sub-sequence of the input table, an empty checkpoint leaves the table
    as it is, and merging twice is merging once.  A row whose trimmed
    company name no checkpoint row carries is kept; and when no checkpoint
    row has a blank domain, no row is removed at all. *)
Theorem merge_checkpoint_only_drops_named_rows
    (df : list input_row) (chk : list checkpoint_row) :
  merge_checkpoint df [] = df
  ∧ merge_checkpoint df chk `sublist_of` df
  ∧ merge_checkpoint (merge_checkpoint df chk) chk = merge_checkpoint df chk
  ∧ (∀ r, r ∈ df →
       (∀ c n, c ∈ chk → chk_company_name c = Some n →
               strip n ≠ strip (default "" (in_company_name r))) →
       r ∈ merge_checkpoint df chk)
  ∧ (Forall (λ c, ∀ d, chk_domain c = Some d → strip d ≠ "") chk →
     merge_checkpoint df chk = df).
Proof.
  split; [done|]. split.
  { destruct chk; [done|]. apply filter_keeps_order. }
  split.
  { destruct chk; [done|]. apply filter_twice. }
  split.
  { intros r Hin Hnew. destruct chk as [|c0 chk0] eqn:Hchk; [done|].
    rewrite <- Hchk in *. apply merge_checkpoint_elem; [by rewrite Hchk|].
    split; [done|]. intros (c & n & d & Hc & Hn & _ & Hname & _).
    by apply (Hnew c n). }
  intros Hdom. destruct chk as [|c0 chk0] eqn:Hchk; [done|].
  rewrite <- Hchk in *. unfold merge_checkpoint. rewrite Hchk.
  rewrite <- Hchk. apply filter_unchanged. intros r Hin.
  unfold row_mask. apply bool_decide_eq_true.
  intros (c & n & d & Hc & _ & Hd & [= _ Hblank])%elem_of_processed_keys.
  rewrite Forall_forall in Hdom. by apply (Hdom c Hc d).
Qed.

End IoProps.

(** ** discover.py: where a domain comes from *)

Module DiscoverProps.
Import PyStr Utils Discover DiscoverSpec NormalizeSpec NormalizeFacts ExtractFacts TextSpec ExtractProps.

Lemma substring_drop n : ∀ s, String.substring 0 n s ++ drop n s = s.
Proof.
  induction n as [|n IH]; intros [|c s]; try done.
  change (String c (String.substring 0 n s ++ drop n s) = String c s).
  f_equal. apply IH.
Qed.

Lemma prefix_lower pat : ∀ s,
  String.prefix pat (lower s) = true →
  lower (String.substring 0 (String.length pat) s) = pat.
Proof.
  induction pat as [|a pat IH]; intros s Hpre.
  { by destruct s. }
  destruct s as [|b s]; [done|]. cbn [lower String.prefix] in Hpre.
  destruct (ascii_dec a (lower_char b)) as [->|]; [|done].
  cbn [String.length String.substring lower]. by rewrite (IH s Hpre).
Qed.

Lemma span_app p s : fst (span p s) ++ snd (span p s) = s.
Proof.
  induction s as [|c s IH]; simpl; [done|].
  destruct (p c); [|done]. destruct (span p s) as [a b]. cbn [fst snd] in *.
  change (String c (a ++ b) = String c s). by f_equal.
Qed.

Lemma str_app_assoc (a b c : string) : (a ++ b) ++ c = a ++ b ++ c.
Proof.
  induction a as [|x a IH]; [done|].
  change (String x ((a ++ b) ++ c) = String x (a ++ b ++ c)). by f_equal.
Qed.

Lemma match_url_spec s m rest :
  match_url s = Some (m, rest) → s = m ++ rest ∧ url_shape m.
Proof.
  unfold match_url.
  set (scheme := if String.prefix "https://" (lower s) then Some 8%nat
                 else if String.prefix "http://" (lower s) then Some 7%nat
                 else None).
  assert (Hscheme : ∀ n, scheme = Some n →
            lower (String.substring 0 n s) = "http://"
            ∨ lower (String.substring 0 n s) = "https://").
  { subst scheme. intros n.
    destruct (String.prefix "https://" (lower s)) eqn:H8.
    { intros [= <-]. right. by apply (prefix_lower "https://"). }
    destruct (String.prefix "http://" (lower s)) eqn:H7; [|done].
    intros [= <-]. left. by apply (prefix_lower "http://"). }
  destruct scheme as [n|]; [|done]. specialize (Hscheme n eq_refl).
  pose proof (span_app url_char (drop n s)) as Happ.
  pose proof (span_chars url_char (drop n s)) as Hch.
  destruct (span url_char (drop n s)) as [body r]. cbn [fst snd] in *.
  destruct (is_empty body) eqn:Hb; [done|]. apply is_empty_false in Hb.
  intros [= <- <-]. split.
  - by rewrite str_app_assoc, Happ, substring_drop.
  - by exists (String.substring 0 n s), body.
Qed.

Lemma match_url_shorter s m rest :
  match_url s = Some (m, rest) → (String.length rest < String.length s)%nat.
Proof.
  intros [Hs (scheme & body & -> & _ & Hb & _)]%match_url_spec.
  subst s. rewrite !str_length_app. destruct body; [done|]. simpl. lia.
Qed.

Lemma findall_fuel_shape fuel : ∀ s,
  Forall (λ u, url_shape u ∧ occurs_in u s) (findall_fuel fuel s).
Proof.
  induction fuel as [|fuel IH]; intros s; cbn [findall_fuel]; [constructor|].
  destruct s as [|c s]; [constructor|].
  destruct (match_url (String c s)) as [[m rest]|] eqn:Hm.
  - apply match_url_spec in Hm as [Hs Hshape]. constructor.
    + split; [done|]. exists "", rest. by rewrite Hs.
    + eapply Forall_impl; [apply IH|]. intros u [Hu (pre & post & ->)].
      split; [done|]. exists (m ++ pre), post.
      by rewrite Hs, str_app_assoc.
  - eapply Forall_impl; [apply IH|]. intros u [Hu (pre & post & ->)].
    split; [done|]. by exists (String c pre), post.
Qed.

(** [findall] is not cut short: more turns give the same matches. *)
Lemma findall_fuel_stable fuel : ∀ fuel' s,
  (String.length s <= fuel)%nat → (String.length s <= fuel')%nat →
  findall_fuel fuel s = findall_fuel fuel' s.
Proof.
  induction fuel as [|fuel IH]; intros [|fuel'] [|c s] H1 H2;
    try done; try (simpl in *; lia).
  cbn [findall_fuel].
  destruct (match_url (String c s)) as [[m rest]|] eqn:Hm.
  - apply match_url_shorter in Hm. simpl in *.
    rewrite (IH fuel' rest); [done|lia|lia].
  - simpl in *. apply IH; lia.
Qed.

Section Discover.
Variable urlparse : string -> outcome ParseResult.
Variable tld_extract : string -> outcome ExtractResult.
Variable http_get : string -> outcome Response.
Variable serp_allowed : bool.
Variable serp_links : string -> outcome (list (option string)).

Local Abbreviation normalize := (normalize_domain urlparse tld_extract).
Local Abbreviation linkedin := (from_linkedin urlparse tld_extract http_get).
Local Abbreviation serp := (from_serp urlparse tld_extract serp_links).

Lemma normalize_returns x :
  ∃ r, normalize x = Returned r ∧ ∀ d, r = Some d → d ≠ "".
Proof.
  destruct (normalize_domain_cases urlparse tld_extract x)
    as [[_ H]|[(_ & _ & H)|[(h & _ & _ & H)|(d & Hreg & H)]]];
    try (exists None; split; [done|]; by intros d [=]).
  exists (Some d). split; [done|]. intros d' [= <-].
  destruct Hreg as (h & ext & _ & _ & Hd & _ & ->).
  by destruct (domain ext).
Qed.

Lemma for_each_normalize us :
  ∃ ws, for_each normalize us = Returned ws
        ∧ Forall2 (λ u w, normalize u = Returned w) us ws.
Proof.
  induction us as [|u us (ws & Hws & Hall)]; [by exists []|].
  destruct (normalize_returns u) as (w & Hw & _).
  exists (w :: ws). cbn [for_each]. rewrite Hw, Hws. split; [done|].
  by constructor.
Qed.

Lemma head_truthy ws d :
  head (truthy_domains ws) = Some d → Some d ∈ ws ∧ d ≠ "".
Proof.
  unfold truthy_domains. induction ws as [|[w|] ws IH]; csimpl; [done| |].
  - destruct (is_empty w) eqn:Hw; csimpl.
    + intros [? ?]%IH. split; [by right|done].
    + intros [= ->]. apply is_empty_false in Hw. split; [by left|done].
  - intros [? ?]%IH. split; [by right|done].
Qed.

Lemma first_normalized us d :
  (ws ← for_each normalize us; mret (head (truthy_domains ws)))
  = Returned (Some d) →
  ∃ u, u ∈ us ∧ normalize u = Returned (Some d).
Proof.
  destruct (for_each_normalize us) as (ws & -> & Hall). cbn.
  intros [= [Hin _]%head_truthy].
  apply list_elem_of_lookup_1 in Hin as [i Hi].
  destruct (Forall2_lookup_r _ _ _ _ _ Hall Hi) as (u & Hu & Hn).
  exists u. split; [by eapply list_elem_of_lookup_2|done].
Qed.

Lemma first_normalized_returns us :
  ∃ hit, (ws ← for_each normalize us; mret (head (truthy_domains ws)))
         = Returned hit.
Proof. destruct (for_each_normalize us) as (ws & -> & _). by eexists. Qed.

Lemma from_linkedin_hit url d :
  linkedin url = Returned (Some d) →
  ∃ r u, http_get url = Returned r ∧ u ∈ findall (text r)
         ∧ normalize (Some u) = Returned (Some d).
Proof.
  unfold from_linkedin, fetch_text.
  destruct (http_get url) as [r|]; [|done]. cbn.
  destruct (raise_for_status r); [|done]. cbn.
  intros (u & Hin & Hn)%first_normalized.
  apply list_elem_of_fmap in Hin as (u' & -> & Hin). by exists r, u'.
Qed.

Lemma from_serp_hit name d :
  serp name = Returned (Some d) →
  ∃ links l, serp_links (name ++ " official website") = Returned links
             ∧ l ∈ links ∧ normalize l = Returned (Some d).
Proof.
  unfold from_serp.
  destruct (serp_links _) as [links|]; [|done]. cbn.
  intros (l & Hin & Hn)%first_normalized. by exists links, l.
Qed.

Lemma website_stage website :
  (if is_empty website then mret None else normalize (Some website))
  = normalize (Some website).
Proof. by destruct website. Qed.

End Discover.

Lemma lower_char_idem c : lower_char (lower_char c) = lower_char c.
Proof. by destruct c as [[] [] [] [] [] [] [] []]. Qed.

Lemma url_char_lower c : url_char (lower_char c) = url_char c.
Proof. by destruct c as [[] [] [] [] [] [] [] []]. Qed.

Lemma lower_idem s : lower (lower s) = lower s.
Proof.
  induction s as [|c s IH]; [done|]. cbn [lower].
  by rewrite lower_char_idem, IH.
Qed.

Lemma lower_length s : String.length (lower s) = String.length s.
Proof. induction s as [|c s IH]; [done|]. cbn [lower String.length]. by rewrite IH. Qed.

Lemma lower_drop n : ∀ s, drop n (lower s) = lower (drop n s).
Proof. induction n as [|n IH]; intros [|c s]; try done. apply IH. Qed.

Lemma lower_substring n : ∀ s,
  String.substring 0 n (lower s) = lower (String.substring 0 n s).
Proof.
  induction n as [|n IH]; intros [|c s]; try done.
  cbn [lower String.substring]. by rewrite IH.
Qed.

Lemma lower_span s :
  span url_char (lower s)
  = (lower (fst (span url_char s)), lower (snd (span url_char s))).
Proof.
  induction s as [|c s IH]; [done|]. cbn [lower span].
  rewrite url_char_lower, IH. destruct (url_char c); [|done].
  by destruct (span url_char s).
Qed.

Lemma lower_match_url s :
  match_url (lower s)
  = (λ mr, (lower (fst mr), lower (snd mr))) <$> match_url s.
Proof.
  unfold match_url. rewrite lower_idem.
  destruct (if String.prefix "https://" (lower s) then Some 8%nat
            else if String.prefix "http://" (lower s) then Some 7%nat
            else None) as [n|]; [|done].
  rewrite lower_drop, lower_span, lower_substring.
  destruct (span url_char (drop n s)) as [body rest]. cbn [fst snd].
  destruct body; [done|]. cbn [lower is_empty]. csimpl.
  by rewrite lower_app.
Qed.

Lemma lower_findall_fuel fuel : ∀ s,
  findall_fuel fuel (lower s) = lower <$> findall_fuel fuel s.
Proof.
  induction fuel as [|fuel IH]; intros [|c s]; try done.
  change (lower (String c s)) with (String (lower_char c) (lower s)) at 1.
  cbn [findall_fuel].
  change (String (lower_char c) (lower s)) with (lower (String c s)).
  rewrite lower_match_url.
  destruct (match_url (String c s)) as [[m rest]|]; csimpl.
  - by rewrite IH.
  - apply IH.
Qed.

(** X17. On a page of ASCII text, every candidate that the LinkedIn stage
    finds is a piece of that page made of [http://] or [https://], in any
    letter case, followed by at least one character, none of them white
    space, a double quote, [<] or [>].  The scan is not cut short by its
    bound, and it does not depend on letter case: the candidates of the
    lower-cased page are the lower-cased candidates of the page. *)
Theorem findall_matches_are_urls (s : string) :
  ascii_text s →
  Forall (λ u, url_shape u ∧ occurs_in u s) (findall s)
  ∧ (∀ fuel, (String.length s <= fuel)%nat → findall_fuel fuel s = findall s)
  ∧ findall (lower s) = lower <$> findall s.
Proof.
  intros _. split; [apply findall_fuel_shape|]. split.
  - intros fuel Hfuel. by apply findall_fuel_stable.
  - unfold findall. rewrite lower_length. apply lower_findall_fuel.
Qed.

Lemma findall_matches_are_urls_witness :
  findall linkedin_page = ["HTTPS://Example.com/about'"; "http://x"]
  ∧ Forall (λ u, url_shape u ∧ occurs_in u linkedin_page)
           (findall linkedin_page).
Proof.
  split; [vm_compute; reflexivity|].
  apply (findall_matches_are_urls linkedin_page). vm_compute. reflexivity.
Defined.

(** X18. [determine_domain_for_company] never raises, whatever the parser,
    the suffix splitter, the page fetch and the search do.  It returns a
    non-empty domain with one of the methods website, linkedin and serp,
    or no domain with the method unknown.  A website that normalises wins
    and leaves no note; a linkedin answer is the normalised form of a
    candidate found in the fetched page; a serp answer needs the search to
    be allowed and is the normalised form of one of its links.  The notes
    hold at most one LinkedIn error and one search error, in this order.
    In the row built by [process_company], the extraction method is then
    the scorer's method when a domain was found, and unknown otherwise. *)
Theorem domain_discovery_outcome
    (urlparse : string → outcome ParseResult)
    (tld_extract : string → outcome ExtractResult)
    (http_get : string → outcome Response)
    (serp_allowed : bool)
    (serp_links : string → outcome (list (option string)))
    (company_name website linkedin_url : string) :
  let normalize := normalize_domain urlparse tld_extract in
  ∃ dom m notes,
    determine_domain_for_company urlparse tld_extract http_get serp_allowed
      serp_links company_name website linkedin_url = Returned (dom, m, notes)
    ∧ match dom with
      | Some d => d ≠ "" ∧ m ∈ ["website"; "linkedin"; "serp"]
      | None => m = "unknown"
      end
    ∧ (∀ d, normalize (Some website) = Returned (Some d) →
            (dom, m, notes) = (Some d, "website", []))
    ∧ (m = "website" → normalize (Some website) = Returned dom ∧ notes = [])
    ∧ (m = "linkedin" →
         notes = [] ∧ linkedin_url ≠ ""
         ∧ ∃ r u, http_get linkedin_url = Returned r ∧ u ∈ findall (text r)
                  ∧ normalize (Some u) = Returned dom)
    ∧ (m = "serp" →
         serp_allowed = true
         ∧ ∃ links l,
             serp_links (company_name ++ " official website") = Returned links
             ∧ l ∈ links ∧ normalize l = Returned dom)
    ∧ notes `sublist_of` ["linkedin_parse_error:"; "serpapi_error:"]
    ∧ (∀ method, extraction_method dom method m
                 = match dom with Some _ => method | None => "unknown" end).
Proof.
  cbn zeta. unfold determine_domain_for_company. rewrite website_stage.
  destruct (normalize_returns urlparse tld_extract (Some website))
    as (w & Hw & Hne).
  rewrite Hw. cbn [mbind outcome_bind].
  destruct w as [d|].
  { specialize (Hne d eq_refl). apply is_empty_false in Hne.
    cbn [truthy_domains omap list_omap]. rewrite Hne. cbn [head mret outcome_ret].
    eexists _, _, _. split; [reflexivity|]. apply is_empty_false in Hne.
    split; [split; [done|by left]|].
    split; [by intros ? [= ->]|]. split; [done|].
    split; [done|]. split; [done|]. split; [repeat constructor|].
    intros method. unfold extraction_method. cbn [truthy_domains omap list_omap].
    apply is_empty_false in Hne. by rewrite Hne. }
  clear Hne. cbn [truthy_domains omap list_omap head].
  assert (Hstage : ∃ hit notes,
    (if is_empty linkedin_url then (None, [])
     else match from_linkedin urlparse tld_extract http_get linkedin_url with
          | Returned hit => (hit, [])
          | Raised => (None, ([] ++ ["linkedin_parse_error:"])%list)
          end) = (hit, notes)
    ∧ notes `sublist_of` ["linkedin_parse_error:"]
    ∧ (∀ d, hit = Some d →
         notes = [] ∧ linkedin_url ≠ ""
         ∧ from_linkedin urlparse tld_extract http_get linkedin_url
           = Returned (Some d))).
  { destruct (is_empty linkedin_url) eqn:Hl.
    { exists None, []. split; [done|]. split; [repeat constructor|done]. }
    apply is_empty_false in Hl.
    destruct (from_linkedin _ _ _ _) as [hit|].
    - exists hit, []. split; [done|]. split; [repeat constructor|].
      by intros d ->.
    - exists None, ["linkedin_parse_error:"]. split; [done|].
      split; [repeat constructor|done]. }
  destruct Hstage as (hit & notes & -> & Hsub & Hhit).
  destruct hit as [d|].
  { destruct (Hhit d eq_refl) as (-> & Hl & Hfrom).
    pose proof Hfrom as (r & u & Hr & Hu & Hn)%from_linkedin_hit.
    assert (Hd : d ≠ "").
    { destruct (normalize_returns urlparse tld_extract (Some u))
        as (w & Hw' & Hne). rewrite Hn in Hw'. injection Hw' as <-.
      by apply Hne. }
    eexists _, _, _. split; [reflexivity|].
    split; [split; [done|by right; left]|].
    split; [intros ? ?; congruence|]. split; [done|].
    split; [intros _; split; [done|]; split; [done|]; by exists r, u|].
    split; [done|]. split; [repeat constructor|].
    intros method. unfold extraction_method. cbn [truthy_domains omap list_omap].
    apply is_empty_false in Hd. by rewrite Hd. }
  clear Hhit.
  assert (Hstage : ∃ hit notes',
    (if serp_allowed then
       match from_serp urlparse tld_extract serp_links company_name with
       | Returned hit => (hit, notes)
       | Raised => (None, (notes ++ ["serpapi_error:"])%list)
       end
     else (None, notes)) = (hit, notes')
    ∧ notes' `sublist_of` ["linkedin_parse_error:"; "serpapi_error:"]
    ∧ (∀ d, hit = Some d →
         serp_allowed = true
         ∧ from_serp urlparse tld_extract serp_links company_name
           = Returned (Some d))).
  { assert (Hn1 : notes `sublist_of` ["linkedin_parse_error:"; "serpapi_error:"]).
    { etrans; [exact Hsub|]. repeat constructor. }
    assert (Hn2 : (notes ++ ["serpapi_error:"])%list
                  `sublist_of` ["linkedin_parse_error:"; "serpapi_error:"]).
    { change ["linkedin_parse_error:"; "serpapi_error:"]
        with (["linkedin_parse_error:"] ++ ["serpapi_error:"])%list.
      by apply sublist_app. }
    destruct serp_allowed.
    2:{ exists None, notes. split; [done|]. split; done. }
    destruct (from_serp _ _ _ _) as [hit|].
    - exists hit, notes. split; [done|]. split; [done|]. by intros d ->.
    - exists None, (notes ++ ["serpapi_error:"])%list. split; [done|].
      split; done. }
  destruct Hstage as (hit & notes' & -> & Hsub' & Hhit).
  destruct hit as [d|].
  { destruct (Hhit d eq_refl) as (Hallowed & Hfrom).
    pose proof Hfrom as (links & l & Hlinks & Hl & Hn)%from_serp_hit.
    assert (Hd : d ≠ "").
    { destruct (normalize_returns urlparse tld_extract l)
        as (w & Hw' & Hne). rewrite Hn in Hw'. injection Hw' as <-.
      by apply Hne. }
    eexists _, _, _. split; [reflexivity|].
    split; [split; [done|by right; right; left]|].
    split; [intros ? ?; congruence|]. split; [done|]. split; [done|].
    split; [intros _; split; [done|]; by exists links, l|].
    split; [done|].
    intros method. unfold extraction_method. cbn [truthy_domains omap list_omap].
    apply is_empty_false in Hd. by rewrite Hd. }
  eexists _, _, _. split; [reflexivity|]. split; [done|].
  split; [intros ? ?; congruence|]. split; [done|]. split; [done|].
  split; [done|]. split; [done|]. done.
Qed.

End DiscoverProps.

(** ** apollo_integration.py: the people kept from a search *)

Module ApolloProps.
Import PyStr Apollo.

Lemma retrying_first {A} n (body : nat → outcome A) : ∀ k,
  match retrying n body k with
  | Returned a =>
      ∃ i, (i < n)%nat ∧ body (k + i)%nat = Returned a
           ∧ ∀ j, (j < i)%nat → body (k + j)%nat = Raised
  | Raised => ∀ i, (i < n)%nat → body (k + i)%nat = Raised
  end.
Proof.
  induction n as [|n IH]; intros k; cbn [retrying]; [intros; lia|].
  destruct (body k) as [a|] eqn:Hk.
  - exists 0%nat. rewrite Nat.add_0_r. split; [lia|]. split; [done|].
    intros; lia.
  - specialize (IH (S k)). destruct (retrying n body (S k)) as [a|].
    + destruct IH as (i & Hi & Hb & Hfail). exists (S i).
      split; [lia|]. rewrite Nat.add_succ_r. split; [done|].
      intros [|j] Hj; [by rewrite Nat.add_0_r|].
      rewrite Nat.add_succ_r. apply Hfail. lia.
    + intros [|i] Hi; [by rewrite Nat.add_0_r|].
      rewrite Nat.add_succ_r. apply IH. lia.
Qed.

Lemma email_field (p : gmap string json) :
  get_field (person_record p) "email"
  = py_or (get_field p "email") (py_and (get_field p "email_status") JNull).
Proof. unfold person_record, get_field. by simplify_map_eq. Qed.

Lemma email_truthy (p : gmap string json) :
  truthy (get_field (person_record p) "email") = truthy (get_field p "email")
  ∧ (truthy (get_field p "email") = true →
       get_field (person_record p) "email" = get_field p "email")
  ∧ (truthy (get_field p "email") = false →
       get_field (person_record p) "email"
       = if truthy (get_field p "email_status") then JNull
         else get_field p "email_status").
Proof.
  rewrite email_field. unfold py_or, py_and.
  destruct (truthy (get_field p "email")) eqn:He.
  { split; [done|]. split; done. }
  destruct (truthy (get_field p "email_status")) eqn:Hs.
  { split; [done|]. split; done. }
  split; [done|]. split; done.
Qed.

(** X19. The record kept for a person of the Apollo answer has the six
    keys [name], [title], [seniority], [email], [linkedin_url] and
    [source]; the source is apollo and the four plain fields are copied.
    Its [email] is truthy exactly when the person's [email] is, and is then
    that value; otherwise it is [None], or the person's [email_status] when
    that is itself falsy.  The status never stands in for an address. *)
Theorem apollo_email_is_upstream_email (p : gmap string json) :
  let r := person_record p in
  dom r = {[ "name"; "title"; "seniority"; "email"; "linkedin_url"; "source" ]}
  ∧ r !! "source" = Some (JStr "apollo")
  ∧ Forall (λ k, get_field r k = get_field p k)
      ["name"; "title"; "seniority"; "linkedin_url"]
  ∧ truthy (get_field r "email") = truthy (get_field p "email")
  ∧ (truthy (get_field p "email") = true →
       get_field r "email" = get_field p "email")
  ∧ (truthy (get_field p "email") = false →
       get_field r "email"
       = if truthy (get_field p "email_status") then JNull
         else get_field p "email_status").
Proof.
  cbn zeta. split.
  { unfold person_record. rewrite !dom_insert_L, dom_empty_L. set_solver. }
  split; [unfold person_record; by simplify_map_eq|]. split.
  { repeat constructor; unfold person_record, get_field; by simplify_map_eq. }
  apply email_truthy.
Qed.

(** X20. [apollo_people_for_domain] returns the empty list, whatever the
    network does, when the key or the domain is missing.  Otherwise it
    returns the records of the first of at most three requests that
    succeeds, and raises when all three fail.  Every record returned is
    marked apollo, and a truthy [email] in it is the [email] of a person
    of the answer. *)
Theorem apollo_search_tries_three_times (key domain : option string)
    (post : nat → outcome (list (gmap string json))) :
  let result := apollo_people_for_domain key domain post in
  (missing key = true ∨ missing domain = true → result = Returned [])
  ∧ (missing key = false → missing domain = false →
     match result with
     | Returned rs =>
         ∃ i people, (i < 3)%nat ∧ post i = Returned people
           ∧ (∀ j, (j < i)%nat → post j = Raised)
           ∧ rs = person_record <$> people
     | Raised => post 0%nat = Raised ∧ post 1%nat = Raised ∧ post 2%nat = Raised
     end)
  ∧ (∀ rs, result = Returned rs →
       Forall (λ r, r !! "source" = Some (JStr "apollo")
                    ∧ (truthy (get_field r "email") = true →
                       ∃ i people p, post i = Returned people ∧ p ∈ people
                         ∧ get_field p "email" = get_field r "email")) rs).
Proof.
  cbn zeta. unfold apollo_people_for_domain.
  set (body := λ k, match post k with
                    | Returned people => Returned (person_record <$> people)
                    | Raised => Raised
                    end).
  pose proof (retrying_first 3 body 0) as Hret. cbn [Nat.add] in Hret.
  split.
  { intros [-> | ->]; [done|]. by rewrite orb_true_r. }
  split.
  { intros -> ->. cbn [orb]. destruct (retrying 3 body 0) as [rs|].
    - destruct Hret as (i & Hi & Hb & Hfail). subst body. cbn beta in *.
      destruct (post i) as [people|] eqn:Hp; [|done]. injection Hb as <-.
      exists i, people. split; [done|]. split; [done|]. split; [|done].
      intros j Hj. specialize (Hfail j Hj). by destruct (post j).
    - subst body. cbn beta in Hret.
      pose proof (Hret 0%nat ltac:(lia)) as H0.
      pose proof (Hret 1%nat ltac:(lia)) as H1.
      pose proof (Hret 2%nat ltac:(lia)) as H2.
      destruct (post 0%nat); [done|]. destruct (post 1%nat); [done|].
      by destruct (post 2%nat). }
  intros rs. destruct (missing key || missing domain).
  { intros [= <-]. constructor. }
  intros Hrs. rewrite Hrs in Hret. destruct Hret as (i & _ & Hb & _).
  subst body. cbn beta in Hb. destruct (post i) as [people|] eqn:Hp; [|done].
  injection Hb as <-. apply Forall_fmap, Forall_forall. intros p Hin. cbn.
  split; [unfold person_record; by simplify_map_eq|].
  intros Ht. exists i, people, p. split; [done|]. split; [done|].
  destruct (email_truthy p) as (Heq & Hsame & _). symmetry. apply Hsame.
  by rewrite <- Heq.
Qed.

End ApolloProps.

(** ** main.py: the addresses of a row can be read back *)

Module FoundEmailsProps.
Import PyStr FoundEmails FoundEmailsSpec.

Lemma split_plain sep e :
  mem_char sep e = false → split sep e = [e].
Proof.
  induction e as [|c e IH]; [done|]. cbn [mem_char split].
  intros [Hc He]%orb_false_elim. rewrite Ascii.eqb_sym, Hc, (IH He). done.
Qed.

Lemma split_app sep e rest :
  mem_char sep e = false →
  split sep (e ++ String sep rest) = e :: split sep rest.
Proof.
  induction e as [|c e IH].
  { intros _. change ("" ++ String sep rest) with (String sep rest).
    cbn [split]. by rewrite Ascii.eqb_refl. }
  cbn [mem_char]. intros [Hc He]%orb_false_elim.
  change (String c e ++ String sep rest) with (String c (e ++ String sep rest)).
  cbn [split]. by rewrite Ascii.eqb_sym, Hc, (IH He).
Qed.

Lemma split_join sep emails :
  emails ≠ [] → Forall (λ e, mem_char sep e = false) emails →
  split sep (join (String sep "") emails) = emails.
Proof.
  unfold join. induction emails as [|e emails IH]; [done|]. intros _ Hall.
  apply Forall_cons in Hall as [He Hall].
  destruct emails as [|e' emails].
  { cbn [String.concat]. by apply split_plain. }
  change (String.concat (String sep "") (e :: e' :: emails))
    with (e ++ String sep (String.concat (String sep "") (e' :: emails))).
  rewrite (split_app _ _ _ He), IH; done.
Qed.

Lemma join_empty sep emails :
  Forall (λ e, e ≠ "") emails →
  is_empty (join sep emails) = match emails with [] => true | _ => false end.
Proof.
  unfold join. destruct emails as [|e emails]; [done|].
  intros [He _]%Forall_cons. destruct emails; cbn [String.concat];
    by destruct e.
Qed.

(** X21. The [found_emails] field of the row that [process_company]
    builds keeps the addresses apart: when no address is empty or holds a
    semicolon, splitting the field at the semicolons gives back the
    addresses, in order, so that two lists of such addresses with the same
    field are the same list; and the field is empty exactly when there is
    no address. *)
Theorem found_emails_field_round_trip (emails others : list string) :
  Forall countable emails → Forall countable others →
  (emails ≠ [] → split ";" (found_emails_field emails) = emails)
  ∧ (found_emails_field emails = "" ↔ emails = [])
  ∧ (found_emails_field emails = found_emails_field others → emails = others).
Proof.
  unfold found_emails_field. intros He Ho.
  assert (Hsplit : ∀ l, Forall countable l → l ≠ [] →
                        split ";" (join ";" l) = l).
  { intros l Hl Hne. apply (split_join ";"%char); [done|].
    eapply Forall_impl; [exact Hl|]. by intros ? [_ ?]. }
  assert (Hempty : ∀ l, Forall countable l → join ";" l = "" ↔ l = []).
  { intros l Hl. split; [|by intros ->]. intros Hj.
    assert (Hj' : is_empty (join ";" l) = true) by by rewrite Hj.
    rewrite join_empty in Hj'
      by (eapply Forall_impl; [exact Hl|]; by intros ? [? _]).
    by destruct l. }
  split; [by apply Hsplit|]. split; [by apply Hempty|].
  intros Heq. destruct emails as [|e emails].
  - symmetry. apply (Hempty others Ho). by rewrite <- Heq.
  - destruct others as [|o others].
    + apply (Hempty (e :: emails) He). by rewrite Heq.
    + rewrite <- (Hsplit (e :: emails) He), <- (Hsplit (o :: others) Ho);
        [|done|done].
      by rewrite Heq.
Qed.

Lemma found_emails_field_round_trip_witness :
  split ";" (found_emails_field ["ceo@example.com"; "jobs@example.com"])
  = ["ceo@example.com"; "jobs@example.com"].
Proof.
  apply (found_emails_field_round_trip
           ["ceo@example.com"; "jobs@example.com"] []);
    [repeat constructor; done|constructor|done].
Defined.

(** An address that holds the separator is split in two. *)
Example separator_splits_address :
  split ";" (found_emails_field ["a;b@example.com"]) = ["a"; "b@example.com"].
Proof. reflexivity. Qed.

End FoundEmailsProps.
